(** * A shallow embedding of the Itanium C++ ABI demangler [demangler.py]

    The development follows the source file top to bottom: the scan
    cursor ([_Cursor]), the AST nodes ([Node], [QualNode], [CastNode]) with
    their printers, the static lookup tables, the regular expressions used
    for dispatch, and the mutually recursive grammar productions.

    Conventions of the embedding.
    - Python [str] is [string]: the mangled names are ASCII, and an
      [ascii] stands for any character below 256.
    - A Python call either returns a value or raises; the productions are
      written in a state-and-exception monad over the cursor.  Python's
      [None] is a value of the embedding ([PyNone]), because the source
      tests it with [is None] and, in places, stores it inside nodes.
    - Recursion is bounded by a [fuel] argument; [parse] supplies enough of
      it (see [WalkUse.parse_has_fuel]).  The interpreter's recursion limit and
      its limit on the length of integer literals are not modelled.
    - [str] of an integer is that of CPython 3.11 and later: it raises
      [ValueError] on an integer of more than 4300 digits
      ([Py.int_max_str_digits]).
    - Iteration over a Python [set] visits every member once in an order
      the language does not fix; the printer takes that order as a
      parameter ([set_iter]).

    The properties come in two parts: the claims of the specification,
    each settled by a theorem, and after them further properties of the
    code that the specification does not state. *)

From Stdlib Require Import String Ascii ZArith List Lia Bool.
From Stdlib Require DecimalString DecimalNat.
From stdpp Require Import base countable gmap strings pretty.

Import ListNotations.
Local Open Scope list_scope.
Local Open Scope string_scope.

(** ** Python strings *)

Module PyStr.

Fixpoint drop (n : nat) (s : string) : string :=
  match n, s with
  | O, _ => s
  | S n', String _ s' => drop n' s'
  | S _, EmptyString => EmptyString
  end.

Fixpoint take (n : nat) (s : string) : string :=
  match n, s with
  | O, _ => EmptyString
  | S n', String a s' => String a (take n' s')
  | S _, EmptyString => EmptyString
  end.

(** [s[i:j]] for [0 <= i] and [0 <= j]; out-of-range bounds are clamped
    as Python does. *)
Definition slice (s : string) (i j : nat) : string := take (j - i) (drop i s).

(** [c in s] for a one-character [c]. *)
Fixpoint mem (c : ascii) (s : string) : bool :=
  match s with
  | EmptyString => false
  | String a s' => Ascii.eqb a c || mem c s'
  end.

(** [s.find(c)] for a one-character [c], relative to the start of [s]:
    the index of the first occurrence, [None] for Python's [-1]. *)
Fixpoint find (c : ascii) (s : string) : option nat :=
  match s with
  | EmptyString => None
  | String a s' =>
      if Ascii.eqb a c then Some O
      else match find c s' with
           | Some i => Some (S i)
           | None => None
           end
  end.

(** The longest prefix of [s] whose characters all satisfy [p] (a
    greedy character-class repetition). *)
Fixpoint span (p : ascii -> bool) (s : string) : string :=
  match s with
  | EmptyString => EmptyString
  | String a s' => if p a then String a (span p s') else EmptyString
  end.

(** [sep.join(l)] *)
Fixpoint join (sep : string) (l : list string) : string :=
  match l with
  | [] => EmptyString
  | [x] => x
  | x :: l' => x ++ sep ++ join sep l'
  end.

(** [s.startswith(p)] *)
Definition startswith (s p : string) : bool := String.prefix p s.

End PyStr.

(** ** Exceptions and outcomes *)

Inductive exn : Set :=
| TypeError | ValueError | KeyError | AttributeError | AssertionError.

(** What a call does: it returns, it raises, or the model ran out of fuel
    before the call finished. *)
Inductive outcome (A : Type) : Type :=
| Returns (a : A)
| Raises (e : exn)
| NoFuel.
Arguments Returns {A} a.
Arguments Raises {A} e.
Arguments NoFuel {A}.

(** ** [class _Cursor] *)

Record _Cursor : Set := mkCursor { _raw : string; _pos : nat }.

(** The text at and after the position, [self._raw[self._pos:]]. *)
Definition rest (c : _Cursor) : string := PyStr.drop (_pos c) (_raw c).

Module Cursor.

Definition at_end (c : _Cursor) : bool := Nat.eqb (_pos c) (String.length (_raw c)).

(** Python's [accept] returns [True] or falls off its end ([None]); its
    callers only test the truth value. *)
Definition accept (delim : string) (c : _Cursor) : bool * _Cursor :=
  if String.eqb (PyStr.slice (_raw c) (_pos c) (_pos c + String.length delim)) delim
  then (true, mkCursor (_raw c) (_pos c + String.length delim))
  else (false, c).

Definition advance (amount : nat) (c : _Cursor) : option string * _Cursor :=
  if Nat.ltb (String.length (_raw c)) (_pos c + amount) then (None, c)
  else (Some (PyStr.slice (_raw c) (_pos c) (_pos c + amount)),
        mkCursor (_raw c) (_pos c + amount)).

(** [advance_until] is only called with one-character delimiters. *)
Definition advance_until (delim : ascii) (c : _Cursor) : option string * _Cursor :=
  match PyStr.find delim (rest c) with
  | None => (None, c)
  | Some k =>
      let new_pos := _pos c + k in
      (Some (PyStr.slice (_raw c) (_pos c) new_pos), mkCursor (_raw c) (new_pos + 1))
  end.

(** [match]: a compiled pattern is a function from the text at the
    position to the captured groups and the length of the match. *)
Definition pattern (G : Type) : Type := string -> option (G * nat).

Definition cmatch {G : Type} (re : pattern G) (c : _Cursor) : option G * _Cursor :=
  match re (rest c) with
  | Some (g, len) => (Some g, mkCursor (_raw c) (_pos c + len))
  | None => (None, c)
  end.

End Cursor.

(** ** The exception monad of a Python call *)

Definition obind {A B : Type} (m : outcome A) (k : A -> outcome B) : outcome B :=
  match m with
  | Returns a => k a
  | Raises e => Raises e
  | NoFuel => NoFuel
  end.

Declare Scope outcome_scope.
Delimit Scope outcome_scope with outcome.
Notation "'do' x <- e ; k" := (obind e (fun x => k))
  (at level 10, x name, e at level 100, k at level 200,
   format "'[v' 'do'  x  <-  e ; '/' k ']'") : outcome_scope.

(** ** Python built-ins used by the productions and the printers *)

Module Py.

(** The characters below 256 that [int] treats as white space: the six
    of ASCII (tab to carriage return, and the space) and the two Unicode
    spaces above them.  The separators 28 to 31 are not among them:
    [int] leaves a character below 127 as it is. *)
Definition is_space (a : ascii) : bool :=
  let n := nat_of_ascii a in
  (Nat.leb 9 n && Nat.leb n 13) || Nat.eqb n 32
  || Nat.eqb n 133 || Nat.eqb n 160.

Fixpoint lstrip (s : string) : string :=
  match s with
  | String a s' => if is_space a then lstrip s' else s
  | EmptyString => EmptyString
  end.

Fixpoint rstrip (s : string) : string :=
  match s with
  | String a s' =>
      let r := rstrip s' in
      if String.eqb r "" && is_space a then "" else String a r
  | EmptyString => EmptyString
  end.

(** The value of a digit character in bases up to 36. *)
Definition digit_value (a : ascii) : option Z :=
  let n := Z.of_nat (nat_of_ascii a) in
  if (48 <=? n)%Z && (n <=? 57)%Z then Some (n - 48)%Z
  else if (97 <=? n)%Z && (n <=? 122)%Z then Some (n - 87)%Z
  else if (65 <=? n)%Z && (n <=? 90)%Z then Some (n - 55)%Z
  else None.

Fixpoint digits_value (base : Z) (acc : Z) (s : string) : option Z :=
  match s with
  | EmptyString => Some acc
  | String a s' =>
      match digit_value a with
      | Some d => if (d <? base)%Z then digits_value base (acc * base + d)%Z s' else None
      | None => None
      end
  end.

(** [int(x, base)] for an explicit [base] that is 10 or 36: surrounding
    white space and one sign are allowed, then at least one digit.
    [None] for [x] models the call [int(None, base)].  Digit-group
    underscores are left out: neither call site can pass one (the
    decimal text is a run of digits, the base-36 text ends before the
    first underscore). *)
Definition int (x : option string) (base : Z) : outcome Z :=
  match x with
  | None => Raises TypeError
  | Some s =>
      let t := rstrip (lstrip s) in
      let '(sign, digits) :=
        match t with
        | String "+" r => (1%Z, r)
        | String "-" r => ((-1)%Z, r)
        | _ => (1%Z, t)
        end in
      match digits with
      | EmptyString => Raises ValueError
      | _ =>
          match digits_value base 0 digits with
          | Some v => Returns (sign * v)%Z
          | None => Raises ValueError
          end
      end
  end.

(** [d[key]] on a dictionary literal. *)
Fixpoint getitem {V : Type} (d : list (string * V)) (key : string) : outcome V :=
  match d with
  | [] => Raises KeyError
  | (k, v) :: d' => if String.eqb k key then Returns v else getitem d' key
  end.

(** [sys.get_int_max_str_digits()]: the most decimal digits an integer
    may have for [str] to print it.  4300 is what CPython 3.11 and later
    start with. *)
Definition int_max_str_digits : nat := 4300.

(** [str(i)] for an integer [i]: its decimal numeral, or [ValueError]
    when [i] has more digits than the limit; a sign is not counted. *)
Definition str_of_int (i : Z) : outcome string :=
  if Nat.leb (String.length (pretty (Z.abs i))) int_max_str_digits
  then Returns (pretty i)
  else Raises ValueError.

End Py.

(** ** AST nodes: [Node], [QualNode], [CastNode]

    One constructor per [kind]; the fields are those of the named tuples.
    A field that holds a node can hold [None] as well. *)

#[warnings="-register-all"]
Inductive node : Type :=
| PyNone                                        (* None *)
| Name (value : string)                         (* Node('name', value) *)
| QualName (value : list node)                  (* Node('qual_name', value) *)
| TplArgs (value : list node)                   (* Node('tpl_args', value) *)
| Ctor (value : string)                         (* Node('ctor', value) *)
| Dtor (value : string)                         (* Node('dtor', value) *)
| Operator (value : string)                     (* Node('operator', value) *)
| Pointer (value : node)                        (* Node('pointer', value) *)
| LValue (value : node)                         (* Node('lvalue', value) *)
| RValue (value : node)                         (* Node('rvalue', value) *)
| Function (name : node) (args : list node)     (* Node('function', (name, args)) *)
| TplParam (value : Z)                          (* Node('tpl_param', value) *)
| VTable (value : node)                         (* Node('vtable', value) *)
| VTT (value : node)                            (* Node('vtt', value) *)
| TypeInfo (value : node)                       (* Node('typeinfo', value) *)
| TypeInfoName (value : node)                   (* Node('typeinfo_name', value) *)
| CvQual (value : node) (qual : gset string)    (* QualNode('cv_qual', value, qual) *)
| Literal (value : string) (ty : node).         (* CastNode('literal', value, ty) *)

(** [node is None] *)
Definition is_None (n : node) : bool :=
  match n with PyNone => true | _ => false end.

(** [node.kind]; [None] has no such attribute. *)
Definition kind (n : node) : outcome string :=
  match n with
  | PyNone => Raises AttributeError
  | Name _ => Returns "name"
  | QualName _ => Returns "qual_name"
  | TplArgs _ => Returns "tpl_args"
  | Ctor _ => Returns "ctor"
  | Dtor _ => Returns "dtor"
  | Operator _ => Returns "operator"
  | Pointer _ => Returns "pointer"
  | LValue _ => Returns "lvalue"
  | RValue _ => Returns "rvalue"
  | Function _ _ => Returns "function"
  | TplParam _ => Returns "tpl_param"
  | VTable _ => Returns "vtable"
  | VTT _ => Returns "vtt"
  | TypeInfo _ => Returns "typeinfo"
  | TypeInfoName _ => Returns "typeinfo_name"
  | CvQual _ _ => Returns "cv_qual"
  | Literal _ _ => Returns "literal"
  end.

(** [args == (Node('name', 'void'),)] *)
Definition is_void_args (args : list node) : bool :=
  match args with
  | [Name v] => String.eqb v "void"
  | _ => false
  end.

Section Printer.
Local Open Scope outcome_scope.

(** [list(s)] for a set [s] of strings: some enumeration of the members,
    each once.  Which one is up to the interpreter. *)
Variable set_iter : gset string -> list string.

(** [__str__] of the three node classes, and [str(None)]. *)
Fixpoint str (n : node) : outcome string :=
  let map_str :=
    fix map_str (l : list node) : outcome (list string) :=
      match l with
      | [] => Returns []
      | x :: l' => do s <- str x; do ss <- map_str l'; Returns (s :: ss)
      end in
  match n with
  | PyNone => Returns "None"
  | Name value => Returns value
  | QualName value =>
      (fix loop (l : list node) (result : string) : outcome string :=
         match l with
         | [] => Returns result
         | x :: l' =>
             do sep <- (if String.eqb result "" then Returns ""
                        else do k <- kind x;
                             Returns (if String.eqb k "tpl_args" then "" else "::"));
             do s <- str x;
             loop l' (result ++ sep ++ s)
         end) value ""
  | TplArgs value =>
      do ss <- map_str value; Returns ("<" ++ PyStr.join ", " ss ++ ">")
  | Ctor value =>
      if String.eqb value "complete" then Returns "{ctor}"
      else if String.eqb value "base" then Returns "{base ctor}"
      else if String.eqb value "allocating" then Returns "{allocating ctor}"
      else Raises AssertionError
  | Dtor value =>
      if String.eqb value "deleting" then Returns "{deleting dtor}"
      else if String.eqb value "complete" then Returns "{dtor}"
      else if String.eqb value "base" then Returns "{base dtor}"
      else Raises AssertionError
  | Operator value =>
      if PyStr.startswith value "new" || PyStr.startswith value "delete"
      then Returns ("operator " ++ value)
      else Returns ("operator" ++ value)
  | Pointer value => do s <- str value; Returns (s ++ "*")
  | LValue value => do s <- str value; Returns (s ++ "&")
  | RValue value => do s <- str value; Returns (s ++ "&&")
  | Function name args =>
      if is_void_args args then do s <- str name; Returns (s ++ "()")
      else do s <- str name; do ss <- map_str args;
           Returns (s ++ "(" ++ PyStr.join ", " ss ++ ")")
  | TplParam value => do s <- Py.str_of_int value; Returns ("{T" ++ s ++ "}")
  | VTable value => do s <- str value; Returns ("vtable for " ++ s)
  | VTT value => do s <- str value; Returns ("vtt for " ++ s)
  | TypeInfo value => do s <- str value; Returns ("typeinfo for " ++ s)
  | TypeInfoName value => do s <- str value; Returns ("typeinfo name for " ++ s)
  | CvQual value qual =>
      do s <- str value; Returns (PyStr.join " " (s :: set_iter qual))
  | Literal value ty =>
      do s <- str ty; Returns ("(" ++ s ++ ")" ++ value)
  end.

End Printer.

(** ** The static tables *)

Definition _ctor_dtor_map : list (string * string) :=
  [ ("C1", "complete"); ("C2", "base"); ("C3", "allocating");
    ("D0", "deleting"); ("D1", "complete"); ("D2", "base") ].

Definition _std_names : list (string * list node) :=
  [ ("St", [Name "std"]);
    ("Sa", [Name "std"; Name "allocator"]);
    ("Sb", [Name "std"; Name "basic_string"]);
    ("Ss", [Name "std"; Name "string"]);
    ("Si", [Name "std"; Name "istream"]);
    ("So", [Name "std"; Name "ostream"]);
    ("Sd", [Name "std"; Name "iostream"]) ].

Definition _operators : list (string * string) :=
  [ ("nw", "new"); ("na", "new[]"); ("dl", "delete"); ("da", "delete[]");
    ("ps", "+"); ("ng", "-"); ("ad", "&"); ("de", "*"); ("co", "~");
    ("pl", "+"); ("mi", "-"); ("ml", "*"); ("dv", "/"); ("rm", "%");
    ("an", "&"); ("or", "|"); ("eo", "^"); ("aS", "="); ("pL", "+=");
    ("mI", "-="); ("mL", "*="); ("dV", "/="); ("rM", "%="); ("aN", "&=");
    ("oR", "|="); ("eO", "^="); ("ls", "<<"); ("rs", ">>"); ("lS", "<<=");
    ("rS", ">>="); ("eq", "=="); ("ne", "!="); ("lt", "<"); ("gt", ">");
    ("le", "<="); ("ge", ">="); ("nt", "!"); ("aa", "&&"); ("oo", "||");
    ("pp", "++"); ("mm", "--"); ("cm", ","); ("pm", "->*"); ("pt", "->");
    ("cl", "()"); ("ix", "[]"); ("qu", "?") ].

Definition _builtin_types : list (string * string) :=
  [ ("v", "void"); ("w", "wchar_t"); ("b", "bool"); ("c", "char");
    ("a", "signed char"); ("h", "unsigned char"); ("s", "short");
    ("t", "unsigned short"); ("i", "int"); ("j", "unsigned int");
    ("l", "long"); ("m", "unsigned long"); ("x", "long long");
    ("y", "unsigned long long"); ("n", "__int128");
    ("o", "unsigned __int128"); ("f", "float"); ("d", "double");
    ("e", "__float80"); ("g", "__float128"); ("z", "...");
    ("Di", "char32_t"); ("Ds", "char16_t"); ("Da", "auto") ].

(** ** [_handle_cv] and [_handle_indirect] *)

Definition _handle_cv (qualifiers : string) (n : node) : node :=
  let qualifier_set : gset string := ∅ in
  let qualifier_set :=
    if PyStr.mem "r" qualifiers then {["restrict"]} ∪ qualifier_set else qualifier_set in
  let qualifier_set :=
    if PyStr.mem "V" qualifiers then {["volatile"]} ∪ qualifier_set else qualifier_set in
  let qualifier_set :=
    if PyStr.mem "K" qualifiers then {["const"]} ∪ qualifier_set else qualifier_set in
  if decide (qualifier_set = ∅) then n else CvQual n qualifier_set.

Definition _handle_indirect (qualifier : string) (n : node) : node :=
  if String.eqb qualifier "P" then Pointer n
  else if String.eqb qualifier "R" then LValue n
  else if String.eqb qualifier "O" then RValue n
  else n.

(** ** The regular expressions

    Each compiled pattern is one top-level alternation; Python tries the
    alternatives left to right and takes the first that matches at the
    position.  Inside an alternative every repetition is greedy and
    nothing after it can fail, so no alternative needs to backtrack. *)

Module Re.
Import Cursor.

Definition alt {G : Type} (p q : pattern G) : pattern G :=
  fun s => match p s with
           | Some r => Some r
           | None => q s
           end.
Infix "|||" := alt (at level 50, left associativity).

(** a literal *)
Definition lit {G : Type} (text : string) (g : G) : pattern G :=
  fun s => if String.prefix text s then Some (g, String.length text) else None.

(** one character followed by one character of a class, e.g. [C[123]] *)
Definition tag2 {G : Type} (first : ascii) (cls : string) (g : string -> G) : pattern G :=
  fun s => match s with
           | String a (String b _) =>
               if Ascii.eqb a first && PyStr.mem b cls
               then Some (g (String a (String b "")), 2)
               else None
           | _ => None
           end.

(** the first of a list of literals, the matched text being the group *)
Fixpoint lits {G : Type} (texts : list string) (g : string -> G) : pattern G :=
  match texts with
  | [] => fun _ => None
  | t :: texts' => lit t (g t) ||| lits texts' g
  end.

(** one or more characters of a class, e.g. [[rVK]+] *)
Definition plus {G : Type} (p : ascii -> bool) (g : string -> G) : pattern G :=
  fun s => let text := PyStr.span p s in
           match text with
           | EmptyString => None
           | _ => Some (g text, String.length text)
           end.

Definition is_digit (a : ascii) : bool :=
  let n := nat_of_ascii a in Nat.leb 48 n && Nat.leb n 57.

Definition in_class (cls : string) (a : ascii) : bool := PyStr.mem a cls.

End Re.

Inductive name_groups : Set :=
| grp_source_name (text : string)
| grp_ctor_name (text : string)
| grp_dtor_name (text : string)
| grp_std_name (text : string)
| grp_operator_name (text : string)
| grp_std_prefix
| grp_nested_name (cv_qual ref_qual : string)
| grp_template_args.

Definition operator_codes : list string :=
  [ "nw"; "na"; "dl"; "da"; "ps"; "ng"; "ad"; "de"; "co"; "pl"; "mi"; "ml";
    "dv"; "rm"; "an"; "or"; "eo"; "aS"; "pL"; "mI"; "mL"; "dV"; "rM"; "aN";
    "oR"; "eO"; "ls"; "rs"; "lS"; "rS"; "eq"; "ne"; "lt"; "gt"; "le"; "ge";
    "nt"; "aa"; "oo"; "pp"; "mm"; "cm"; "pm"; "pt"; "cl"; "ix"; "qu" ].

(** [N], then the group [cv_qual] (any number of [r], [V], [K]), then
    the group [ref_qual] (at most one of [R], [O]). *)
Definition re_nested_name : Cursor.pattern name_groups :=
  fun s =>
    match s with
    | String "N" s' =>
        let cv := PyStr.span (Re.in_class "rVK") s' in
        let ref := match PyStr.drop (String.length cv) s' with
                   | String a _ => if Re.in_class "RO" a then String a "" else ""
                   | EmptyString => ""
                   end in
        Some (grp_nested_name cv ref, 1 + String.length cv + String.length ref)
    | _ => None
    end.

Import Re.

Definition _NAME_RE : Cursor.pattern name_groups :=
  plus is_digit grp_source_name
  ||| tag2 "C" "123" grp_ctor_name
  ||| tag2 "D" "012" grp_dtor_name
  ||| tag2 "S" "absiod" grp_std_name
  ||| lits operator_codes grp_operator_name
  ||| lit "St" grp_std_prefix
  ||| re_nested_name
  ||| lit "I" grp_template_args.

Inductive type_groups : Set :=
| grp_builtin_type (text : string)
| grp_qualified_type (text : string)
| grp_template_param
| grp_indirect_type (text : string)
| grp_expr_primary.

Definition builtin_codes : list string :=
  [ "v"; "w"; "b"; "c"; "a"; "h"; "s"; "t"; "i"; "j"; "l"; "m"; "x"; "y";
    "n"; "o"; "f"; "d"; "e"; "g"; "z";
    "Dd"; "De"; "Df"; "Dh"; "DF"; "Di"; "Ds"; "Da"; "Dc"; "Dn" ].

(** [(?= L)]: a look-ahead, which matches the empty text. *)
Definition re_lookahead {G : Type} (text : string) (g : G) : Cursor.pattern G :=
  fun s => if String.prefix text s then Some (g, 0) else None.

Definition _TYPE_RE : Cursor.pattern type_groups :=
  lits builtin_codes grp_builtin_type
  ||| plus (in_class "rVK") grp_qualified_type
  ||| lit "T" grp_template_param
  ||| lits ["P"; "R"; "O"] grp_indirect_type
  ||| re_lookahead "L" grp_expr_primary.

Inductive expr_primary_groups : Set := grp_mangled_name | grp_literal.

(** [L (?= _Z)]: the look-ahead is checked, only [L] is consumed. *)
Definition _EXPR_PRIMARY_RE : Cursor.pattern expr_primary_groups :=
  (fun s => if String.prefix "L_Z" s then Some (grp_mangled_name, 1) else None)
  ||| lit "L" grp_literal.

(** [T (?P<kind> [VTIS])]; the group is the text of [kind]. *)
Definition _SPECIAL_RE : Cursor.pattern string :=
  fun s => match s with
           | String "T" (String b _) =>
               if in_class "VTIS" b then Some (String b "", 2) else None
           | _ => None
           end.

Definition _MANGLED_NAME_RE : Cursor.pattern unit := lit "_Z" tt.

(** ** The monad of the productions: the cursor is threaded, a call may raise *)

Definition M (A : Type) : Type := _Cursor -> outcome (A * _Cursor).

Definition ret {A : Type} (a : A) : M A := fun c => Returns (a, c).

Definition bind {A B : Type} (m : M A) (k : A -> M B) : M B :=
  fun c => match m c with
           | Returns (a, c') => k a c'
           | Raises e => Raises e
           | NoFuel => NoFuel
           end.

Definition raise {A : Type} (e : exn) : M A := fun _ => Raises e.

Definition out_of_fuel {A : Type} : M A := fun _ => NoFuel.

(** a cursor method, which never raises *)
Definition call {A : Type} (method : _Cursor -> A * _Cursor) : M A :=
  fun c => Returns (method c).

(** the result of a Python expression that does not touch the cursor *)
Definition eval {A : Type} (o : outcome A) : M A :=
  fun c => match o with
           | Returns a => Returns (a, c)
           | Raises e => Raises e
           | NoFuel => NoFuel
           end.

(** [m] run on a cursor of its own, the current one left as it is *)
Definition on_cursor {A : Type} (c0 : _Cursor) (m : M A) : M A :=
  fun c => match m c0 with
           | Returns (a, _) => Returns (a, c)
           | Raises e => Raises e
           | NoFuel => NoFuel
           end.

Declare Scope parser_scope.
Delimit Scope parser_scope with parser.
Notation "'do' x <- e ; k" := (bind e (fun x => k))
  (at level 10, x name, e at level 100, k at level 200,
   format "'[v' 'do'  x  <-  e ; '/' k ']'") : parser_scope.

Definition at_end : M bool := fun c => Returns (Cursor.at_end c, c).
Definition accept (delim : string) : M bool := call (Cursor.accept delim).
Definition advance (amount : nat) : M (option string) := call (Cursor.advance amount).
Definition advance_until (delim : ascii) : M (option string) :=
  call (Cursor.advance_until delim).
Definition cmatch {G : Type} (re : Cursor.pattern G) : M (option G) :=
  call (Cursor.cmatch re).

(** ** The productions *)

Section Productions.
Local Open Scope parser_scope.

(** [_parse_until_end(cursor, kind, fn)].  [kind] is the constructor of
    the node kind the source names by its string; [nodes] is the list
    built so far, [[]] at the call. *)
Fixpoint _parse_until_end (fuel : nat) (kind : list node -> node) (fn : M node)
    (nodes : list node) : M node :=
  match fuel with
  | O => out_of_fuel
  | S fuel' =>
      do stop <- accept "E";
      if stop then ret (kind nodes)
      else
        do n <- fn;
        do e <- at_end;
        if is_None n || e then ret PyNone
        else _parse_until_end fuel' kind fn (nodes ++ [n])%list
  end.

(** [_parse_source_name(cursor, length)]; [length] is a run of decimal
    digits, so [name_len] is not negative. *)
Definition _parse_source_name (length : string) : M node :=
  do name_len <- eval (Py.int (Some length) 10);
  do name <- advance (Z.to_nat name_len);
  match name with
  | None => ret PyNone
  | Some name => ret (Name name)
  end.

(** The [while not cursor.at_end()] loop of [_parse_mangled_name];
    [None] stands for its [return None]. *)
Fixpoint parse_arg_types (fuel : nat) (fn : M node) (arg_types : list node)
    : M (option (list node)) :=
  match fuel with
  | O => out_of_fuel
  | S fuel' =>
      do e <- at_end;
      if e then ret (Some arg_types)
      else
        do arg_type <- fn;
        if is_None arg_type then ret None
        else parse_arg_types fuel' fn (arg_types ++ [arg_type])%list
  end.

(** The bodies of the five mutually recursive productions, each written
    over the productions it calls; [fuel'] bounds the loops it runs.
    Where a branch of the source leaves with [return None] just before
    a test [if node is None: return None] that every branch reaches,
    the branch hands [None] to that test instead. *)
Section Bodies.
Variable fuel' : nat.
Variables parse_name parse_type parse_expr_primary parse_special
  parse_mangled_name : M node.

Definition _parse_name_body : M node :=
  do m <- cmatch _NAME_RE;
  match m with
  | None => ret PyNone
  | Some g =>
      do n <-
        match g with
        | grp_source_name text => _parse_source_name text
        | grp_ctor_name text =>
            do v <- eval (Py.getitem _ctor_dtor_map text); ret (Ctor v)
        | grp_dtor_name text =>
            do v <- eval (Py.getitem _ctor_dtor_map text); ret (Dtor v)
        | grp_std_name text =>
            do v <- eval (Py.getitem _std_names text); ret (QualName v)
        | grp_operator_name text =>
            do v <- eval (Py.getitem _operators text); ret (Operator v)
        | grp_std_prefix =>
            do name <- parse_name;
            match name with
            | PyNone => ret PyNone
            | QualName value => ret (QualName ([Name "std"] ++ value)%list)
            | _ => ret (QualName [Name "std"; name])
            end
        | grp_nested_name cv_qual ref_qual =>
            do n <- _parse_until_end fuel' QualName parse_name [];
            ret (_handle_indirect ref_qual (_handle_cv cv_qual n))
        | grp_template_args =>
            _parse_until_end fuel' TplArgs parse_type []
        end;
      if is_None n then ret PyNone
      else
        do tpl <- accept "I";
        if tpl then
          do templ_args <- _parse_until_end fuel' TplArgs parse_type [];
          if is_None templ_args then ret PyNone
          else ret (QualName [n; templ_args])
        else ret n
  end.

Definition _parse_type_body : M node :=
  do m <- cmatch _TYPE_RE;
  match m with
  | None => parse_name
  | Some (grp_builtin_type text) =>
      do v <- eval (Py.getitem _builtin_types text); ret (Name v)
  | Some (grp_qualified_type text) =>
      do ty <- parse_type;
      if is_None ty then ret PyNone
      else ret (_handle_cv text ty)
  | Some grp_template_param =>
      do seq_id <- advance_until "_";
      match seq_id with
      | Some EmptyString => ret (TplParam 0)
      | _ => do v <- eval (Py.int seq_id 36); ret (TplParam (1 + v))
      end
  | Some (grp_indirect_type text) =>
      do ty <- parse_type;
      if is_None ty then ret PyNone
      else ret (_handle_indirect text ty)
  | Some grp_expr_primary => parse_expr_primary
  end.

Definition _parse_expr_primary_body : M node :=
  do m <- cmatch _EXPR_PRIMARY_RE;
  match m with
  | None => ret PyNone
  | Some grp_mangled_name =>
      do mangled_name <- advance_until "E";
      match mangled_name with
      | None =>
          (* [_Cursor(None)]: the first [match] on it raises *)
          raise TypeError
      | Some mangled_name =>
          on_cursor (mkCursor mangled_name 0) parse_mangled_name
      end
  | Some grp_literal =>
      do ty <- parse_type;
      if is_None ty then ret PyNone
      else
        do value <- advance_until "E";
        match value with
        | None => ret PyNone
        | Some value => ret (Literal value ty)
        end
  end.

Definition _parse_special_body : M node :=
  do m <- cmatch _SPECIAL_RE;
  match m with
  | None => ret PyNone
  | Some kind =>
      do name <- parse_type;
      if is_None name then ret PyNone
      else if String.eqb kind "V" then ret (VTable name)
      else if String.eqb kind "T" then ret (VTT name)
      else if String.eqb kind "I" then ret (TypeInfo name)
      else if String.eqb kind "S" then ret (TypeInfoName name)
      else ret PyNone
  end.

Definition _parse_mangled_name_body : M node :=
  do m <- cmatch _MANGLED_NAME_RE;
  match m with
  | None => ret PyNone
  | Some _ =>
      do special <- parse_special;
      if negb (is_None special) then ret special
      else
        do name <- parse_name;
        if is_None name then ret PyNone
        else
          do arg_types <- parse_arg_types fuel' parse_type [];
          match arg_types with
          | None => ret PyNone
          | Some [] => ret name
          | Some arg_types => ret (Function name arg_types)
          end
  end.

End Bodies.

(** The productions: each call spends one unit of fuel. *)
Fixpoint _parse_name (fuel : nat) (cursor : _Cursor) : outcome (node * _Cursor) :=
  match fuel with
  | O => out_of_fuel cursor
  | S fuel' => _parse_name_body fuel' (_parse_name fuel') (_parse_type fuel') cursor
  end

with _parse_type (fuel : nat) (cursor : _Cursor) : outcome (node * _Cursor) :=
  match fuel with
  | O => out_of_fuel cursor
  | S fuel' =>
      _parse_type_body (_parse_name fuel') (_parse_type fuel')
        (_parse_expr_primary fuel') cursor
  end

with _parse_expr_primary (fuel : nat) (cursor : _Cursor) : outcome (node * _Cursor) :=
  match fuel with
  | O => out_of_fuel cursor
  | S fuel' =>
      _parse_expr_primary_body (_parse_type fuel') (_parse_mangled_name fuel') cursor
  end

with _parse_special (fuel : nat) (cursor : _Cursor) : outcome (node * _Cursor) :=
  match fuel with
  | O => out_of_fuel cursor
  | S fuel' => _parse_special_body (_parse_type fuel') cursor
  end

with _parse_mangled_name (fuel : nat) (cursor : _Cursor) : outcome (node * _Cursor) :=
  match fuel with
  | O => out_of_fuel cursor
  | S fuel' =>
      _parse_mangled_name_body fuel' (_parse_name fuel') (_parse_type fuel')
        (_parse_special fuel') cursor
  end.

End Productions.

(** Fuel that suffices for any cursor over [raw]. *)
Definition fuel_for (raw : string) : nat := 4 * String.length raw + 8.

(** What a call of a production on a fresh cursor gives its caller. *)
Definition result_of {A : Type} (o : outcome (A * _Cursor)) : outcome A :=
  match o with
  | Returns (a, _) => Returns a
  | Raises e => Raises e
  | NoFuel => NoFuel
  end.

(** [parse(raw)] *)
Definition parse (raw : string) : outcome node :=
  result_of (_parse_mangled_name (fuel_for raw) (mkCursor raw 0)).

(** [str(result)] when [result is not None], as the tests print it. *)
Definition demangle (set_iter : gset string -> list string) (raw : string)
    : outcome (option string) :=
  match parse raw with
  | Returns PyNone => Returns None
  | Returns n => obind (str set_iter n) (fun s => Returns (Some s))
  | Raises e => Raises e
  | NoFuel => NoFuel
  end.

(** The tests of the source file ([TestDemangler]): each pair is an
    argument list of [assertDemangles]. *)
Definition tests : list (string * option string) :=
  [ ("_Z3foo", Some "foo"); ("_Z3x", None);
    ("_ZN3fooC1E", Some "foo::{ctor}"); ("_ZN3fooC2E", Some "foo::{base ctor}");
    ("_ZN3fooC3E", Some "foo::{allocating ctor}");
    ("_ZN3fooD0E", Some "foo::{deleting dtor}"); ("_ZN3fooD1E", Some "foo::{dtor}");
    ("_ZN3fooD2E", Some "foo::{base dtor}") ]
  ++ map (fun op => ("_Z" ++ fst op, Some ("operator" ++ snd op)))
       (List.filter
          (fun op => negb (existsb (String.eqb (snd op)) ["new"; "new[]"; "delete"; "delete[]"]))
          _operators)
  ++ [ ("_Znw", Some "operator new"); ("_Zna", Some "operator new[]");
       ("_Zdl", Some "operator delete"); ("_Zda", Some "operator delete[]");
       ("_ZSt", None); ("_ZSt3foo", Some "std::foo"); ("_ZSs", Some "std::string");
       ("_ZN3fooE", Some "foo"); ("_ZN3foo5bargeE", Some "foo::barge");
       ("_ZN3fooIcE5bargeE", Some "foo<char>::barge");
       ("_ZNK3fooE", Some "foo const"); ("_ZNV3fooE", Some "foo volatile");
       ("_ZNKR3fooE", Some "foo const&"); ("_ZNKO3fooE", Some "foo const&&");
       ("_Z3fooIcE", Some "foo<char>"); ("_ZN3fooIcEE", Some "foo<char>") ]
  ++ map (fun ty => ("_Z1f" ++ fst ty, Some ("f(" ++ snd ty ++ ")")))
       (List.filter (fun ty => negb (String.eqb (fst ty) "v")) _builtin_types)
  ++ [ ("_Z1fv", Some "f()");
       ("_Z1fri", Some "f(int restrict)"); ("_Z1fKi", Some "f(int const)");
       ("_Z1fVi", Some "f(int volatile)"); ("_Z1fVVVi", Some "f(int volatile)");
       ("_Z1fPi", Some "f(int*)"); ("_Z1fRi", Some "f(int&)"); ("_Z1fOi", Some "f(int&&)");
       ("_Z1fKRi", Some "f(int& const)"); ("_Z1fRKi", Some "f(int const&)");
       ("_Z1fILi1EE", Some "f<(int)1>"); ("_Z1fIL_Z1gEE", Some "f<g>");
       ("_ZTV1f", Some "vtable for f"); ("_ZTT1f", Some "vtt for f");
       ("_ZTI1f", Some "typeinfo for f"); ("_ZTS1f", Some "typeinfo name for f") ].

(** * Vocabulary of the statements *)

(** [all_nodes p n]: [p] holds of [n] and of every node below it. *)
Fixpoint all_nodes (p : node -> bool) (n : node) : bool :=
  p n &&
  match n with
  | QualName value | TplArgs value => forallb (all_nodes p) value
  | Pointer value | LValue value | RValue value
  | VTable value | VTT value | TypeInfo value | TypeInfoName value => all_nodes p value
  | Function name args => all_nodes p name && forallb (all_nodes p) args
  | CvQual value _ => all_nodes p value
  | Literal _ ty => all_nodes p ty
  | _ => true
  end.

(** a [qual_name] holds at least one element *)
Definition qual_name_nonempty (n : node) : bool :=
  match n with
  | QualName [] => false
  | _ => true
  end.

(** a [function] holds at least one argument *)
Definition function_has_args (n : node) : bool :=
  match n with
  | Function _ [] => false
  | _ => true
  end.

(** a [cv_qual] holds at least one qualifier *)
Definition cv_qual_nonempty (n : node) : bool :=
  match n with
  | CvQual _ qual => negb (bool_decide (qual = ∅))
  | _ => true
  end.

(** The call returned a value that satisfies [Q], or it raised; it did
    not run out of fuel. *)
Definition returned {A : Type} (Q : A -> Prop) (o : outcome A) : Prop :=
  match o with
  | Returns a => Q a
  | Raises _ => True
  | NoFuel => False
  end.

(** Any enumeration of the members, each once, can be what iterating
    over a set gives. *)
Definition set_iteration (set_iter : gset string -> list string) : Prop :=
  forall s, set_iter s ≡ₚ elements s.

(** The qualifier words of a set in the order const, volatile, restrict. *)
Definition canonical_order (qual : gset string) : list string :=
  filter (fun w => w ∈ qual) ["const"; "volatile"; "restrict"].

(** The text starts with a nested-name introducer that its end marker
    follows at once: [N], qualifier letters, at most one reference
    letter, [E]. *)
Definition empty_nested_at (s : string) : bool :=
  match re_nested_name s with
  | Some (_, k) => String.prefix "E" (PyStr.drop k s)
  | None => false
  end.

(** [m] behind an assertion: the text to read is not a nested-name
    introducer with the end marker right after it. *)
Definition checked (m : M node) : M node :=
  fun c => if empty_nested_at (rest c) then Raises AssertionError else m c.

(** The productions with that assertion where the name production
    starts.  The bodies are those of the productions; the assertion is
    the one thing added, so that a run fails it exactly when some name
    production of the run starts on such a text. *)
Fixpoint checked_name (fuel : nat) (cursor : _Cursor) : outcome (node * _Cursor) :=
  match fuel with
  | O => out_of_fuel cursor
  | S fuel' =>
      checked (_parse_name_body fuel' (checked_name fuel') (checked_type fuel')) cursor
  end

with checked_type (fuel : nat) (cursor : _Cursor) : outcome (node * _Cursor) :=
  match fuel with
  | O => out_of_fuel cursor
  | S fuel' =>
      _parse_type_body (checked_name fuel') (checked_type fuel')
        (checked_expr_primary fuel') cursor
  end

with checked_expr_primary (fuel : nat) (cursor : _Cursor) : outcome (node * _Cursor) :=
  match fuel with
  | O => out_of_fuel cursor
  | S fuel' =>
      _parse_expr_primary_body (checked_type fuel') (checked_mangled_name fuel') cursor
  end

with checked_special (fuel : nat) (cursor : _Cursor) : outcome (node * _Cursor) :=
  match fuel with
  | O => out_of_fuel cursor
  | S fuel' => _parse_special_body (checked_type fuel') cursor
  end

with checked_mangled_name (fuel : nat) (cursor : _Cursor) : outcome (node * _Cursor) :=
  match fuel with
  | O => out_of_fuel cursor
  | S fuel' =>
      _parse_mangled_name_body fuel' (checked_name fuel') (checked_type fuel')
        (checked_special fuel') cursor
  end.

(** [parse(raw)] with the assertion. *)
Definition checked_parse (raw : string) : outcome node :=
  result_of (checked_mangled_name (fuel_for raw) (mkCursor raw 0)).

(** Parsing [raw] starts a name production on a nested-name introducer
    with the end marker right after it. *)
Definition reaches_empty_nested (raw : string) : bool :=
  match checked_parse raw with
  | Raises AssertionError => true
  | _ => false
  end.

(** [o1] is [o2], unless the assertion failed in [o1]. *)
Definition upto {A : Type} (o1 o2 : outcome A) : Prop :=
  o1 = Raises AssertionError \/ o1 = o2.

(** [m1] does what [m2] does, unless the assertion fails in it. *)
Definition upto_M {A : Type} (m1 m2 : M A) : Prop := forall c, upto (m1 c) (m2 c).

(** The base-36 digits are the ten decimal digits and the letters, in
    either case; a digit's value is its place among them. *)
Definition base36_alphabet : string := "0123456789abcdefghijklmnopqrstuvwxyz".

Definition to_lower (a : ascii) : ascii :=
  let n := nat_of_ascii a in
  if Nat.leb 65 n && Nat.leb n 90 then ascii_of_nat (n + 32) else a.

Definition base36_digit (a : ascii) : option Z :=
  option_map Z.of_nat (PyStr.find (to_lower a) base36_alphabet).

Definition is_base36_digit (a : ascii) : bool :=
  match base36_digit a with
  | Some _ => true
  | None => false
  end.

Fixpoint all_chars (p : ascii -> bool) (s : string) : bool :=
  match s with
  | EmptyString => true
  | String a s' => p a && all_chars p s'
  end.

(** The number a run of base-36 digits spells, most significant digit
    first. *)
Fixpoint base36_acc (acc : Z) (s : string) : Z :=
  match s with
  | EmptyString => acc
  | String a s' =>
      base36_acc (acc * 36 + match base36_digit a with Some d => d | None => 0 end)%Z s'
  end.

Definition base36_value (s : string) : Z := base36_acc 0 s.

(** [n] copies of one character *)
Fixpoint copies (n : nat) (a : ascii) : string :=
  match n with
  | O => EmptyString
  | S n' => String a (copies n' a)
  end.

(** [consumed fn c tys c']: from [c], [fn] returned the nodes [tys] one
    after the other, none of them [None], the cursor not at its end
    before any of them, and left the cursor at [c']. *)
Inductive consumed (fn : M node) : _Cursor -> list node -> _Cursor -> Prop :=
| consumed_nil (c : _Cursor) : consumed fn c [] c
| consumed_cons (c c1 c' : _Cursor) (ty : node) (tys : list node) :
    Cursor.at_end c = false ->
    fn c = Returns (ty, c1) ->
    is_None ty = false ->
    consumed fn c1 tys c' ->
    consumed fn c (ty :: tys) c'.

(** The word [_handle_cv] adds for a qualifier letter. *)
Definition qualifier_word (q : ascii) : string :=
  if Ascii.eqb q "r" then "restrict"
  else if Ascii.eqb q "V" then "volatile"
  else if Ascii.eqb q "K" then "const"
  else "".

(** [listed fn c l c']: from [c], where each time the text did not start
    with [E], [fn] returned the nodes [l] one after the other, none of
    them [None], the cursor not at its end after any of them, and left
    the cursor at [c']. *)
Inductive listed (fn : M node) : _Cursor -> list node -> _Cursor -> Prop :=
| listed_nil (c : _Cursor) : listed fn c [] c
| listed_cons (c c1 c' : _Cursor) (n : node) (l : list node) :
    Cursor.accept "E" c = (false, c) ->
    fn c = Returns (n, c1) ->
    is_None n = false ->
    Cursor.at_end c1 = false ->
    listed fn c1 l c' ->
    listed fn c (n :: l) c'.

(** What a list of nodes read up to the end marker comes to, started
    with [nodes] at [c]: after the nodes [l] that [fn] returned, the end
    marker is accepted and the list is returned; or [fn] returns [None]
    or leaves the cursor at its end, and the result is [None]; or [fn]
    raises. *)
Inductive list_result (kind : list node -> node) (fn : M node) (nodes : list node)
    (c : _Cursor) : outcome (node * _Cursor) -> Prop :=
| list_closed (c0 c' : _Cursor) (l : list node) :
    listed fn c l c0 ->
    Cursor.accept "E" c0 = (true, c') ->
    list_result kind fn nodes c (Returns (kind (nodes ++ l)%list, c'))
| list_stopped (c0 c' : _Cursor) (l : list node) (n : node) :
    listed fn c l c0 ->
    Cursor.accept "E" c0 = (false, c0) ->
    fn c0 = Returns (n, c') ->
    is_None n || Cursor.at_end c' = true ->
    list_result kind fn nodes c (Returns (PyNone, c'))
| list_raised (c0 : _Cursor) (l : list node) (e : exn) :
    listed fn c l c0 ->
    Cursor.accept "E" c0 = (false, c0) ->
    fn c0 = Raises e ->
    list_result kind fn nodes c (Raises e).

(** The position lies inside the text. *)
Definition wf (c : _Cursor) : Prop := _pos c <= String.length (_raw c).

(** The number of characters still to read. *)
Definition remaining (c : _Cursor) : nat := String.length (_raw c) - _pos c.

(** The cursor [k] characters further. *)
Definition skip (k : nat) (c : _Cursor) : _Cursor := mkCursor (_raw c) (_pos c + k).

(** [c'] is [c] after some calls of its methods. *)
Definition advanced (c c' : _Cursor) : Prop :=
  _raw c' = _raw c /\ _pos c <= _pos c' /\ wf c'.

(** Fuel that suffices for a type production at [c]. *)
Definition fuel_at (c : _Cursor) : nat := 3 * remaining c + 3.

(** A match lies inside the text. *)
Definition sound {G : Type} (re : Cursor.pattern G) : Prop :=
  forall s g k, re s = Some (g, k) -> k <= String.length s.

(** A match is not empty. *)
Definition consuming {G : Type} (re : Cursor.pattern G) : Prop :=
  forall s g k, re s = Some (g, k) -> 1 <= k.

(** A weakest-precondition calculus for the productions.

    [wp m c Q F]: run on [c], [m] either returns a value and a cursor that
    satisfy [Q], or raises, or it runs out of fuel and [F] holds.  With
    [F := False] the calculus proves that the fuel suffices. *)

Definition wp {A : Type} (m : M A) (c : _Cursor) (Q : A -> _Cursor -> Prop) (F : Prop)
    : Prop :=
  match m c with
  | Returns (a, c') => Q a c'
  | Raises _ => True
  | NoFuel => F
  end.

(** What the walk through the productions proves of each of them: from
    a cursor whose text satisfies [I], with fuel [fuel] enough for the
    text left ([3 * remaining + off]) unless [F] holds, the production
    advances the cursor, strictly when it gives a node, and the node
    satisfies [P]. *)
Definition enough (F : Prop) (off fuel : nat) (c : _Cursor) : Prop :=
  F \/ 3 * remaining c + off <= fuel.

(** after a production: the cursor has advanced, strictly if a node was
    given, and what was given satisfies [P] *)
Definition post (P : node -> Prop) (c : _Cursor) (v : node) (c' : _Cursor) : Prop :=
  advanced c c' /\ (is_None v = false -> _pos c < _pos c') /\ P v.

(** [m] keeps [post] from every well-formed cursor with enough fuel *)
Definition ok (I : string -> Prop) (P : node -> Prop) (F : Prop) (off fuel : nat)
    (m : M node) : Prop :=
  forall c, wf c -> I (rest c) -> enough F off fuel c -> wp m c (post P c) F.

(** The shapes of node the productions may build whatever the input. *)
Definition plain (n : node) : Prop :=
  match n with
  | QualName [] => False
  | Function _ [] => False
  | CvQual _ qual => qual <> ∅
  | _ => True
  end.

(** Two cursors with the same text still to read. *)
Definition same_text (c1 c2 : _Cursor) : Prop :=
  wf c1 /\ wf c2 /\ rest c1 = rest c2.

(** The second run does what the first did, unless the first ran out of
    fuel. *)
Definition agree {A : Type} (o1 o2 : outcome (A * _Cursor)) : Prop :=
  match o1 with
  | Returns (a, c1) => exists c2, o2 = Returns (a, c2) /\ same_text c1 c2
  | Raises e => o2 = Raises e
  | NoFuel => True
  end.

(** [m2] does what [m1] does, on any two cursors with the same text. *)
Definition refines {A : Type} (m1 m2 : M A) : Prop :=
  forall c1 c2, same_text c1 c2 -> agree (m1 c1) (m2 c2).

(** The end of the mangled-name production, on what its loop gave. *)
Definition finish (name : node) (arg_types : option (list node)) : M node :=
  match arg_types with
  | None => ret PyNone
  | Some [] => ret name
  | Some arg_types => ret (Function name arg_types)
  end.

(** The five productions, each a function of the fuel. *)
Definition productions : list (nat -> M node) :=
  [_parse_name; _parse_type; _parse_expr_primary; _parse_special; _parse_mangled_name].

(** The nodes the special-name production builds. *)
Definition is_special (n : node) : bool :=
  match n with
  | VTable _ | VTT _ | TypeInfo _ | TypeInfoName _ => true
  | _ => false
  end.

(** The builtin-type codes that the type pattern accepts and the table
    of spellings does not hold. *)
Definition unspelled_builtin_codes : list string :=
  ["Dd"; "De"; "Df"; "Dh"; "DF"; "Dc"; "Dn"].

(** The decimal numeral of [n], without leading zeros. *)
Definition decimal (n : nat) : string :=
  DecimalString.NilZero.string_of_uint (Nat.to_uint n).

(** A source name as the ABI writes it: its length, then its characters. *)
Definition source_name (name : string) : string :=
  decimal (String.length name) ++ name.

Fixpoint source_names (names : list string) : string :=
  match names with
  | [] => ""
  | name :: names' => source_name name ++ source_names names'
  end.

Definition starts_with_digit (s : string) : bool :=
  match s with
  | String a _ => Re.is_digit a
  | EmptyString => false
  end.

(** A name that is not empty and does not start with a digit. *)
Definition identifier (s : string) : bool :=
  negb (String.eqb s "") && negb (starts_with_digit s).

(** The codes of a list of builtin types, one after the other; a type is
    an entry [(code, spelling)] of the table. *)
Fixpoint type_codes (types : list (string * string)) : string :=
  match types with
  | [] => ""
  | ty :: types' => fst ty ++ type_codes types'
  end.





(** * Properties *)

(** ** Strings *)

Module PyStrFacts.
Import PyStr.

Lemma length_drop (n : nat) (s : string) :
  String.length (drop n s) = String.length s - n.
Proof.
  revert s; induction n as [|n IH]; intros [|a s]; simpl; auto with arith.
Qed.

Lemma length_take (n : nat) (s : string) :
  String.length (take n s) = Nat.min n (String.length s).
Proof.
  revert s; induction n as [|n IH]; intros [|a s]; simpl; auto.
Qed.

Lemma drop_drop (n m : nat) (s : string) : drop n (drop m s) = drop (m + n) s.
Proof.
  revert s; induction m as [|m IH]; intros s; simpl; auto.
  destruct s as [|a s]; [destruct n|]; simpl; auto.
Qed.

Lemma drop_empty (n : nat) : drop n "" = "".
Proof. destruct n; reflexivity. Qed.

Lemma drop_all (n : nat) (s : string) : String.length s <= n -> drop n s = "".
Proof.
  revert s; induction n as [|n IH]; intros [|a s]; simpl; auto; try lia.
  intros; apply IH; lia.
Qed.

Lemma app_cons (a : ascii) (s t : string) : String a s ++ t = String a (s ++ t).
Proof. reflexivity. Qed.

Lemma app_nil (t : string) : "" ++ t = t.
Proof. reflexivity. Qed.

Lemma append_assoc (s t u : string) : (s ++ t) ++ u = s ++ (t ++ u).
Proof. induction s as [|a s IH]; [reflexivity|]. rewrite !app_cons. now rewrite IH. Qed.

Lemma take_drop (n : nat) (s : string) : take n s ++ drop n s = s.
Proof.
  revert s; induction n as [|n IH]; intros [|a s]; simpl; auto.
  now rewrite app_cons, IH.
Qed.

Lemma take_app (s t : string) : take (String.length s) (s ++ t) = s.
Proof.
  induction s as [|a s IH]; [now destruct t|].
  rewrite app_cons; simpl; now rewrite IH.
Qed.

Lemma drop_app (s t : string) : drop (String.length s) (s ++ t) = t.
Proof. induction s as [|a s IH]; [reflexivity|]. rewrite app_cons; simpl; auto. Qed.

Lemma length_app (s t : string) :
  String.length (s ++ t) = String.length s + String.length t.
Proof. induction s as [|a s IH]; [reflexivity|]. rewrite app_cons; simpl; auto. Qed.

Lemma prefix_app (p s : string) : String.prefix p s = true -> s = p ++ drop (String.length p) s.
Proof.
  revert s; induction p as [|a p IH]; intros [|b s]; simpl; auto; try discriminate.
  destruct (Ascii.ascii_dec a b) as [->|]; [|discriminate].
  intros H; rewrite app_cons; f_equal; auto.
Qed.

Lemma prefix_length (p s : string) :
  String.prefix p s = true -> String.length p <= String.length s.
Proof.
  intros H. rewrite (prefix_app _ _ H), length_app. lia.
Qed.

Lemma app_prefix (p s : string) : String.prefix p (p ++ s) = true.
Proof.
  induction p as [|a p IH]; [now destruct s|].
  rewrite app_cons; simpl. destruct (Ascii.ascii_dec a a); congruence.
Qed.

Lemma prefix_cons (a b : ascii) (p s : string) :
  String.prefix (String a p) (String b s) = Ascii.eqb a b && String.prefix p s.
Proof.
  simpl. destruct (Ascii.ascii_dec a b) as [->|n].
  - now rewrite Ascii.eqb_refl.
  - apply Ascii.eqb_neq in n. now rewrite n.
Qed.

Lemma length_span (p : ascii -> bool) (s : string) :
  String.length (span p s) <= String.length s.
Proof. induction s as [|a s IH]; simpl; [|destruct (p a); simpl]; lia. Qed.

Lemma span_app (p : ascii -> bool) (s : string) : s = span p s ++ drop (String.length (span p s)) s.
Proof.
  induction s as [|a s IH]; simpl; auto.
  destruct (p a); simpl; [rewrite app_cons; congruence|reflexivity].
Qed.

Lemma find_lt (c : ascii) (s : string) (k : nat) :
  find c s = Some k -> k < String.length s.
Proof.
  revert k; induction s as [|a s IH]; simpl; [discriminate|]; intros k.
  destruct (Ascii.eqb a c); [intros [= <-]; lia|].
  destruct (find c s); [|discriminate].
  intros [= <-]. specialize (IH _ eq_refl). lia.
Qed.

Lemma find_app (c : ascii) (s t : string) :
  mem c s = false -> find c (s ++ String c t) = Some (String.length s).
Proof.
  induction s as [|a s IH]; [rewrite app_nil|rewrite app_cons]; simpl.
  - now rewrite Ascii.eqb_refl.
  - destruct (Ascii.eqb a c); simpl; [discriminate|]. intros H; now rewrite IH.
Qed.

Lemma slice_from (s : string) (i k : nat) : slice s i (i + k) = take k (drop i s).
Proof. unfold slice. f_equal. lia. Qed.

End PyStrFacts.

(** ** The cursor, seen through the text still to read *)

Module CursorFacts.
Import PyStr PyStrFacts.

Lemma length_rest (c : _Cursor) : String.length (rest c) = remaining c.
Proof. apply length_drop. Qed.

Lemma rest_skip (k : nat) (c : _Cursor) : rest (skip k c) = drop k (rest c).
Proof. unfold rest, skip; simpl. now rewrite drop_drop. Qed.

Lemma wf_skip (k : nat) (c : _Cursor) : k <= remaining c -> wf c -> wf (skip k c).
Proof. unfold wf, remaining, skip; simpl; lia. Qed.

Lemma skip_skip (j k : nat) (c : _Cursor) : skip k (skip j c) = skip (j + k) c.
Proof. unfold skip; simpl. f_equal. lia. Qed.

Lemma remaining_skip (k : nat) (c : _Cursor) : remaining (skip k c) = remaining c - k.
Proof. unfold remaining, skip; simpl; lia. Qed.

Lemma advanced_refl (c : _Cursor) : wf c -> advanced c c.
Proof. unfold advanced; auto. Qed.

Lemma advanced_trans (c1 c2 c3 : _Cursor) :
  advanced c1 c2 -> advanced c2 c3 -> advanced c1 c3.
Proof. unfold advanced; intros (? & ? & ?) (? & ? & ?); repeat split; [congruence|lia|auto]. Qed.

Lemma advanced_skip (k : nat) (c : _Cursor) :
  k <= remaining c -> wf c -> advanced c (skip k c).
Proof.
  intros Hk Hc; repeat split; simpl; [lia | now apply wf_skip].
Qed.

Lemma advanced_wf (c c' : _Cursor) : advanced c c' -> wf c'.
Proof. now intros (_ & _ & ?). Qed.

Lemma advanced_remaining (c c' : _Cursor) :
  advanced c c' -> remaining c' + (_pos c' - _pos c) = remaining c.
Proof. unfold advanced, wf, remaining; intros (-> & ? & ?); lia. Qed.

Lemma advanced_rest (c c' : _Cursor) :
  advanced c c' -> rest c' = drop (_pos c' - _pos c) (rest c).
Proof.
  intros (Hr & Hp & _). unfold rest. rewrite drop_drop, Hr. f_equal; lia.
Qed.

Lemma eqb_take_prefix (d s : string) :
  String.eqb (take (String.length d) s) d = String.prefix d s.
Proof.
  revert s; induction d as [|a d IH]; intros [|b s]; simpl; auto.
  rewrite IH. destruct (Ascii.ascii_dec a b) as [->|n].
  - now rewrite Ascii.eqb_refl.
  - apply Ascii.eqb_neq in n. rewrite Ascii.eqb_sym. now rewrite n.
Qed.

Lemma accept_eq (d : string) (c : _Cursor) :
  Cursor.accept d c =
    if String.prefix d (rest c) then (true, skip (String.length d) c) else (false, c).
Proof.
  unfold Cursor.accept. now rewrite slice_from, eqb_take_prefix.
Qed.

Lemma advance_eq (k : nat) (c : _Cursor) :
  wf c ->
  Cursor.advance k c =
    if Nat.ltb (remaining c) k then (None, c) else (Some (take k (rest c)), skip k c).
Proof.
  unfold Cursor.advance, wf, remaining. intros Hc.
  rewrite slice_from.
  destruct (Nat.ltb_spec (String.length (_raw c)) (_pos c + k));
    destruct (Nat.ltb_spec (String.length (_raw c) - _pos c) k); auto; lia.
Qed.

Lemma advance_until_eq (d : ascii) (c : _Cursor) :
  Cursor.advance_until d c =
    match find d (rest c) with
    | None => (None, c)
    | Some k => (Some (take k (rest c)), skip (k + 1) c)
    end.
Proof.
  unfold Cursor.advance_until. destruct (find d (rest c)); auto.
  rewrite slice_from. unfold skip. do 2 f_equal. lia.
Qed.

Lemma at_end_eq (c : _Cursor) : wf c -> Cursor.at_end c = Nat.eqb (remaining c) 0.
Proof.
  unfold Cursor.at_end, wf, remaining. intros Hc.
  destruct (Nat.eqb_spec (_pos c) (String.length (_raw c)));
    destruct (Nat.eqb_spec (String.length (_raw c) - _pos c) 0); auto; lia.
Qed.

End CursorFacts.

(** ** What the patterns match *)

Module ReFacts.
Import Cursor PyStr PyStrFacts Re.

Lemma alt_inv {G : Type} (p q : pattern G) (s : string) (r : G * nat) :
  (p ||| q) s = Some r -> p s = Some r \/ (p s = None /\ q s = Some r).
Proof. unfold alt. destruct (p s); auto. Qed.

Lemma sound_alt {G : Type} (p q : pattern G) : sound p -> sound q -> sound (p ||| q).
Proof. intros Hp Hq s g k H. apply alt_inv in H as [H|[_ H]]; eauto. Qed.

Lemma consuming_alt {G : Type} (p q : pattern G) :
  consuming p -> consuming q -> consuming (p ||| q).
Proof. intros Hp Hq s g k H. apply alt_inv in H as [H|[_ H]]; eauto. Qed.

Lemma sound_lit {G : Type} (text : string) (g : G) : sound (lit text g).
Proof.
  intros s g' k. unfold lit. destruct (String.prefix text s) eqn:E; [|discriminate].
  intros [= _ <-]. now apply prefix_length.
Qed.

Lemma consuming_lit {G : Type} (text : string) (g : G) :
  1 <= String.length text -> consuming (lit text g).
Proof.
  intros Ht s g' k. unfold lit. destruct (String.prefix text s); [|discriminate].
  now intros [= _ <-].
Qed.

Lemma sound_tag2 {G : Type} (a : ascii) (cls : string) (g : string -> G) : sound (tag2 a cls g).
Proof.
  intros [|x [|y s]] g' k; simpl; try discriminate.
  destruct (_ && _); [|discriminate]. intros [= _ <-]. lia.
Qed.

Lemma consuming_tag2 {G : Type} (a : ascii) (cls : string) (g : string -> G) :
  consuming (tag2 a cls g).
Proof.
  intros [|x [|y s]] g' k; simpl; try discriminate.
  destruct (_ && _); [|discriminate]. intros [= _ <-]. lia.
Qed.

Lemma sound_lits {G : Type} (texts : list string) (g : string -> G) : sound (lits texts g).
Proof.
  induction texts as [|t texts IH]; simpl; [discriminate|].
  apply sound_alt; [apply sound_lit | exact IH].
Qed.

Lemma consuming_lits {G : Type} (texts : list string) (g : string -> G) :
  Forall (fun t => 1 <= String.length t) texts -> consuming (lits texts g).
Proof.
  induction 1 as [|t texts Ht _ IH]; simpl; [discriminate|].
  apply consuming_alt; [now apply consuming_lit | exact IH].
Qed.

Lemma plus_inv {G : Type} (p : ascii -> bool) (g : string -> G) (s : string) (r : G * nat) :
  plus p g s = Some r ->
  span p s <> "" /\ r = (g (span p s), String.length (span p s)).
Proof.
  unfold plus. destruct (span p s) eqn:E; [discriminate|].
  intros [= <-]. split; [discriminate | reflexivity].
Qed.

Lemma sound_plus {G : Type} (p : ascii -> bool) (g : string -> G) : sound (plus p g).
Proof.
  intros s g' k H. apply plus_inv in H as [_ [= _ ->]]. apply length_span.
Qed.

Lemma consuming_plus {G : Type} (p : ascii -> bool) (g : string -> G) : consuming (plus p g).
Proof.
  intros s g' k H. apply plus_inv in H as [Hne [= _ ->]].
  destruct (span p s); [congruence | simpl; lia].
Qed.

Lemma lit_inv {G : Type} (text : string) (g : G) (s : string) (r : G * nat) :
  lit text g s = Some r -> String.prefix text s = true /\ r = (g, String.length text).
Proof. unfold lit. destruct (String.prefix text s); [|discriminate]. now intros [= <-]. Qed.

Lemma tag2_group {G : Type} (a : ascii) (cls : string) (g : string -> G) (s : string)
    (x : G) (k : nat) :
  tag2 a cls g s = Some (x, k) -> exists t, x = g t.
Proof.
  destruct s as [|y [|z s]]; simpl; try discriminate.
  destruct (_ && _); [|discriminate]. intros [= <- _]. eauto.
Qed.

Lemma lits_group {G : Type} (texts : list string) (g : string -> G) (s : string)
    (x : G) (k : nat) :
  lits texts g s = Some (x, k) -> exists t, x = g t.
Proof.
  induction texts as [|t texts IH]; simpl; [discriminate|].
  intros H. apply alt_inv in H as [H|[_ H]]; auto.
  apply lit_inv in H as [_ [= -> _]]. eauto.
Qed.

Lemma sound_nested_name : sound re_nested_name.
Proof.
  intros [|a s] g k; [discriminate|]. unfold re_nested_name.
  destruct (Ascii.eqb_spec a "N") as [->|n]; [|destruct a as [[] [] [] [] [] [] [] []]; try discriminate; congruence].
  set (cv := span (in_class "rVK") s).
  set (ref := match drop (String.length cv) s with
              | String b _ => if in_class "RO" b then String b "" else ""
              | EmptyString => ""
              end).
  assert (String.length ref <= String.length s - String.length cv) as Href.
  { subst ref. rewrite <- length_drop.
    destruct (drop _ s) as [|b t]; [simpl; lia|].
    destruct (in_class "RO" b); simpl; lia. }
  pose proof (length_span (in_class "rVK") s) as Hcv. fold cv in Hcv.
  clearbody ref cv. intros [= _ <-]. simpl. lia.
Qed.

Lemma consuming_nested_name : consuming re_nested_name.
Proof.
  intros [|a s] g k; [discriminate|]. unfold re_nested_name.
  destruct (Ascii.eqb_spec a "N") as [->|n]; [|destruct a as [[] [] [] [] [] [] [] []]; try discriminate; congruence].
  intros [= _ <-]. lia.
Qed.

Lemma operator_codes_length : Forall (fun t => 1 <= String.length t) operator_codes.
Proof. unfold operator_codes. repeat constructor. Qed.

Lemma builtin_codes_length : Forall (fun t => 1 <= String.length t) builtin_codes.
Proof. unfold builtin_codes. repeat constructor. Qed.

Lemma sound_NAME_RE : sound _NAME_RE.
Proof.
  unfold _NAME_RE.
  repeat match goal with |- sound (_ ||| _) => apply sound_alt end;
    first [ apply sound_plus | apply sound_tag2 | apply sound_lits
          | apply sound_lit | apply sound_nested_name ].
Qed.

Lemma consuming_NAME_RE : consuming _NAME_RE.
Proof.
  unfold _NAME_RE.
  repeat match goal with |- consuming (_ ||| _) => apply consuming_alt end;
    first [ apply consuming_plus | apply consuming_tag2 | apply consuming_nested_name
          | apply consuming_lits, operator_codes_length
          | apply consuming_lit; simpl; lia ].
Qed.

(** Only the nested-name alternative gives the nested-name groups. *)
Lemma NAME_RE_nested (s cv ref : string) (k : nat) :
  _NAME_RE s = Some (grp_nested_name cv ref, k) ->
  re_nested_name s = Some (grp_nested_name cv ref, k).
Proof.
  unfold _NAME_RE. intros H.
  repeat match type of H with
         | (_ ||| _) _ = Some _ => apply alt_inv in H as [H|[_ H]]
         end; auto.
  - apply plus_inv in H as [_ [=]].
  - apply tag2_group in H as [? [=]].
  - apply tag2_group in H as [? [=]].
  - apply tag2_group in H as [? [=]].
  - apply lits_group in H as [? [=]].
  - apply lit_inv in H as [_ [=]].
  - apply lit_inv in H as [_ [=]].
Qed.

(** What the name pattern captures, group by group. *)
Lemma tag2_inv {G : Type} (a : ascii) (cls : string) (g : string -> G) (s : string)
    (x : G) (k : nat) :
  tag2 a cls g s = Some (x, k) ->
  exists b, mem b cls = true /\ x = g (String a (String b "")).
Proof.
  unfold tag2. destruct s as [|a' [|b s]]; try discriminate.
  destruct (Ascii.eqb_spec a' a) as [->|]; [|discriminate]. cbn [andb].
  destruct (mem b cls) eqn:Hb; [|discriminate]. intros [= <- _]. eauto.
Qed.

Lemma lits_inv {G : Type} (texts : list string) (g : string -> G) (s : string)
    (x : G) (k : nat) :
  lits texts g s = Some (x, k) -> exists t, In t texts /\ x = g t.
Proof.
  induction texts as [|t texts IH]; [discriminate|]. cbn [lits].
  intros H. apply alt_inv in H as [H|[_ H]].
  - apply lit_inv in H as [_ [= -> _]]. exists t. simpl; auto.
  - destruct (IH H) as (t' & Hin & ->). exists t'. simpl; auto.
Qed.

Lemma mem_inv (b : ascii) (cls : string) :
  mem b cls = true -> In b (list_ascii_of_string cls).
Proof.
  induction cls as [|a cls IH]; [discriminate|]. cbn [mem list_ascii_of_string].
  destruct (Ascii.eqb_spec a b) as [->|]; simpl; auto.
Qed.

Lemma NAME_RE_groups (s : string) (g : name_groups) (k : nat) :
  _NAME_RE s = Some (g, k) ->
  match g with
  | grp_source_name _ | grp_std_prefix | grp_nested_name _ _ | grp_template_args => True
  | grp_ctor_name text => In text ["C1"; "C2"; "C3"]
  | grp_dtor_name text => In text ["D0"; "D1"; "D2"]
  | grp_std_name text => In text ["Sa"; "Sb"; "Ss"; "Si"; "So"; "Sd"]
  | grp_operator_name text => In text operator_codes
  end.
Proof.
  unfold _NAME_RE. intros H.
  repeat match type of H with
         | (_ ||| _) _ = Some _ => apply alt_inv in H as [H|[_ H]]
         end.
  - apply plus_inv in H as [_ [= -> _]]. exact Logic.I.
  - apply tag2_inv in H as (b & Hb & ->). apply mem_inv in Hb. simpl in Hb.
    intuition subst; simpl; auto.
  - apply tag2_inv in H as (b & Hb & ->). apply mem_inv in Hb. simpl in Hb.
    intuition subst; simpl; auto.
  - apply tag2_inv in H as (b & Hb & ->). apply mem_inv in Hb. simpl in Hb.
    intuition subst; simpl; auto 10.
  - apply lits_inv in H as (t & Hin & ->). exact Hin.
  - apply lit_inv in H as [_ [= -> _]]. exact Logic.I.
  - unfold re_nested_name in H. destruct s as [|a s]; [discriminate|].
    destruct (Ascii.eqb_spec a "N") as [->|Hne].
    + injection H as <- _. exact Logic.I.
    + destruct a as [[] [] [] [] [] [] [] []]; try discriminate. congruence.
  - apply lit_inv in H as [_ [= -> _]]. exact Logic.I.
Qed.

Lemma ctor_values (s text : string) (k : nat) :
  _NAME_RE s = Some (grp_ctor_name text, k) ->
  forall v, Py.getitem _ctor_dtor_map text = Returns v ->
            In v ["complete"; "base"; "allocating"].
Proof.
  intros H v. apply NAME_RE_groups in H. simpl in H.
  intuition subst; match goal with H : _ = Returns _ |- _ => injection H as <- end;
    simpl; auto.
Qed.

Lemma dtor_values (s text : string) (k : nat) :
  _NAME_RE s = Some (grp_dtor_name text, k) ->
  forall v, Py.getitem _ctor_dtor_map text = Returns v ->
            In v ["deleting"; "complete"; "base"].
Proof.
  intros H v. apply NAME_RE_groups in H. simpl in H.
  intuition subst; match goal with H : _ = Returns _ |- _ => injection H as <- end;
    simpl; auto.
Qed.

Lemma sound_lookahead {G : Type} (text : string) (g : G) : sound (re_lookahead text g).
Proof.
  intros s g' k. unfold re_lookahead. destruct (String.prefix text s); [|discriminate].
  intros [= _ <-]. lia.
Qed.

Lemma sound_TYPE_RE : sound _TYPE_RE.
Proof.
  unfold _TYPE_RE.
  repeat match goal with |- sound (_ ||| _) => apply sound_alt end;
    first [ apply sound_plus | apply sound_lits | apply sound_lit
          | apply sound_lookahead ].
Qed.

(** Every alternative of [_TYPE_RE] but the look-ahead consumes. *)
Lemma TYPE_RE_consuming (s : string) (g : type_groups) (k : nat) :
  _TYPE_RE s = Some (g, k) ->
  match g with
  | grp_expr_primary => k = 0 /\ String.prefix "L" s = true
  | _ => 1 <= k
  end.
Proof.
  unfold _TYPE_RE. intros H.
  repeat match type of H with
         | (_ ||| _) _ = Some _ => apply alt_inv in H as [H|[_ H]]
         end.
  - pose proof (lits_group _ _ _ _ _ H) as [t ->].
    exact (consuming_lits _ _ builtin_codes_length _ _ _ H).
  - pose proof (consuming_plus _ _ _ _ _ H). apply plus_inv in H as [_ [= -> _]]. auto.
  - apply lit_inv in H as [_ [= -> ->]]. simpl; lia.
  - pose proof (lits_group _ _ _ _ _ H) as [t ->].
    refine (consuming_lits _ _ _ _ _ _ H). repeat constructor.
  - unfold re_lookahead in H. destruct (String.prefix "L" s); [|discriminate].
    now injection H as <- <-.
Qed.

Lemma sound_EXPR_PRIMARY_RE : sound _EXPR_PRIMARY_RE.
Proof.
  unfold _EXPR_PRIMARY_RE. apply sound_alt; [|apply sound_lit].
  intros s g k. destruct (String.prefix "L_Z" s) eqn:E; [|discriminate].
  intros [= _ <-]. apply prefix_length in E. simpl in E. lia.
Qed.

Lemma consuming_EXPR_PRIMARY_RE : consuming _EXPR_PRIMARY_RE.
Proof.
  unfold _EXPR_PRIMARY_RE. apply consuming_alt; [|apply consuming_lit; simpl; lia].
  intros s g k. destruct (String.prefix "L_Z" s); [|discriminate].
  intros [= _ <-]. lia.
Qed.

Lemma sound_SPECIAL_RE : sound _SPECIAL_RE.
Proof.
  intros [|a [|b s]] g k; unfold _SPECIAL_RE;
    [discriminate | destruct a as [[] [] [] [] [] [] [] []]; discriminate |].
  destruct a as [[] [] [] [] [] [] [] []]; try discriminate.
  destruct (in_class "VTIS" b); [|discriminate]. intros [= _ <-]. simpl; lia.
Qed.

Lemma consuming_SPECIAL_RE : consuming _SPECIAL_RE.
Proof.
  intros [|a [|b s]] g k; unfold _SPECIAL_RE;
    [discriminate | destruct a as [[] [] [] [] [] [] [] []]; discriminate |].
  destruct a as [[] [] [] [] [] [] [] []]; try discriminate.
  destruct (in_class "VTIS" b); [|discriminate]. intros [= _ <-]. lia.
Qed.

Lemma sound_MANGLED_NAME_RE : sound _MANGLED_NAME_RE.
Proof. apply sound_lit. Qed.

Lemma consuming_MANGLED_NAME_RE : consuming _MANGLED_NAME_RE.
Proof. apply consuming_lit. simpl; lia. Qed.

End ReFacts.

(** ** The rules of the calculus *)

Module WpRules.
Import PyStr CursorFacts.

Section Rules.
Context {A : Type} (c : _Cursor) (Q : A -> _Cursor -> Prop) (F : Prop).

Lemma wp_ret (a : A) : Q a c -> wp (ret a) c Q F.
Proof. exact (fun H => H). Qed.

Lemma wp_raise (e : exn) : wp (raise e) c Q F.
Proof. exact Logic.I. Qed.

Lemma wp_out_of_fuel : F -> wp out_of_fuel c Q F.
Proof. exact (fun H => H). Qed.

Lemma wp_bind {B : Type} (m : M B) (k : B -> M A) :
  wp m c (fun b c' => wp (k b) c' Q F) F -> wp (bind m k) c Q F.
Proof. unfold wp, bind. destruct (m c) as [[b c']| |]; auto. Qed.

Lemma wp_mono (m : M A) (Q' : A -> _Cursor -> Prop) :
  wp m c Q' F -> (forall a c', Q' a c' -> Q a c') -> wp m c Q F.
Proof. unfold wp. destruct (m c) as [[a c']| |]; auto. Qed.

Lemma wp_eval (o : outcome A) :
  o <> NoFuel -> (forall a, o = Returns a -> Q a c) -> wp (eval o) c Q F.
Proof. unfold wp, eval. destruct o; auto; congruence. Qed.

Lemma wp_on_cursor (c0 : _Cursor) (m : M A) :
  wp m c0 (fun a _ => Q a c) F -> wp (on_cursor c0 m) c Q F.
Proof. unfold wp, on_cursor. destruct (m c0) as [[a c']| |]; auto. Qed.

End Rules.

Section Methods.
Context (c : _Cursor) (F : Prop).

Lemma wp_accept (d : string) (Q : bool -> _Cursor -> Prop) :
  (if String.prefix d (rest c) then Q true (skip (String.length d) c) else Q false c) ->
  wp (accept d) c Q F.
Proof.
  unfold wp, accept, call. rewrite accept_eq. now destruct (String.prefix d (rest c)).
Qed.

Lemma wp_at_end (Q : bool -> _Cursor -> Prop) :
  wf c -> Q (Nat.eqb (remaining c) 0) c -> wp at_end c Q F.
Proof. unfold wp, at_end. intros Hc. now rewrite at_end_eq. Qed.

Lemma wp_advance (k : nat) (Q : option string -> _Cursor -> Prop) :
  wf c ->
  (if Nat.ltb (remaining c) k then Q None c
   else Q (Some (take k (rest c))) (skip k c)) ->
  wp (advance k) c Q F.
Proof.
  unfold wp, advance, call. intros Hc. rewrite advance_eq by assumption.
  now destruct (Nat.ltb (remaining c) k).
Qed.

Lemma wp_advance_until (d : ascii) (Q : option string -> _Cursor -> Prop) :
  match find d (rest c) with
  | None => Q None c
  | Some k => Q (Some (take k (rest c))) (skip (k + 1) c)
  end ->
  wp (advance_until d) c Q F.
Proof.
  unfold wp, advance_until, call. rewrite advance_until_eq.
  now destruct (find d (rest c)).
Qed.

Lemma wp_cmatch {G : Type} (re : Cursor.pattern G) (Q : option G -> _Cursor -> Prop) :
  match re (rest c) with
  | Some (g, k) => Q (Some g) (skip k c)
  | None => Q None c
  end ->
  wp (cmatch re) c Q F.
Proof.
  unfold wp, cmatch, call, Cursor.cmatch. now destruct (re (rest c)) as [[g k]|].
Qed.

End Methods.

Lemma int_fuel (x : option string) (base : Z) : Py.int x base <> NoFuel.
Proof.
  unfold Py.int. destruct x as [s|]; [|discriminate].
  match goal with
  | |- context [let '(_, _) := ?e in _] => destruct e as [sign [|a digits]]
  end; [discriminate|].
  now destruct (Py.digits_value _ _ _).
Qed.

Lemma getitem_fuel {V : Type} (d : list (string * V)) (key : string) :
  Py.getitem d key <> NoFuel.
Proof.
  induction d as [|[k v] d IH]; simpl; [discriminate|].
  now destruct (String.eqb k key).
Qed.

End WpRules.

(** ** One walk through the productions

    The walk is made once, for a property [I] of the text still to read, a
    property [P] of the nodes built from it and a proposition [F] that
    must hold where the fuel runs out. *)

Module Walk.
Import PyStr PyStrFacts CursorFacts ReFacts WpRules.

Section Walk.
Variable I : string -> Prop.
Variable P : node -> Prop.
Variable F : Prop.

Hypothesis I_drop : forall k s, I s -> I (drop k s).
Hypothesis I_take : forall k s, I s -> I (take k s).

Hypothesis P_None : P PyNone.
Hypothesis P_Name : forall v, P (Name v).
Hypothesis P_Ctor : forall v, In v ["complete"; "base"; "allocating"] -> P (Ctor v).
Hypothesis P_Dtor : forall v, In v ["deleting"; "complete"; "base"] -> P (Dtor v).
Hypothesis P_Operator : forall v, P (Operator v).
Hypothesis P_TplParam_0 : P (TplParam 0).
Hypothesis P_TplParam :
  forall s seq_id v,
    I s -> String.length seq_id + 2 <= String.length s ->
    Py.int (Some seq_id) 36 = Returns v -> P (TplParam (1 + v)).
Hypothesis P_QualName :
  forall l, l <> [] -> Forall P l -> Forall (fun n => is_None n = false) l -> P (QualName l).
Hypothesis P_std_prefix :
  forall value, P (QualName value) -> P (QualName ([Name "std"] ++ value)%list).
Hypothesis P_TplArgs : forall l, Forall P l -> P (TplArgs l).
Hypothesis P_Pointer : forall v, P v -> P (Pointer v).
Hypothesis P_LValue : forall v, P v -> P (LValue v).
Hypothesis P_RValue : forall v, P v -> P (RValue v).
Hypothesis P_CvQual : forall v q, P v -> q <> ∅ -> P (CvQual v q).
Hypothesis P_Literal : forall v ty, P ty -> P (Literal v ty).
Hypothesis P_Function :
  forall name args, P name -> args <> [] -> Forall P args -> P (Function name args).
Hypothesis P_VTable : forall v, P v -> P (VTable v).
Hypothesis P_VTT : forall v, P v -> P (VTT v).
Hypothesis P_TypeInfo : forall v, P v -> P (TypeInfo v).
Hypothesis P_TypeInfoName : forall v, P v -> P (TypeInfoName v).

Local Abbreviation enough := (enough F).
Local Abbreviation post := (post P).
Local Abbreviation ok := (ok I P F).

Lemma I_advanced (c c' : _Cursor) : advanced c c' -> I (rest c) -> I (rest c').
Proof. intros H. rewrite (advanced_rest _ _ H). apply I_drop. Qed.

Lemma P_handle_cv (q : string) (v : node) : P v -> P (_handle_cv q v).
Proof. unfold _handle_cv. intros Hv. destruct (decide _); auto. Qed.

Lemma P_handle_indirect (q : string) (v : node) : P v -> P (_handle_indirect q v).
Proof.
  unfold _handle_indirect. intros Hv.
  repeat match goal with |- context [if ?b then _ else _] => destruct b end; auto.
Qed.

Lemma ok_until_end (kind : list node -> node) (fn : M node) (fuel : nat) :
  forall nodes c,
    wf c -> I (rest c) -> F \/ remaining c + 1 <= fuel ->
    (forall c', advanced c c' -> I (rest c') -> wp fn c' (post c') F) ->
    wp (_parse_until_end fuel kind fn nodes) c
      (fun v c' =>
         advanced c c' /\
         (v = PyNone \/
          (_pos c < _pos c' /\
           exists l, v = kind (nodes ++ l)%list /\ Forall P l /\
             Forall (fun n => is_None n = false) l /\
             (l = [] -> String.prefix "E" (rest c) = true))))
      F.
Proof.
  induction fuel as [|fuel IH]; intros nodes c Hc HI Hfuel Hfn.
  - apply wp_out_of_fuel. destruct Hfuel; [assumption | lia].
  - cbn [_parse_until_end]. apply wp_bind, wp_accept.
    destruct (String.prefix "E" (rest c)) eqn:HE.
    + apply wp_ret.
      pose proof (prefix_length _ _ HE) as Hlen. rewrite length_rest in Hlen.
      split; [now apply advanced_skip|]. right. simpl. split; [lia|].
      exists []. rewrite app_nil_r. auto.
    + apply wp_bind. eapply wp_mono; [apply Hfn; auto using advanced_refl|].
      intros n c1 (Hadv & Hlt & Hn). apply wp_bind, wp_at_end; [eauto using advanced_wf|].
      destruct (is_None n || Nat.eqb (remaining c1) 0) eqn:Hstop.
      * apply wp_ret. auto.
      * apply orb_false_elim in Hstop as [Hnone _]. specialize (Hlt Hnone).
        pose proof (advanced_remaining _ _ Hadv).
        eapply wp_mono.
        { apply IH; eauto using advanced_wf, I_advanced, advanced_trans.
          destruct Hfuel; [auto | right; lia]. }
        intros v c2 (Hadv2 & Hv). split; [eauto using advanced_trans|].
        destruct Hv as [->|(Hlt2 & l & -> & Hl & Hl' & Hnil)]; [now left | right].
        split; [lia|]. exists (n :: l). rewrite <- app_assoc. repeat split; auto.
        discriminate.
Qed.

Lemma ok_arg_types (fn : M node) (fuel : nat) :
  forall arg_types c,
    wf c -> I (rest c) -> F \/ remaining c + 1 <= fuel ->
    (forall c', advanced c c' -> I (rest c') -> wp fn c' (post c') F) ->
    wp (parse_arg_types fuel fn arg_types) c
      (fun r c' =>
         advanced c c' /\
         match r with
         | None => True
         | Some l' => exists l, l' = (arg_types ++ l)%list /\ Forall P l
         end)
      F.
Proof.
  induction fuel as [|fuel IH]; intros arg_types c Hc HI Hfuel Hfn.
  - apply wp_out_of_fuel. destruct Hfuel; [assumption | lia].
  - cbn [parse_arg_types]. apply wp_bind, wp_at_end; [assumption|].
    destruct (Nat.eqb_spec (remaining c) 0) as [Hz|Hnz].
    + apply wp_ret. split; [now apply advanced_refl|].
      exists []. now rewrite app_nil_r.
    + apply wp_bind. eapply wp_mono; [apply Hfn; auto using advanced_refl|].
      intros n c1 (Hadv & Hlt & Hn).
      destruct (is_None n) eqn:Hnone.
      * apply wp_ret. auto.
      * specialize (Hlt eq_refl). pose proof (advanced_remaining _ _ Hadv).
        eapply wp_mono.
        { apply IH; eauto using advanced_wf, I_advanced, advanced_trans.
          destruct Hfuel; [auto | right; lia]. }
        intros r c2 (Hadv2 & Hr). split; [eauto using advanced_trans|].
        destruct r as [l'|]; [|exact Logic.I].
        destruct Hr as (l & -> & Hl). exists (n :: l).
        rewrite <- app_assoc. auto.
Qed.

Lemma post_None (c c' : _Cursor) : advanced c c' -> post c PyNone c'.
Proof. intros H. split; [assumption|]. split; [discriminate | apply P_None]. Qed.

Lemma post_Some (c c' : _Cursor) (v : node) :
  advanced c c' -> _pos c < _pos c' -> P v -> post c v c'.
Proof. intros H Hlt Hv. split; [assumption|]. split; auto. Qed.

Lemma advanced_pos (c c' : _Cursor) : advanced c c' -> _pos c <= _pos c'.
Proof. now intros (_ & ? & _). Qed.

Lemma std_names_P (text : string) (v : list node) :
  Py.getitem _std_names text = Returns v ->
  v <> [] /\ Forall P v /\ Forall (fun n => is_None n = false) v.
Proof.
  unfold _std_names; cbn [Py.getitem].
  repeat (destruct (String.eqb _ text);
          [intros [= <-]; split; [discriminate|];
           split; repeat constructor; apply P_Name|]).
  discriminate.
Qed.

Lemma enough_weaken (off off' fuel fuel' : nat) (c c' : _Cursor) :
  enough off fuel c ->
  (3 * remaining c + off <= fuel -> 3 * remaining c' + off' <= fuel') ->
  enough off' fuel' c'.
Proof. unfold enough. intros [HF|H] Himp; auto. Qed.

Lemma enough_loop (off fuel fuel' : nat) (c c' : _Cursor) :
  enough off fuel c ->
  (3 * remaining c + off <= fuel -> remaining c' + 1 <= fuel') ->
  F \/ remaining c' + 1 <= fuel'.
Proof. unfold enough. intros [HF|H] Himp; auto. Qed.

(** The name production, from a cursor [c]: the empty [qual_name] need
    satisfy [P] only if the text at [c] is a nested-name introducer with
    the end marker right after it. *)
Lemma ok_name_body (fuel : nat) (parse_name parse_type : M node) :
  ok 2 fuel parse_name -> ok 3 fuel parse_type ->
  forall c,
    (forall cv ref k,
        re_nested_name (rest c) = Some (grp_nested_name cv ref, k) ->
        String.prefix "E" (drop k (rest c)) = true -> P (QualName [])) ->
    wf c -> I (rest c) -> enough 2 (S fuel) c ->
    wp (_parse_name_body fuel parse_name parse_type) c (post c) F.
Proof.
  intros Hname Htype c Hempty Hc HI Hen. unfold _parse_name_body.
  apply wp_bind, wp_cmatch.
  destruct (_NAME_RE (rest c)) as [[g k]|] eqn:Hm.
  2: { apply wp_ret. auto using post_None, advanced_refl. }
  pose proof (sound_NAME_RE _ _ _ Hm) as Hk1.
  pose proof (consuming_NAME_RE _ _ _ Hm) as Hk2.
  rewrite length_rest in Hk1.
  assert (wf (skip k c)) as Hc1 by now apply wf_skip.
  assert (I (rest (skip k c))) as HI1 by (rewrite rest_skip; now apply I_drop).
  pose proof (remaining_skip k c) as Hrem.
  assert (forall c', advanced (skip k c) c' -> I (rest c') ->
            wp parse_name c' (post c') F) as Hfn_name.
  { intros c' Hadv HI'. apply Hname; eauto using advanced_wf.
    pose proof (advanced_remaining _ _ Hadv).
    eapply enough_weaken; [exact Hen|]. lia. }
  assert (forall c0 c', advanced (skip k c) c0 -> advanced c0 c' -> I (rest c') ->
            wp parse_type c' (post c') F) as Hfn_type.
  { intros c0 c' Hadv0 Hadv HI'. apply Htype; eauto using advanced_wf.
    pose proof (advanced_remaining _ _ Hadv). pose proof (advanced_remaining _ _ Hadv0).
    eapply enough_weaken; [exact Hen|]. lia. }
  apply wp_bind.
  apply wp_mono with (Q' := fun n c2 => advanced (skip k c) c2 /\ P n).
  { destruct g.
    - unfold _parse_source_name.
      apply wp_bind, wp_eval; [apply int_fuel|]. intros name_len _.
      apply wp_bind, wp_advance; [assumption|].
      destruct (Nat.ltb_spec (remaining (skip k c)) (Z.to_nat name_len));
        apply wp_ret; split; auto using advanced_refl, advanced_skip.
    - apply wp_bind, wp_eval; [apply getitem_fuel|]. intros v Hv.
      apply wp_ret; split; [now apply advanced_refl|].
      apply P_Ctor. exact (ctor_values _ _ _ Hm v Hv).
    - apply wp_bind, wp_eval; [apply getitem_fuel|]. intros v Hv.
      apply wp_ret; split; [now apply advanced_refl|].
      apply P_Dtor. exact (dtor_values _ _ _ Hm v Hv).
    - apply wp_bind, wp_eval; [apply getitem_fuel|]. intros v Hv.
      apply std_names_P in Hv as (Hne & Hv & Hv').
      apply wp_ret; auto using advanced_refl.
    - apply wp_bind, wp_eval; [apply getitem_fuel|]. intros v _.
      apply wp_ret; auto using advanced_refl.
    - apply wp_bind. eapply wp_mono; [apply Hfn_name; auto using advanced_refl|].
      intros name c2 (Hadv2 & _ & HPn).
      destruct name; apply wp_ret; split; auto;
        (apply P_QualName; [discriminate | repeat constructor; auto | repeat constructor]).
    - apply wp_bind. eapply wp_mono.
      { apply ok_until_end; auto. eapply enough_loop; [exact Hen|]. lia. }
      intros v c2 (Hadv2 & Hv). apply wp_ret. split; [assumption|].
      apply P_handle_indirect, P_handle_cv.
      destruct Hv as [->|(_ & l & -> & Hl & Hl' & Hnil)]; [apply P_None|].
      destruct l as [|x l]; [|apply P_QualName; [discriminate|assumption..]].
      apply (Hempty cv_qual ref_qual k); auto using NAME_RE_nested.
      rewrite <- rest_skip. now apply Hnil.
    - eapply wp_mono.
      { apply ok_until_end; auto.
        - eapply enough_loop; [exact Hen|]. lia.
        - intros c' Hadv. apply (Hfn_type (skip k c)); auto using advanced_refl. }
      intros v c2 (Hadv2 & Hv). split; [assumption|].
      destruct Hv as [->|(_ & l & -> & Hl & _ & _)]; auto. }
  intros n c2 (Hadv2 & HPn).
  assert (advanced c (skip k c)) as Hadv1 by now apply advanced_skip.
  pose proof (advanced_pos _ _ Hadv2) as Hpos2. cbn [skip _pos] in Hpos2.
  destruct (is_None n) eqn:Hnone.
  { apply wp_ret. destruct n; try discriminate.
    eauto using post_None, advanced_trans. }
  apply wp_bind, wp_accept.
  destruct (String.prefix "I" (rest c2)) eqn:Htpl.
  - pose proof (prefix_length _ _ Htpl) as Hlen. rewrite length_rest in Hlen.
    pose proof (advanced_wf _ _ Hadv2) as Hc2.
    pose proof (advanced_remaining _ _ Hadv2) as Hrem2.
    assert (advanced c2 (skip (String.length "I") c2)) as Hadv3 by now apply advanced_skip.
    apply wp_bind. eapply wp_mono.
    { apply ok_until_end; eauto using advanced_wf.
      - rewrite rest_skip. apply I_drop. eauto using I_advanced.
      - eapply enough_loop; [exact Hen|]. rewrite remaining_skip. lia.
      - intros c' Hadv. apply (Hfn_type c2); eauto using advanced_trans. }
    intros t c3 (Hadv4 & Ht).
    assert (advanced c c3) as Hadv5 by eauto using advanced_trans.
    pose proof (advanced_pos _ _ Hadv4) as Hpos4. cbn [skip _pos] in Hpos4.
    destruct (is_None t) eqn:Htnone; apply wp_ret.
    + destruct t; try discriminate. now apply post_None.
    + apply post_Some; [assumption | lia |].
      apply P_QualName; [discriminate| |repeat constructor; assumption].
      repeat constructor; auto.
      destruct Ht as [->|(_ & l & -> & Hl & _ & _)]; auto.
  - apply wp_ret. apply post_Some; eauto using advanced_trans. lia.
Qed.

Lemma skip_0 (c : _Cursor) : skip 0 c = c.
Proof. destruct c as [raw pos]. unfold skip; simpl. f_equal. lia. Qed.

Lemma ok_type_body (fuel : nat) (parse_name parse_type parse_expr_primary : M node) :
  ok 2 fuel parse_name -> ok 3 fuel parse_type -> ok 2 fuel parse_expr_primary ->
  ok 3 (S fuel) (_parse_type_body parse_name parse_type parse_expr_primary).
Proof.
  intros Hname Htype Hep c Hc HI Hen. unfold _parse_type_body.
  apply wp_bind, wp_cmatch.
  destruct (_TYPE_RE (rest c)) as [[g k]|] eqn:Hm.
  2: { apply Hname; auto. eapply enough_weaken; [exact Hen|]. lia. }
  pose proof (sound_TYPE_RE _ _ _ Hm) as Hk1.
  pose proof (TYPE_RE_consuming _ _ _ Hm) as Hk2.
  rewrite length_rest in Hk1.
  assert (wf (skip k c)) as Hc1 by now apply wf_skip.
  assert (I (rest (skip k c))) as HI1 by (rewrite rest_skip; now apply I_drop).
  assert (advanced c (skip k c)) as Hadv1 by now apply advanced_skip.
  pose proof (remaining_skip k c) as Hrem.
  assert (1 <= k -> wp parse_type (skip k c) (post (skip k c)) F) as Hrec.
  { intros Hk. apply Htype; auto. eapply enough_weaken; [exact Hen|]. lia. }
  destruct g.
  - apply wp_bind, wp_eval; [apply getitem_fuel|]. intros v _.
    apply wp_ret, post_Some; auto. simpl; lia.
  - apply wp_bind. eapply wp_mono; [now apply Hrec|].
    intros ty c2 (Hadv2 & _ & Hty).
    pose proof (advanced_pos _ _ Hadv2) as Hpos2. cbn [skip _pos] in Hpos2.
    destruct (is_None ty); apply wp_ret.
    + eauto using post_None, advanced_trans.
    + apply post_Some; eauto using advanced_trans, P_handle_cv. lia.
  - apply wp_bind, wp_advance_until.
    destruct (find "_" (rest (skip k c))) as [j|] eqn:Hfind.
    + apply find_lt in Hfind. rewrite length_rest in Hfind.
      assert (forall v, P (TplParam v) -> post c (TplParam v) (skip (j + 1) (skip k c)))
        as Hpost.
      { intros v Hv. apply post_Some; [|simpl; lia|assumption].
        eapply advanced_trans; [exact Hadv1|]. apply advanced_skip; auto; lia. }
      destruct (take j (rest (skip k c))) as [|a seq_id] eqn:Hseq;
        [apply wp_ret; auto|].
      apply wp_bind, wp_eval; [apply int_fuel|]. intros v Hv. apply wp_ret, Hpost.
      apply (P_TplParam (rest c) (String a seq_id) v); auto.
      rewrite <- Hseq, length_take, !length_rest. lia.
    + apply wp_bind, wp_eval; [apply int_fuel|]. intros v Hv. discriminate Hv.
  - apply wp_bind. eapply wp_mono; [now apply Hrec|].
    intros ty c2 (Hadv2 & _ & Hty).
    pose proof (advanced_pos _ _ Hadv2) as Hpos2. cbn [skip _pos] in Hpos2.
    destruct (is_None ty); apply wp_ret.
    + eauto using post_None, advanced_trans.
    + apply post_Some; eauto using advanced_trans, P_handle_indirect. lia.
  - destruct Hk2 as [-> _]. rewrite skip_0.
    apply Hep; auto. eapply enough_weaken; [exact Hen|]. lia.
Qed.

Lemma ok_expr_primary_body (fuel : nat) (parse_type parse_mangled_name : M node) :
  ok 3 fuel parse_type -> ok 4 fuel parse_mangled_name ->
  ok 2 (S fuel) (_parse_expr_primary_body parse_type parse_mangled_name).
Proof.
  intros Htype Hmangled c Hc HI Hen. unfold _parse_expr_primary_body.
  apply wp_bind, wp_cmatch.
  destruct (_EXPR_PRIMARY_RE (rest c)) as [[g k]|] eqn:Hm.
  2: { apply wp_ret. auto using post_None, advanced_refl. }
  pose proof (sound_EXPR_PRIMARY_RE _ _ _ Hm) as Hk1.
  pose proof (consuming_EXPR_PRIMARY_RE _ _ _ Hm) as Hk2.
  rewrite length_rest in Hk1.
  assert (wf (skip k c)) as Hc1 by now apply wf_skip.
  assert (I (rest (skip k c))) as HI1 by (rewrite rest_skip; now apply I_drop).
  assert (advanced c (skip k c)) as Hadv1 by now apply advanced_skip.
  pose proof (remaining_skip k c) as Hrem.
  destruct g.
  - apply wp_bind, wp_advance_until.
    destruct (find "E" (rest (skip k c))) as [j|] eqn:Hfind; [|apply wp_raise].
    apply find_lt in Hfind. rewrite length_rest in Hfind.
    apply wp_on_cursor. eapply wp_mono.
    { apply Hmangled.
      - unfold wf; simpl; lia.
      - unfold rest; simpl. now apply I_take.
      - eapply enough_weaken; [exact Hen|].
        unfold remaining at 2; simpl. rewrite length_take, length_rest. lia. }
    intros v _ (_ & _ & Hv). apply post_Some; [|simpl; lia|assumption].
    eapply advanced_trans; [exact Hadv1|]. apply advanced_skip; auto; lia.
  - apply wp_bind. eapply wp_mono.
    { apply Htype; auto. eapply enough_weaken; [exact Hen|]. lia. }
    intros ty c2 (Hadv2 & _ & Hty).
    pose proof (advanced_pos _ _ Hadv2) as Hpos2. cbn [skip _pos] in Hpos2.
    assert (advanced c c2) as Hadv3 by eauto using advanced_trans.
    destruct (is_None ty); [apply wp_ret; now apply post_None|].
    apply wp_bind, wp_advance_until.
    destruct (find "E" (rest c2)) as [j|] eqn:Hfind; apply wp_ret;
      [|now apply post_None].
    apply find_lt in Hfind. rewrite length_rest in Hfind.
    apply post_Some; [|simpl; lia|auto].
    eapply advanced_trans; [exact Hadv3|].
    apply advanced_skip; eauto using advanced_wf; lia.
Qed.

Lemma ok_special_body (fuel : nat) (parse_type : M node) :
  ok 3 fuel parse_type -> ok 4 (S fuel) (_parse_special_body parse_type).
Proof.
  intros Htype c Hc HI Hen. unfold _parse_special_body.
  apply wp_bind, wp_cmatch.
  destruct (_SPECIAL_RE (rest c)) as [[g k]|] eqn:Hm.
  2: { apply wp_ret. auto using post_None, advanced_refl. }
  pose proof (sound_SPECIAL_RE _ _ _ Hm) as Hk1.
  pose proof (consuming_SPECIAL_RE _ _ _ Hm) as Hk2.
  rewrite length_rest in Hk1.
  assert (wf (skip k c)) as Hc1 by now apply wf_skip.
  assert (I (rest (skip k c))) as HI1 by (rewrite rest_skip; now apply I_drop).
  assert (advanced c (skip k c)) as Hadv1 by now apply advanced_skip.
  pose proof (remaining_skip k c) as Hrem.
  apply wp_bind. eapply wp_mono.
  { apply Htype; auto. eapply enough_weaken; [exact Hen|]. lia. }
  intros name c2 (Hadv2 & _ & Hname).
  pose proof (advanced_pos _ _ Hadv2) as Hpos2. cbn [skip _pos] in Hpos2.
  assert (advanced c c2) as Hadv3 by eauto using advanced_trans.
  destruct (is_None name); [apply wp_ret; now apply post_None|].
  repeat match goal with
         | |- wp (if ?b then _ else _) _ _ _ => destruct b
         end;
    apply wp_ret; (apply post_None || apply post_Some); auto; lia.
Qed.

Lemma ok_mangled_name_body (fuel : nat) (parse_name parse_type parse_special : M node) :
  ok 2 fuel parse_name -> ok 3 fuel parse_type -> ok 4 fuel parse_special ->
  ok 4 (S fuel) (_parse_mangled_name_body fuel parse_name parse_type parse_special).
Proof.
  intros Hname Htype Hspecial c Hc HI Hen. unfold _parse_mangled_name_body.
  apply wp_bind, wp_cmatch.
  destruct (_MANGLED_NAME_RE (rest c)) as [[g k]|] eqn:Hm.
  2: { apply wp_ret. auto using post_None, advanced_refl. }
  pose proof (sound_MANGLED_NAME_RE _ _ _ Hm) as Hk1.
  pose proof (consuming_MANGLED_NAME_RE _ _ _ Hm) as Hk2.
  rewrite length_rest in Hk1.
  assert (wf (skip k c)) as Hc1 by now apply wf_skip.
  assert (I (rest (skip k c))) as HI1 by (rewrite rest_skip; now apply I_drop).
  assert (advanced c (skip k c)) as Hadv1 by now apply advanced_skip.
  pose proof (remaining_skip k c) as Hrem.
  apply wp_bind. eapply wp_mono.
  { apply Hspecial; auto. eapply enough_weaken; [exact Hen|]. lia. }
  intros special c2 (Hadv2 & _ & Hsp).
  pose proof (advanced_pos _ _ Hadv2) as Hpos2. cbn [skip _pos] in Hpos2.
  pose proof (advanced_remaining _ _ Hadv2) as Hrem2.
  assert (advanced c c2) as Hadv3 by eauto using advanced_trans.
  destruct (is_None special); cbn [negb].
  2: { apply wp_ret, post_Some; auto. lia. }
  apply wp_bind. eapply wp_mono.
  { apply Hname; eauto using advanced_wf, I_advanced.
    eapply enough_weaken; [exact Hen|]. lia. }
  intros name c3 (Hadv4 & _ & Hnm).
  pose proof (advanced_pos _ _ Hadv4) as Hpos4.
  pose proof (advanced_remaining _ _ Hadv4) as Hrem4.
  assert (advanced c c3) as Hadv5 by eauto using advanced_trans.
  destruct (is_None name); [apply wp_ret; now apply post_None|].
  apply wp_bind. eapply wp_mono.
  { apply ok_arg_types; eauto using advanced_wf, I_advanced.
    - eapply enough_loop; [exact Hen|]. lia.
    - intros c' Hadv HI'. apply Htype; eauto using advanced_wf.
      pose proof (advanced_remaining _ _ Hadv).
      eapply enough_weaken; [exact Hen|]. lia. }
  intros r c4 (Hadv6 & Hr).
  pose proof (advanced_pos _ _ Hadv6) as Hpos6.
  assert (advanced c c4) as Hadv7 by eauto using advanced_trans.
  destruct r as [[|a l]|]; apply wp_ret;
    [apply post_Some; auto; lia | | now apply post_None].
  apply post_Some; [assumption | lia |].
  destruct Hr as (l' & Heq & Hl'). simpl in Heq. subst l'.
  apply P_Function; auto; discriminate.
Qed.

Lemma ok_out_of_fuel (off : nat) : 0 < off -> ok off 0 out_of_fuel.
Proof.
  intros Hoff c _ _ [HF|Hb]; [now apply wp_out_of_fuel | lia].
Qed.

(** The productions with the assertion in front of the name production:
    where the assertion holds, the nested-name production does not build
    the empty [qual_name]. *)
Theorem checked_productions_ok (fuel : nat) :
  ok 2 fuel (checked_name fuel) /\ ok 3 fuel (checked_type fuel) /\
  ok 2 fuel (checked_expr_primary fuel) /\ ok 4 fuel (checked_special fuel) /\
  ok 4 fuel (checked_mangled_name fuel).
Proof.
  induction fuel as [|fuel (Hname & Htype & Hep & Hspecial & Hmangled)].
  - repeat split; apply ok_out_of_fuel; lia.
  - repeat split.
    + intros c Hc HI Hen. cbn [checked_name]. unfold checked, wp.
      destruct (empty_nested_at (rest c)) eqn:Hempty; [exact Logic.I|].
      apply ok_name_body; auto.
      intros cv ref k Hm HE. unfold empty_nested_at in Hempty.
      rewrite Hm, HE in Hempty. discriminate.
    + now apply ok_type_body.
    + now apply ok_expr_primary_body.
    + now apply ok_special_body.
    + now apply ok_mangled_name_body.
Qed.

Hypothesis P_QualName_nil :
  forall s cv ref k,
    I s -> re_nested_name s = Some (grp_nested_name cv ref, k) ->
    String.prefix "E" (drop k s) = true -> P (QualName []).

Theorem productions_ok (fuel : nat) :
  ok 2 fuel (_parse_name fuel) /\ ok 3 fuel (_parse_type fuel) /\
  ok 2 fuel (_parse_expr_primary fuel) /\ ok 4 fuel (_parse_special fuel) /\
  ok 4 fuel (_parse_mangled_name fuel).
Proof.
  induction fuel as [|fuel (Hname & Htype & Hep & Hspecial & Hmangled)].
  - repeat split; apply ok_out_of_fuel; lia.
  - repeat split.
    + intros c Hc HI. apply ok_name_body; auto.
      intros cv ref k. now apply P_QualName_nil.
    + now apply ok_type_body.
    + now apply ok_expr_primary_body.
    + now apply ok_special_body.
    + now apply ok_mangled_name_body.
Qed.

End Walk.
End Walk.

Module WalkUse.
Import PyStr PyStrFacts CursorFacts ReFacts WpRules Walk.

Section Parse.
Variable I : string -> Prop.
Variable P : node -> Prop.
Variable F : Prop.
Variable mangled_name : nat -> M node.
Hypothesis Hok : forall fuel, ok I P F 4 fuel (mangled_name fuel).

Lemma run_wp (raw : string) :
  I raw ->
  match result_of (mangled_name (fuel_for raw) (mkCursor raw 0)) with
  | Returns v => P v
  | Raises _ => True
  | NoFuel => F
  end.
Proof.
  intros HI.
  assert (wf (mkCursor raw 0)) as Hc by (unfold wf; simpl; lia).
  pose proof (Hok (fuel_for raw) (mkCursor raw 0) Hc HI) as H.
  unfold wp in H.
  destruct (mangled_name (fuel_for raw) (mkCursor raw 0)) as [[v c]| |];
    simpl; apply H; right; unfold remaining, fuel_for; simpl; lia.
Qed.
End Parse.

Lemma parse_wp (I : string -> Prop) (P : node -> Prop) (F : Prop)
    (Hok : forall fuel, ok I P F 4 fuel (_parse_mangled_name fuel)) (raw : string) :
  I raw ->
  match parse raw with
  | Returns v => P v
  | Raises _ => True
  | NoFuel => F
  end.
Proof. exact (run_wp I P F _parse_mangled_name Hok raw). Qed.

Section Tree.
Variable I : string -> Prop.
Variable p : node -> bool.
Hypothesis I_drop : forall k s, I s -> I (drop k s).
Hypothesis I_take : forall k s, I s -> I (take k s).
Hypothesis p_plain : forall n, plain n -> p n = true.

Local Abbreviation P := (fun n : node => all_nodes p n = true).

Lemma Forall_forallb (l : list node) :
  Forall (fun n => all_nodes p n = true) l <-> forallb (all_nodes p) l = true.
Proof.
  rewrite forallb_forall, List.Forall_forall. reflexivity.
Qed.

(** what the walk asks of [P], one goal for each kind of node; [empty]
    is for the empty [qual_name] *)
Ltac tree_goals empty :=
  cbn beta; intros;
  try match goal with
      | H : all_nodes p (QualName _) = true |- _ =>
          cbn [all_nodes] in H; apply andb_prop in H as [_ H]
      end;
  try match goal with
      | H : Forall _ _ |- _ => apply Forall_forallb in H
      end;
  try match goal with
      | H : ?l <> [] |- _ => destruct l; [contradiction (H eq_refl) | clear H]
      end;
  cbn [all_nodes app forallb] in *;
  repeat match goal with
         | H : _ && _ = true |- _ => apply andb_prop in H as [? ?]
         end;
  repeat match goal with
         | |- _ && _ = true => apply andb_true_intro; split
         | |- p (QualName []) = true => empty
         | |- p _ = true => apply p_plain; simpl; auto
         | |- _ = true => assumption || reflexivity
         end.

(** With the assertion, no hypothesis on the empty [qual_name] is
    needed. *)
Lemma checked_tree_invariant (raw : string) : I raw -> returned P (checked_parse raw).
Proof.
  intros HI.
  apply (run_wp I P False checked_mangled_name); [|assumption].
  intros fuel.
  apply (checked_productions_ok I P False); auto; tree_goals fail.
Qed.

Hypothesis p_empty_nested :
  forall s cv ref k,
    I s -> re_nested_name s = Some (grp_nested_name cv ref, k) ->
    String.prefix "E" (drop k s) = true -> p (QualName []) = true.

Lemma tree_invariant (raw : string) : I raw -> returned P (parse raw).
Proof.
  intros HI.
  apply (parse_wp I P False); [|assumption].
  intros fuel.
  apply (productions_ok I P False); auto;
    tree_goals ltac:(eapply p_empty_nested; eassumption).
Qed.
End Tree.

Lemma parse_has_fuel (raw : string) : parse raw <> NoFuel.
Proof.
  pose proof (tree_invariant (fun _ => True) (fun _ => true)) as H.
  specialize (H (fun _ _ _ => Logic.I) (fun _ _ _ => Logic.I)
                (fun _ _ => eq_refl) (fun _ _ _ _ _ _ _ => eq_refl) raw Logic.I).
  destruct (parse raw); [discriminate | discriminate | contradiction].
Qed.

End WalkUse.

(** ** The productions with an assertion

    The assertion in front of the name production fails where the
    nested-name production is about to build an empty list.  A run that
    does not fail it is the run of the productions themselves. *)

Module Checked.
Import PyStr PyStrFacts CursorFacts ReFacts Re.

Lemma upto_refl {A : Type} (m : M A) : upto_M m m.
Proof. intros c. now right. Qed.

Lemma upto_bind {A B : Type} (m1 m2 : M A) (k1 k2 : A -> M B) :
  upto_M m1 m2 -> (forall a, upto_M (k1 a) (k2 a)) ->
  upto_M (bind m1 k1) (bind m2 k2).
Proof.
  intros Hm Hk c. unfold bind. destruct (Hm c) as [-> | ->]; [now left|].
  destruct (m2 c) as [[a c']| |]; [apply Hk | now right..].
Qed.

Lemma upto_on_cursor {A : Type} (c0 : _Cursor) (m1 m2 : M A) :
  upto_M m1 m2 -> upto_M (on_cursor c0 m1) (on_cursor c0 m2).
Proof.
  intros Hm c. unfold on_cursor. destruct (Hm c0) as [-> | ->]; [now left | now right].
Qed.

Lemma upto_until_end (kind : list node -> node) (fn1 fn2 : M node) (fuel : nat) :
  upto_M fn1 fn2 ->
  forall nodes,
    upto_M (_parse_until_end fuel kind fn1 nodes) (_parse_until_end fuel kind fn2 nodes).
Proof.
  intros Hfn. induction fuel as [|fuel IH]; intros nodes; [apply upto_refl|].
  cbn [_parse_until_end]. apply upto_bind; [apply upto_refl|]. intros [|]; [apply upto_refl|].
  apply upto_bind; [assumption|]. intros n.
  apply upto_bind; [apply upto_refl|]. intros e.
  destruct (is_None n || e); [apply upto_refl | apply IH].
Qed.

Lemma upto_arg_types (fn1 fn2 : M node) (fuel : nat) :
  upto_M fn1 fn2 ->
  forall arg_types,
    upto_M (parse_arg_types fuel fn1 arg_types) (parse_arg_types fuel fn2 arg_types).
Proof.
  intros Hfn. induction fuel as [|fuel IH]; intros arg_types; [apply upto_refl|].
  cbn [parse_arg_types]. apply upto_bind; [apply upto_refl|]. intros [|]; [apply upto_refl|].
  apply upto_bind; [assumption|]. intros n.
  destruct (is_None n); [apply upto_refl | apply IH].
Qed.

Ltac upto :=
  repeat first
    [ assumption
    | apply upto_refl
    | apply upto_until_end
    | apply upto_arg_types
    | apply upto_on_cursor
    | apply upto_bind; [|intros ?]
    | match goal with
      | |- upto_M (match ?x with _ => _ end) _ => destruct x
      end ].

Section Bodies.
Variables name1 name2 type1 type2 ep1 ep2 special1 special2 mangled1 mangled2 : M node.
Hypothesis Hname : upto_M name1 name2.
Hypothesis Htype : upto_M type1 type2.
Hypothesis Hep : upto_M ep1 ep2.
Hypothesis Hspecial : upto_M special1 special2.
Hypothesis Hmangled : upto_M mangled1 mangled2.

Lemma upto_name_body (fuel : nat) :
  upto_M (_parse_name_body fuel name1 type1) (_parse_name_body fuel name2 type2).
Proof. unfold _parse_name_body. upto. Qed.

Lemma upto_type_body :
  upto_M (_parse_type_body name1 type1 ep1) (_parse_type_body name2 type2 ep2).
Proof. unfold _parse_type_body. upto. Qed.

Lemma upto_expr_primary_body :
  upto_M (_parse_expr_primary_body type1 mangled1) (_parse_expr_primary_body type2 mangled2).
Proof. unfold _parse_expr_primary_body. upto. Qed.

Lemma upto_special_body :
  upto_M (_parse_special_body type1) (_parse_special_body type2).
Proof. unfold _parse_special_body. upto. Qed.

Lemma upto_mangled_name_body (fuel : nat) :
  upto_M (_parse_mangled_name_body fuel name1 type1 special1)
    (_parse_mangled_name_body fuel name2 type2 special2).
Proof. unfold _parse_mangled_name_body. upto. Qed.

End Bodies.

Lemma upto_checked (m1 m2 : M node) : upto_M m1 m2 -> upto_M (checked m1) m2.
Proof.
  intros H c. unfold checked. destruct (empty_nested_at (rest c)); [now left | apply H].
Qed.

(** The productions with the assertion do what the productions do,
    unless the assertion fails. *)
Lemma checked_upto (fuel : nat) :
  upto_M (checked_name fuel) (_parse_name fuel) /\
  upto_M (checked_type fuel) (_parse_type fuel) /\
  upto_M (checked_expr_primary fuel) (_parse_expr_primary fuel) /\
  upto_M (checked_special fuel) (_parse_special fuel) /\
  upto_M (checked_mangled_name fuel) (_parse_mangled_name fuel).
Proof.
  induction fuel as [|fuel (Hname & Htype & Hep & Hspecial & Hmangled)].
  - repeat split; intros c; now right.
  - repeat split; intros c.
    + apply (upto_checked _ _ (upto_name_body _ _ _ _ Hname Htype fuel)).
    + now apply upto_type_body.
    + now apply upto_expr_primary_body.
    + now apply upto_special_body.
    + now apply upto_mangled_name_body.
Qed.

Lemma checked_parse_upto (raw : string) :
  reaches_empty_nested raw = false -> checked_parse raw = parse raw.
Proof.
  unfold reaches_empty_nested, checked_parse, parse.
  destruct (checked_upto (fuel_for raw)) as (_ & _ & _ & _ & H).
  destruct (H (mkCursor raw 0)) as [-> | ->]; [discriminate|].
  reflexivity.
Qed.

(** A text that starts with [N] is a nested name for the name pattern. *)
Lemma NAME_RE_of_nested (s : string) (r : name_groups * nat) :
  re_nested_name s = Some r -> _NAME_RE s = Some r.
Proof.
  destruct s as [|a s]; [discriminate|].
  destruct (Ascii.eqb_spec a "N") as [->|Hne].
  - intros H. destruct s; exact H.
  - destruct a as [[] [] [] [] [] [] [] []]; try discriminate. congruence.
Qed.

Lemma handle_not_None (cv ref : string) (n : node) :
  is_None n = false -> is_None (_handle_indirect ref (_handle_cv cv n)) = false.
Proof.
  intros Hn. unfold _handle_indirect, _handle_cv.
  repeat match goal with |- context [if ?b then _ else _] => destruct b end; auto.
Qed.

(** The nested-name production on an introducer with the end marker
    right after it: the list is empty. *)
Lemma empty_nested_name (fuel : nat) (c : _Cursor) (cv ref : string) (k : nat) :
  re_nested_name (rest c) = Some (grp_nested_name cv ref, k) ->
  String.prefix "E" (drop k (rest c)) = true ->
  String.prefix "I" (drop (k + 1) (rest c)) = false ->
  _parse_name (S (S fuel)) c =
    Returns (_handle_indirect ref (_handle_cv cv (QualName [])), skip (k + 1) c).
Proof.
  intros Hm HE HI.
  change (_parse_name (S (S fuel)) c)
    with (_parse_name_body (S fuel) (_parse_name (S fuel)) (_parse_type (S fuel)) c).
  unfold _parse_name_body.
  unfold bind at 1. unfold cmatch at 1. unfold call, Cursor.cmatch.
  rewrite (NAME_RE_of_nested _ _ Hm). fold (skip k c).
  unfold bind at 1. unfold bind at 1.
  cbn [_parse_until_end]. unfold bind at 1. unfold accept at 1. unfold call.
  rewrite accept_eq, rest_skip, HE. unfold ret at 1. unfold ret at 1.
  rewrite handle_not_None by reflexivity.
  unfold bind at 1. unfold accept, call. rewrite accept_eq.
  rewrite !skip_skip, rest_skip. cbn [String.length]. rewrite HI.
  reflexivity.
Qed.

End Checked.

(** ** More fuel, another position: the same result

    A production reads the cursor only through the text still to read,
    and once it has returned or raised, more fuel changes nothing. *)

Module Refinement.
Import PyStr PyStrFacts CursorFacts ReFacts.

Lemma same_text_remaining (c1 c2 : _Cursor) :
  same_text c1 c2 -> remaining c1 = remaining c2.
Proof. intros (_ & _ & H). now rewrite <- !length_rest, H. Qed.

Lemma same_text_skip (k : nat) (c1 c2 : _Cursor) :
  same_text c1 c2 -> k <= String.length (rest c1) -> same_text (skip k c1) (skip k c2).
Proof.
  intros H Hk. pose proof (same_text_remaining _ _ H) as Hrem.
  destruct H as (H1 & H2 & H). rewrite length_rest in Hk.
  repeat split; try (apply wf_skip; auto; lia).
  now rewrite !rest_skip, H.
Qed.

Lemma same_text_refl (c : _Cursor) : wf c -> same_text c c.
Proof. unfold same_text; auto. Qed.

Section Rules.
Context {A : Type}.

Lemma refines_ret (a : A) : refines (ret a) (ret a).
Proof. intros c1 c2 H. simpl. eauto. Qed.

Lemma refines_raise (e : exn) : refines (@raise A e) (raise e).
Proof. intros c1 c2 H. reflexivity. Qed.

Lemma refines_out_of_fuel (m : M A) : refines out_of_fuel m.
Proof. intros c1 c2 H. exact Logic.I. Qed.

Lemma refines_eval (o : outcome A) : refines (eval o) (eval o).
Proof. intros c1 c2 H. unfold eval. destruct o; simpl; eauto. Qed.

Lemma refines_bind {B : Type} (m1 m2 : M B) (k1 k2 : B -> M A) :
  refines m1 m2 -> (forall b, refines (k1 b) (k2 b)) ->
  refines (bind m1 k1) (bind m2 k2).
Proof.
  intros Hm Hk c1 c2 H. unfold bind. specialize (Hm c1 c2 H).
  destruct (m1 c1) as [[b c1']| |]; simpl in Hm.
  - destruct Hm as (c2' & -> & H'). now apply Hk.
  - now rewrite Hm.
  - exact Logic.I.
Qed.

Lemma refines_on_cursor (c0 : _Cursor) (m1 m2 : M A) :
  wf c0 -> refines m1 m2 -> refines (on_cursor c0 m1) (on_cursor c0 m2).
Proof.
  intros Hc0 Hm c1 c2 H. unfold on_cursor.
  specialize (Hm c0 c0 (same_text_refl _ Hc0)).
  destruct (m1 c0) as [[a c1']| |]; simpl in Hm.
  - destruct Hm as (c2' & -> & _). simpl. eauto.
  - now rewrite Hm.
  - exact Logic.I.
Qed.

End Rules.

Lemma refines_accept (d : string) : refines (accept d) (accept d).
Proof.
  intros c1 c2 H. unfold accept, call. rewrite !accept_eq.
  pose proof H as (_ & _ & Hr). rewrite <- Hr.
  destruct (String.prefix d (rest c1)) eqn:E; simpl; eauto.
  eexists; split; [reflexivity|]. apply same_text_skip; auto.
  now apply prefix_length.
Qed.

Lemma refines_at_end : refines at_end at_end.
Proof.
  intros c1 c2 H. unfold at_end. pose proof H as (H1 & H2 & _).
  rewrite !at_end_eq, (same_text_remaining _ _ H) by assumption. simpl. eauto.
Qed.

Lemma refines_advance (k : nat) : refines (advance k) (advance k).
Proof.
  intros c1 c2 H. unfold advance, call. pose proof H as (H1 & H2 & Hr).
  rewrite !advance_eq, <- (same_text_remaining _ _ H), <- Hr by assumption.
  destruct (Nat.ltb_spec (remaining c1) k); simpl; eauto.
  eexists; split; [reflexivity|]. apply same_text_skip; auto.
  rewrite length_rest; lia.
Qed.

Lemma refines_advance_until (d : ascii) : refines (advance_until d) (advance_until d).
Proof.
  intros c1 c2 H. unfold advance_until, call. pose proof H as (H1 & H2 & Hr).
  rewrite !advance_until_eq, <- Hr.
  destruct (find d (rest c1)) as [k|] eqn:E; simpl; eauto.
  eexists; split; [reflexivity|]. apply same_text_skip; auto.
  apply find_lt in E. lia.
Qed.

Lemma refines_cmatch {G : Type} (re : Cursor.pattern G) :
  sound re -> refines (cmatch re) (cmatch re).
Proof.
  intros Hre c1 c2 H. unfold cmatch, call, Cursor.cmatch. pose proof H as (H1 & H2 & Hr).
  rewrite <- Hr. destruct (re (rest c1)) as [[g k]|] eqn:E; simpl; eauto.
  eexists; split; [reflexivity|]. apply same_text_skip; eauto.
Qed.

Ltac refines_step :=
  match goal with
  | |- refines (bind _ _) (bind _ _) => apply refines_bind; [|intros ?]
  | |- refines (ret _) (ret _) => apply refines_ret
  | |- refines (raise _) (raise _) => apply refines_raise
  | |- refines (eval _) (eval _) => apply refines_eval
  | |- refines (accept _) (accept _) => apply refines_accept
  | |- refines at_end at_end => apply refines_at_end
  | |- refines (advance _) (advance _) => apply refines_advance
  | |- refines (advance_until _) (advance_until _) => apply refines_advance_until
  | |- refines (cmatch _) (cmatch _) =>
      apply refines_cmatch;
      first [ apply sound_NAME_RE | apply sound_TYPE_RE | apply sound_EXPR_PRIMARY_RE
            | apply sound_SPECIAL_RE | apply sound_MANGLED_NAME_RE ]
  | |- refines (on_cursor _ _) (on_cursor _ _) =>
      apply refines_on_cursor; [unfold wf; simpl; lia|]
  | |- refines (match ?x with _ => _ end) (match ?x with _ => _ end) => destruct x
  | |- refines (_parse_source_name _) (_parse_source_name _) => unfold _parse_source_name
  | |- refines _ _ => assumption
  end.

Lemma refines_until_end (kind : list node -> node) (fn1 fn2 : M node) :
  refines fn1 fn2 ->
  forall n m, n <= m ->
  forall nodes,
    refines (_parse_until_end n kind fn1 nodes) (_parse_until_end m kind fn2 nodes).
Proof.
  intros Hfn. induction n as [|n IH]; intros m Hle nodes; [apply refines_out_of_fuel|].
  destruct m as [|m]; [lia|]. cbn [_parse_until_end].
  repeat refines_step. apply IH. lia.
Qed.

Lemma refines_arg_types (fn1 fn2 : M node) :
  refines fn1 fn2 ->
  forall n m, n <= m ->
  forall arg_types,
    refines (parse_arg_types n fn1 arg_types) (parse_arg_types m fn2 arg_types).
Proof.
  intros Hfn. induction n as [|n IH]; intros m Hle nodes; [apply refines_out_of_fuel|].
  destruct m as [|m]; [lia|]. cbn [parse_arg_types].
  repeat refines_step. apply IH. lia.
Qed.

Section Bodies.
Variables n m : nat.
Hypothesis Hle : n <= m.
Variables name1 name2 type1 type2 ep1 ep2 special1 special2 mangled1 mangled2 : M node.
Hypothesis Hname : refines name1 name2.
Hypothesis Htype : refines type1 type2.
Hypothesis Hep : refines ep1 ep2.
Hypothesis Hspecial : refines special1 special2.
Hypothesis Hmangled : refines mangled1 mangled2.

Lemma refines_name_body :
  refines (_parse_name_body n name1 type1) (_parse_name_body m name2 type2).
Proof.
  unfold _parse_name_body.
  repeat first [ refines_step | apply refines_until_end; [assumption | exact Hle] ].
Qed.

Lemma refines_type_body :
  refines (_parse_type_body name1 type1 ep1) (_parse_type_body name2 type2 ep2).
Proof. clear Hle. unfold _parse_type_body. repeat refines_step. Qed.

Lemma refines_expr_primary_body :
  refines (_parse_expr_primary_body type1 mangled1)
          (_parse_expr_primary_body type2 mangled2).
Proof. clear Hle. unfold _parse_expr_primary_body. repeat refines_step. Qed.

Lemma refines_special_body :
  refines (_parse_special_body type1) (_parse_special_body type2).
Proof. clear Hle. unfold _parse_special_body. repeat refines_step. Qed.

Lemma refines_mangled_name_body :
  refines (_parse_mangled_name_body n name1 type1 special1)
          (_parse_mangled_name_body m name2 type2 special2).
Proof.
  unfold _parse_mangled_name_body.
  repeat first [ refines_step | apply refines_arg_types; [assumption | exact Hle] ].
Qed.

End Bodies.

Theorem productions_refine (n : nat) :
  forall m, n <= m ->
    refines (_parse_name n) (_parse_name m) /\
    refines (_parse_type n) (_parse_type m) /\
    refines (_parse_expr_primary n) (_parse_expr_primary m) /\
    refines (_parse_special n) (_parse_special m) /\
    refines (_parse_mangled_name n) (_parse_mangled_name m).
Proof.
  induction n as [|n IH]; intros m Hle.
  - repeat split; apply refines_out_of_fuel.
  - destruct m as [|m]; [lia|].
    destruct (IH m ltac:(lia)) as (Hname & Htype & Hep & Hspecial & Hmangled).
    repeat split.
    + apply (refines_name_body n m); auto; lia.
    + now apply refines_type_body.
    + now apply refines_expr_primary_body.
    + now apply refines_special_body.
    + apply (refines_mangled_name_body n m); auto; lia.
Qed.

End Refinement.

Module Qualifiers.
Import PyStr PyStrFacts CursorFacts ReFacts WpRules Walk WalkUse Refinement Re.

Lemma productions_have_fuel (fuel : nat) :
  let ok := ok (fun _ => True) (fun _ => True) False in
  ok 2 fuel (_parse_name fuel) /\ ok 3 fuel (_parse_type fuel) /\
  ok 2 fuel (_parse_expr_primary fuel) /\ ok 4 fuel (_parse_special fuel) /\
  ok 4 fuel (_parse_mangled_name fuel).
Proof.
  apply productions_ok; auto.
Qed.

Lemma type_has_fuel (fuel : nat) (c : _Cursor) :
  wf c -> 3 * remaining c + 3 <= fuel -> _parse_type fuel c <> NoFuel.
Proof.
  intros Hc Hfuel.
  destruct (productions_have_fuel fuel) as (_ & Htype & _).
  specialize (Htype c Hc Logic.I (or_intror Hfuel)). unfold wp in Htype.
  now destruct (_parse_type fuel c) as [[v c']| |].
Qed.

Lemma agree_result {A : Type} (o1 o2 : outcome (A * _Cursor)) :
  agree o1 o2 -> o1 <> NoFuel -> result_of o1 = result_of o2.
Proof.
  destruct o1 as [[a c1]| |]; simpl.
  - now intros (c2 & -> & _) _.
  - now intros -> _.
  - congruence.
Qed.

(** With enough fuel, the type production gives the same result on any
    two cursors with the same text to read. *)
Lemma type_result_stable (f f' : nat) (c c' : _Cursor) :
  same_text c c' ->
  3 * remaining c + 3 <= f -> 3 * remaining c + 3 <= f' ->
  agree (_parse_type f c) (_parse_type f' c') /\ _parse_type f c <> NoFuel.
Proof.
  intros Hsame Hf Hf'. pose proof Hsame as (Hc & Hc' & Hrest).
  pose proof (same_text_remaining _ _ Hsame) as Hrem.
  pose proof (type_has_fuel f c Hc Hf) as Hnf.
  split; [|assumption].
  destruct (Nat.le_ge_cases f f') as [Hle|Hle].
  - now apply (productions_refine f f' Hle).
  - assert (same_text c' c) as Hsym by (unfold same_text; auto).
    pose proof (proj1 (proj2 (productions_refine f' f Hle)) c' c Hsym) as Hagree.
    pose proof (type_has_fuel f' c' Hc' ltac:(lia)) as Hnf'.
    unfold agree in *.
    destruct (_parse_type f' c') as [[a c1]| |]; [| |congruence].
    + destruct Hagree as (c2 & -> & Hs). exists c1. split; [reflexivity|].
      destruct Hs as (? & ? & ?). unfold same_text; auto.
    + now rewrite Hagree.
Qed.

Lemma in_rVK (q : ascii) :
  in_class "rVK" q = true -> q = "r"%char \/ q = "V"%char \/ q = "K"%char.
Proof.
  unfold in_class; cbn [mem]. rewrite orb_false_r.
  destruct (Ascii.eqb_spec "r" q); [auto|].
  destruct (Ascii.eqb_spec "V" q); [auto|].
  destruct (Ascii.eqb_spec "K" q); [auto|discriminate].
Qed.

Lemma length_copies (n : nat) (q : ascii) : String.length (copies n q) = n.
Proof. induction n; simpl; auto. Qed.

Lemma span_copies (p : ascii -> bool) (q : ascii) (n : nat) (t : string) :
  p q = true -> span p (copies n q ++ t) = copies n q ++ span p t.
Proof.
  intros Hq. induction n as [|n IH]; [reflexivity|].
  cbn [copies]. rewrite !app_cons. cbn [span]. now rewrite Hq, IH.
Qed.

Lemma drop_app_plus (a t : string) (k : nat) :
  drop (String.length a + k) (a ++ t) = drop k t.
Proof. induction a as [|x a IH]; [reflexivity|]. rewrite app_cons. simpl. exact IH. Qed.

Lemma drop_copies (n : nat) (q : ascii) (k : nat) (t : string) :
  drop (n + k) (copies n q ++ t) = drop k t.
Proof. rewrite <- (length_copies n q) at 1. apply drop_app_plus. Qed.

Lemma builtin_not_qualifier (q : ascii) (s : string) :
  in_class "rVK" q = true -> lits builtin_codes grp_builtin_type (String q s) = None.
Proof. intros H. apply in_rVK in H as [->|[->| ->]]; reflexivity. Qed.

Lemma TYPE_RE_qualified (q : ascii) (n : nat) (t : string) :
  in_class "rVK" q = true -> 1 <= n ->
  _TYPE_RE (copies n q ++ t) =
    Some (grp_qualified_type (copies n q ++ span (in_class "rVK") t),
          n + String.length (span (in_class "rVK") t)).
Proof.
  intros Hq Hn. destruct n as [|n]; [lia|].
  unfold _TYPE_RE, alt. cbn [copies]. rewrite app_cons, builtin_not_qualifier by assumption.
  unfold plus. rewrite <- app_cons. change (String q (copies n q)) with (copies (S n) q).
  rewrite span_copies by assumption. cbn [copies]. rewrite app_cons.
  rewrite <- app_cons, length_app. change (String q (copies n q)) with (copies (S n) q).
  now rewrite length_copies.
Qed.

Lemma mem_copies_app (a q : ascii) (n : nat) (t : string) :
  1 <= n -> mem a (copies n q ++ t) = mem a (String q t).
Proof.
  induction n as [|n IH]; [lia|]. intros _. destruct n as [|n]; [reflexivity|].
  change (copies (S (S n)) q) with (String q (copies (S n) q)).
  rewrite app_cons. cbn [mem] in *. rewrite IH by lia.
  now destruct (Ascii.eqb q a).
Qed.

Lemma handle_cv_ext (qs qs' : string) (v : node) :
  (forall a, mem a qs = mem a qs') -> _handle_cv qs v = _handle_cv qs' v.
Proof. intros H. unfold _handle_cv. now rewrite !H. Qed.

Lemma qualified_type_step (fuel : nat) (c : _Cursor) (q : ascii) (n : nat) (t : string) :
  in_class "rVK" q = true -> 1 <= n -> rest c = copies n q ++ t ->
  _parse_type (S fuel) c =
    match _parse_type fuel (skip (n + String.length (span (in_class "rVK") t)) c) with
    | Returns (ty, c') =>
        Returns (if is_None ty then PyNone
                 else _handle_cv (copies n q ++ span (in_class "rVK") t) ty, c')
    | Raises e => Raises e
    | NoFuel => NoFuel
    end.
Proof.
  intros Hq Hn Hrest. cbn [_parse_type]. unfold _parse_type_body.
  unfold bind at 1. unfold cmatch, call, Cursor.cmatch.
  rewrite Hrest, TYPE_RE_qualified by assumption.
  unfold bind.
  destruct (_parse_type fuel _) as [[ty c']| |]; auto.
  now destruct (is_None ty).
Qed.

Lemma mangled_f_step (q : ascii) (X : string) (F : nat) :
  in_class "rVK" q = true ->
  _parse_mangled_name (S (S F)) (mkCursor ("_Z1f" ++ String q X) 0) =
    bind (parse_arg_types (S F) (_parse_type (S F)) []) (finish (Name "f"))
      (mkCursor ("_Z1f" ++ String q X) 4).
Proof.
  intros Hq. apply in_rVK in Hq as [->|[->| ->]]; reflexivity.
Qed.

Lemma type_run (fuel : nat) (c : _Cursor) :
  wf c -> 3 * remaining c + 3 <= fuel ->
  match _parse_type fuel c with
  | Returns (_, c') => advanced c c'
  | Raises _ => True
  | NoFuel => False
  end.
Proof.
  intros Hc Hfuel.
  destruct (productions_have_fuel fuel) as (_ & Htype & _).
  specialize (Htype c Hc Logic.I (or_intror Hfuel)). unfold wp in Htype.
  destruct (_parse_type fuel c) as [[v c']| |]; auto. apply Htype.
Qed.

Lemma arg_types_have_fuel (fuel k : nat) (arg_types : list node) (c : _Cursor) :
  wf c -> remaining c + 1 <= k -> 3 * remaining c + 3 <= fuel ->
  parse_arg_types k (_parse_type fuel) arg_types c <> NoFuel.
Proof.
  intros Hc Hk Hfuel.
  assert (wp (parse_arg_types k (_parse_type fuel) arg_types) c (fun _ _ => True) False)
    as H.
  { eapply wp_mono;
      [apply (ok_arg_types (fun _ => True) (fun _ => True) False); auto|auto].
    intros c' Hadv _.
    destruct (productions_have_fuel fuel) as (_ & Htype & _).
    apply Htype; eauto using advanced_wf. right.
    pose proof (advanced_remaining _ _ Hadv). lia. }
  unfold wp in H.
  now destruct (parse_arg_types k (_parse_type fuel) arg_types c) as [[r c']| |].
Qed.

(** The qualified-type production on [n] copies of a letter and on one. *)
Lemma qualified_type_agree (q : ascii) (n : nat) (t : string) (c1 c2 : _Cursor)
    (f1 f2 : nat) :
  wf c1 -> wf c2 ->
  in_class "rVK" q = true -> 1 <= n ->
  rest c1 = copies n q ++ t -> rest c2 = String q t ->
  3 * remaining c1 + 3 <= f1 -> 3 * remaining c2 + 3 <= f2 ->
  agree (_parse_type f2 c2) (_parse_type f1 c1) /\ _parse_type f2 c2 <> NoFuel.
Proof.
  intros Hc1 Hc2 Hq Hn Hr1 Hr2 Hf1 Hf2.
  change (String q t) with (copies 1 q ++ t) in Hr2.
  destruct f1 as [|f1]; [lia|]. destruct f2 as [|f2]; [lia|].
  rewrite (qualified_type_step f1 c1 q n t), (qualified_type_step f2 c2 q 1 t) by auto.
  set (r0 := span (in_class "rVK") t).
  pose proof (length_span (in_class "rVK") t) as Hr0. fold r0 in Hr0.
  pose proof (length_rest c1) as Hl1. rewrite Hr1, length_app, length_copies in Hl1.
  pose proof (length_rest c2) as Hl2. rewrite Hr2, length_app, length_copies in Hl2.
  assert (same_text (skip (1 + String.length r0) c2) (skip (n + String.length r0) c1)) as Hsame.
  { repeat split; try (apply wf_skip; auto; lia).
    rewrite !rest_skip, Hr1, Hr2. now rewrite !drop_copies. }
  destruct (type_result_stable f2 f1 _ _ Hsame) as [Hagree Hnf];
    try (rewrite remaining_skip; lia).
  destruct (_parse_type f2 _) as [[ty c2']| |]; [| |congruence]; simpl in Hagree.
  - destruct Hagree as (c1' & -> & Hs). split; [|discriminate]. simpl.
    exists c1'. split; [|assumption].
    destruct (is_None ty); [reflexivity|]. do 2 f_equal.
    apply handle_cv_ext. intros a.
    rewrite !mem_copies_app by lia. reflexivity.
  - rewrite Hagree. split; [reflexivity | discriminate].
Qed.

Lemma bind_finish_agree (name : node) (o1 o2 : M (option (list node))) (c1 c2 : _Cursor) :
  agree (o1 c1) (o2 c2) -> o1 c1 <> NoFuel ->
  result_of (bind o1 (finish name) c1) = result_of (bind o2 (finish name) c2).
Proof.
  unfold bind. destruct (o1 c1) as [[r c1']| |]; simpl; [| |congruence].
  - intros (c2' & -> & _) _. now destruct r as [[|x l]|].
  - now intros -> _.
Qed.

(** The same at the level of [parse], for the first argument of a
    function [f]. *)
Lemma parse_f_repeated_qualifier (q : ascii) (n : nat) (t : string) :
  in_class "rVK" q = true -> 1 <= n ->
  parse ("_Z1f" ++ copies n q ++ t) = parse ("_Z1f" ++ String q t).
Proof.
  intros Hq Hn. destruct n as [|n]; [lia|].
  change (copies (S n) q ++ t) with (String q (copies n q ++ t)).
  set (X1 := copies n q ++ t).
  unfold parse.
  assert (forall X, fuel_for ("_Z1f" ++ String q X) = S (S (4 * String.length X + 26))) as Hfuel
      by (intros X; unfold fuel_for; rewrite length_app; simpl; lia).
  rewrite !Hfuel, !mangled_f_step by assumption.
  symmetry. apply bind_finish_agree.
  2: { apply arg_types_have_fuel; unfold wf, remaining; simpl; rewrite ?length_app; simpl; lia. }
  set (F1 := 4 * String.length X1 + 26). set (F2 := 4 * String.length t + 26).
  assert (String.length t <= String.length X1) as Hlen
      by (subst X1; rewrite length_app; lia).
  set (c1 := mkCursor ("_Z1f" ++ String q X1) 4). set (c2 := mkCursor ("_Z1f" ++ String q t) 4).
  assert (wf c1 /\ wf c2 /\ remaining c1 = S (String.length X1)
          /\ remaining c2 = S (String.length t)) as (Hc1 & Hc2 & Hrem1 & Hrem2)
      by (unfold wf, remaining, c1, c2; simpl; rewrite ?length_app; simpl; repeat split; lia).
  destruct (qualified_type_agree q (S n) t c1 c2 (S F1) (S F2)) as [Hagree Hnf];
    auto; try reflexivity; try lia.
  cbn [parse_arg_types]. unfold bind at 1 3. unfold at_end.
  assert (Cursor.at_end c1 = false /\ Cursor.at_end c2 = false) as [-> ->].
  { rewrite !at_end_eq, Hrem1, Hrem2 by assumption. auto. }
  unfold bind at 1 2.
  pose proof (type_run (S F2) c2 Hc2 ltac:(lia)) as Hrun.
  destruct (_parse_type (S F2) c2) as [[ty c2']| |]; [| |congruence]; unfold agree in Hagree.
  - destruct Hagree as (c1' & -> & Hsame).
    destruct (is_None ty); [simpl; eauto|].
    pose proof (advanced_remaining _ _ Hrun) as Hrem.
    apply (refines_arg_types (_parse_type (S F2)) (_parse_type (S F1)));
      [|subst F1 F2; lia|assumption].
    apply (productions_refine (S F2) (S F1)). subst F1 F2; lia.
  - now rewrite Hagree.
Qed.

(** What [_handle_cv] builds for a run of qualifier letters that starts
    with [q]: a [cv_qual] whose set holds the word of [q], and only that
    word when the run is [q] alone. *)
Lemma handle_cv_word (q : ascii) (run : string) :
  in_class "rVK" q = true ->
  exists qual : gset string,
    qualifier_word q ∈ qual /\
    (run = "" -> qual = {[qualifier_word q]}) /\
    forall ty, _handle_cv (String q run) ty = CvQual ty qual.
Proof.
  intros Hq. unfold _handle_cv.
  match goal with
  | |- context [decide (?set = ∅)] => exists set
  end.
  apply in_rVK in Hq as [->|[->| ->]]; cbn [mem Ascii.eqb Bool.eqb orb qualifier_word].
  all: split; [|split].
  all: try (intros ->; cbn [mem]; apply leibniz_equiv; set_solver).
  all: try (intros ty; destruct (decide _) as [He|_]; [|reflexivity]; exfalso; revert He;
            repeat match goal with |- context [if ?b then _ else _] => destruct b end;
            set_solver).
  all: repeat match goal with |- context [if ?b then _ else _] => destruct b end; set_solver.
Qed.

End Qualifiers.

(** ** Template parameters *)

Module TemplateParam.
Import PyStr PyStrFacts CursorFacts Re.

Lemma base36_digit_plain (a : ascii) :
  is_base36_digit a = true ->
  Py.is_space a = false /\ a <> "+"%char /\ a <> "-"%char /\ Ascii.eqb a "_" = false /\
  exists d, base36_digit a = Some d /\ Py.digit_value a = Some d /\ (d <? 36)%Z = true.
Proof.
  destruct a as [[] [] [] [] [] [] [] []]; try discriminate; intros _;
    repeat split; try discriminate; eexists; repeat split; reflexivity.
Qed.

Lemma rstrip_digits (s : string) : all_chars is_base36_digit s = true -> Py.rstrip s = s.
Proof.
  induction s as [|a s IH]; [reflexivity|]. cbn [all_chars Py.rstrip].
  intros H. apply andb_prop in H as [Ha Hs]. rewrite (IH Hs).
  apply base36_digit_plain in Ha as (-> & _). now rewrite andb_false_r.
Qed.

Lemma lstrip_digits (s : string) : all_chars is_base36_digit s = true -> Py.lstrip s = s.
Proof.
  destruct s as [|a s]; [reflexivity|]. cbn [all_chars Py.lstrip].
  intros H. apply andb_prop in H as [Ha _].
  now apply base36_digit_plain in Ha as (-> & _).
Qed.

Lemma digits_value_base36 (s : string) (acc : Z) :
  all_chars is_base36_digit s = true ->
  Py.digits_value 36 acc s = Some (base36_acc acc s).
Proof.
  revert acc; induction s as [|a s IH]; intros acc; [reflexivity|].
  cbn [all_chars Py.digits_value base36_acc].
  intros H. apply andb_prop in H as [Ha Hs].
  apply base36_digit_plain in Ha as (_ & _ & _ & _ & d & -> & -> & ->). now apply IH.
Qed.

(** On a run of base-36 digits [int(s, 36)] is the number they spell. *)
Lemma int_base36 (s : string) :
  s <> "" -> all_chars is_base36_digit s = true ->
  Py.int (Some s) 36 = Returns (base36_value s).
Proof.
  intros Hne H. unfold Py.int. rewrite (lstrip_digits _ H), (rstrip_digits _ H).
  destruct s as [|a s]; [congruence|].
  pose proof H as H'. cbn [all_chars] in H'. apply andb_prop in H' as [Ha _].
  apply base36_digit_plain in Ha as (_ & Hplus & Hminus & _).
  assert (match String a s with
          | String "+" r => (1%Z, r)
          | String "-" r => ((-1)%Z, r)
          | _ => (1%Z, String a s)
          end = (1%Z, String a s)) as ->.
  { destruct a as [[] [] [] [] [] [] [] []]; try reflexivity; congruence. }
  rewrite (digits_value_base36 _ _ H). unfold base36_value.
  f_equal. lia.
Qed.

Lemma mem_underscore (s : string) :
  all_chars is_base36_digit s = true -> mem "_" s = false.
Proof.
  induction s as [|a s IH]; [reflexivity|]. cbn [all_chars mem].
  intros H. apply andb_prop in H as [Ha Hs]. rewrite (IH Hs).
  now apply base36_digit_plain in Ha as (_ & _ & _ & -> & _).
Qed.

Lemma prefix_nil (s : string) : String.prefix "" s = true.
Proof. now destruct s. Qed.

Lemma TYPE_RE_template_param (s : string) :
  _TYPE_RE (String "T" s) = Some (grp_template_param, 1).
Proof.
  unfold _TYPE_RE, alt.
  assert (lits builtin_codes grp_builtin_type (String "T" s) = None) as -> by reflexivity.
  assert (plus (in_class "rVK") grp_qualified_type (String "T" s) = None) as ->
      by reflexivity.
  unfold lit. cbn [String.prefix].
  destruct (ascii_dec "T" "T"); [|congruence]. now rewrite prefix_nil.
Qed.

End TemplateParam.

(** ** Printing and the mangled-name loop *)

Module Printing.

Lemma set_iter_singleton (set_iter : gset string -> list string) (x : string) :
  set_iteration set_iter -> set_iter {[x]} = [x].
Proof.
  intros H. specialize (H {[x]}). rewrite elements_singleton in H.
  now apply Permutation_singleton_r in H.
Qed.

End Printing.

Module Shapes.
Import WalkUse.

Lemma plain_qual_name (n : node) : plain n -> qual_name_nonempty n = true.
Proof. destruct n as [| |[|x l]| | | | | | | | | | | | | | |]; simpl; auto. Qed.

Lemma plain_function (n : node) : plain n -> function_has_args n = true.
Proof. destruct n as [| | | | | | | | | |name [|x l]| | | | | | |]; simpl; auto. Qed.

Lemma plain_cv_qual (n : node) : plain n -> cv_qual_nonempty n = true.
Proof.
  destruct n; simpl; auto. intros H. now rewrite bool_decide_eq_false_2.
Qed.

(** The loop of the mangled-name production gathers what [consumed]
    describes. *)
Lemma arg_types_consumed (fn : M node) (c c' : _Cursor) (args : list node) :
  consumed fn c args c' -> Cursor.at_end c' = true ->
  forall fuel arg_types,
    length args < fuel ->
    parse_arg_types fuel fn arg_types c = Returns (Some (arg_types ++ args)%list, c').
Proof.
  induction 1 as [c|c c1 c' ty tys Hend Hfn Hty Hrest IH]; intros Hend' fuel acc Hlen;
    (destruct fuel as [|fuel]; [simpl in Hlen; lia|]);
    cbn [parse_arg_types]; unfold bind, at_end.
  - rewrite Hend'. unfold ret. now rewrite app_nil_r.
  - rewrite Hend, Hfn, Hty. rewrite IH by (simpl in Hlen; auto; lia).
    now rewrite <- app_assoc.
Qed.

End Shapes.

(** * The claims *)

Import PyStr PyStrFacts CursorFacts ReFacts WpRules Walk WalkUse Refinement Re Qualifiers
  Checked TemplateParam Printing Shapes.

(** The tests of the repository, as [(mangled, demangled)] pairs, pass in
    the embedding. *)
Example tests_pass :
  map (fun t => demangle elements (fst t)) tests = map (fun t => Returns (snd t)) tests.
Proof. vm_compute. reflexivity. Qed.

(** Claim C1 (the code departs from it).  [parse] is to return a node or
    the failure value on every input and never to raise.  On a
    template-parameter marker with no [_] after it, and on a nested
    mangled-name literal with no [E] after it, the code calls [int] and
    [match] on [None]: [parse] raises [TypeError]. *)
Theorem unterminated_marker_raises :
  parse "_Z1fT" = Raises TypeError /\ parse "_Z1fL_Z1g" = Raises TypeError.
Proof. split; vm_compute; reflexivity. Qed.

(** Claim C2.  Each scenario of the specification prints as listed,
    whatever order the interpreter iterates sets in; [_Z3x] and [_ZSt]
    give the failure value. *)
Theorem scenarios_print (set_iter : gset string -> list string) :
  set_iteration set_iter ->
  demangle set_iter "_Z3foo" = Returns (Some "foo") /\
  demangle set_iter "_ZN3fooC1E" = Returns (Some "foo::{ctor}") /\
  demangle set_iter "_ZSs" = Returns (Some "std::string") /\
  demangle set_iter "_Z3fooIcE" = Returns (Some "foo<char>") /\
  demangle set_iter "_Z1fv" = Returns (Some "f()") /\
  demangle set_iter "_Z1fPi" = Returns (Some "f(int*)") /\
  demangle set_iter "_Z1fRKi" = Returns (Some "f(int const&)") /\
  demangle set_iter "_Z1fILi1EE" = Returns (Some "f<(int)1>") /\
  demangle set_iter "_ZTV1f" = Returns (Some "vtable for f") /\
  demangle set_iter "_Z3x" = Returns None /\
  demangle set_iter "_ZSt" = Returns None.
Proof.
  intros Hiter.
  assert (parse "_Z1fRKi" =
            Returns (Function (Name "f") [LValue (CvQual (Name "int") {["const"]})])) as Hp
      by (vm_compute; reflexivity).
  repeat split; try (vm_compute; reflexivity).
  unfold demangle. rewrite Hp. cbn [str obind is_void_args].
  rewrite (set_iter_singleton _ _ Hiter). reflexivity.
Qed.

Lemma scenarios_print_witness :
  set_iteration elements /\
  demangle elements "_Z1fRKi" = Returns (Some "f(int const&)").
Proof.
  split; [intros s; reflexivity|].
  apply (scenarios_print elements). intros s; reflexivity.
Defined.

(** Claim C3 (the code departs from it).  A failure is to reach the top
    unchanged.  In the code two callers go on after a failure: the
    mangled-name production treats a special name whose type failed like
    one whose tag did not match, and parses a name from where the type
    stopped; the nested-name branch wraps the failure of its list of
    names in the qualifiers before it tests for failure. *)
Theorem failure_is_not_propagated :
  (result_of (_parse_special 20 (mkCursor "_ZTV3Ss" 2)) = Returns PyNone /\
   parse "_ZTV3Ss" = Returns (QualName [Name "std"; Name "string"])) /\
  (result_of (_parse_until_end 20 QualName (_parse_name 20) [] (mkCursor "_ZNK3foo" 4))
     = Returns PyNone /\
   parse "_ZNK3foo" = Returns (CvQual PyNone {["const"]})).
Proof. repeat split; vm_compute; reflexivity. Qed.

(** Claim C4, as it stands: the node would carry the base-36 value of
    the text before [_].  It does not: for the text [0] the value is 0 and
    the node carries 1. *)
Lemma tpl_param_is_not_the_base36_value :
  ~ (forall (fuel : nat) (c : _Cursor) (seq_id tail : string) (v : Z),
        rest c = String "T" (seq_id ++ String "_" tail) ->
        seq_id <> "" ->
        Py.int (Some seq_id) 36 = Returns v ->
        result_of (_parse_type (S fuel) c) = Returns (TplParam v)).
Proof.
  intros H.
  specialize (H 0 (mkCursor "_Z1fT0_" 4) "0" "" 0%Z eq_refl ltac:(discriminate) eq_refl).
  vm_compute in H. discriminate.
Qed.

(** Claim C4, amended.  At a template-parameter marker followed by
    base-36 digits and [_], the type production gives a [tpl_param] with
    index 0 when there are no digits and one more than the number the
    digits spell when there are some, and leaves the cursor after the
    [_]. *)
Theorem template_param_index (fuel : nat) (c : _Cursor) (seq_id tail : string) :
  rest c = String "T" (seq_id ++ String "_" tail) ->
  all_chars is_base36_digit seq_id = true ->
  _parse_type (S fuel) c =
    Returns (TplParam (if String.eqb seq_id "" then 0 else 1 + base36_value seq_id),
             skip (String.length seq_id + 2) c).
Proof.
  intros Hrest Hdigits. cbn [_parse_type]. unfold _parse_type_body.
  unfold bind at 1. unfold cmatch, call, Cursor.cmatch.
  rewrite Hrest, TYPE_RE_template_param.
  unfold bind at 1. unfold advance_until, call.
  fold (skip 1 c). rewrite advance_until_eq, rest_skip, Hrest. cbn [drop].
  rewrite (find_app _ _ _ (mem_underscore _ Hdigits)), take_app.
  assert (skip (String.length seq_id + 1) (skip 1 c) = skip (String.length seq_id + 2) c) as ->
      by (unfold skip; simpl; f_equal; lia).
  destruct seq_id as [|a s]; [reflexivity|].
  unfold bind, eval. rewrite int_base36 by (auto; discriminate). reflexivity.
Qed.

Lemma template_param_index_witness :
  (rest (mkCursor "_Z1fT1z_i" 4) = String "T" ("1z" ++ String "_" "i") /\
   all_chars is_base36_digit "1z" = true) /\
  _parse_type 1 (mkCursor "_Z1fT1z_i" 4) =
    Returns (TplParam 72, mkCursor "_Z1fT1z_i" 8).
Proof.
  split; [split; reflexivity|].
  apply (template_param_index 0 (mkCursor "_Z1fT1z_i" 4) "1z" "i"); reflexivity.
Defined.

(** Claim C5, as it stands: a [cv_qual] would print its qualifiers in the
    order const, volatile, restrict.  The printer iterates over the set,
    and an iteration that gives volatile before const prints them so. *)
Lemma cv_qual_print_order_is_not_fixed :
  ~ (forall set_iter : gset string -> list string,
        set_iteration set_iter ->
        forall (value : node) (qual : gset string) (s : string),
          str set_iter value = Returns s ->
          str set_iter (CvQual value qual)
            = Returns (PyStr.join " " (s :: canonical_order qual))).
Proof.
  intros H.
  specialize (H (fun s => reverse (elements s))
                (fun s => reverse_Permutation (elements s))
                (Name "int") ({["const"]} ∪ {["volatile"]}) "int" eq_refl).
  vm_compute in H. discriminate.
Qed.

(** Claim C5, amended.  A [cv_qual] prints as the print of its value
    followed by the words of its qualifier set, each once, separated by
    spaces, in the order the iteration over the set gives them; with one
    qualifier that is the value, a space and the word.  The node built
    for a run of qualifier letters depends on which letters occur in the
    run, not on their order or number. *)
Theorem cv_qual_print (set_iter : gset string -> list string) :
  set_iteration set_iter ->
  (forall (value : node) (qual : gset string) (s : string),
      str set_iter value = Returns s ->
      exists words,
        words ≡ₚ elements qual /\
        str set_iter (CvQual value qual) = Returns (PyStr.join " " (s :: words))) /\
  (forall (value : node) (word s : string),
      str set_iter value = Returns s ->
      str set_iter (CvQual value {[word]}) = Returns (s ++ " " ++ word)) /\
  (forall (qualifiers qualifiers' : string) (n : node),
      (forall letter, PyStr.mem letter qualifiers = PyStr.mem letter qualifiers') ->
      _handle_cv qualifiers n = _handle_cv qualifiers' n).
Proof.
  intros Hiter. repeat split.
  - intros value qual s Hs. exists (set_iter qual). split; [apply Hiter|].
    cbn [str]. now rewrite Hs.
  - intros value word s Hs. cbn [str]. rewrite Hs. cbn [obind].
    now rewrite (set_iter_singleton _ _ Hiter).
  - intros qualifiers qualifiers' n H. now apply handle_cv_ext.
Qed.

Lemma cv_qual_print_witness :
  set_iteration elements /\
  str elements (CvQual (Name "int") {["volatile"]}) = Returns "int volatile" /\
  _handle_cv "VK" (Name "int") = _handle_cv "KVK" (Name "int").
Proof.
  assert (set_iteration elements) as Hiter by (intros s; reflexivity).
  split; [exact Hiter|]. split.
  - apply (proj1 (proj2 (cv_qual_print elements Hiter)) (Name "int") "volatile" "int").
    reflexivity.
  - apply (proj2 (proj2 (cv_qual_print elements Hiter))).
    intros letter. cbn [PyStr.mem].
    destruct (Ascii.eqb "V" letter), (Ascii.eqb "K" letter); reflexivity.
Defined.

(** Claim C6, as it stands: no [qual_name] in a parsed tree would be
    empty.  A nested name with nothing between its introducer and its end
    marker gives one. *)
Lemma empty_nested_name_gives_empty_qual_name :
  ~ (forall raw : string,
        returned (fun v => all_nodes qual_name_nonempty v = true) (parse raw)).
Proof.
  intros H. specialize (H "_ZNE"). vm_compute in H. discriminate.
Qed.

(** Claim C6, amended.  When parsing the input starts no name production
    on a nested-name introducer ([N], qualifier letters, at most one
    reference letter) with the end marker [E] right after it, the parse
    is the one that asserts so ([checked_parse]), it returns or raises,
    and no [qual_name] in a tree it returns is empty.  On such an
    introducer the name production builds the empty [qual_name]: it
    returns it under its qualifiers, unless template arguments follow. *)
Theorem qual_name_nonempty_without_empty_nested :
  (forall raw : string,
      reaches_empty_nested raw = false ->
      checked_parse raw = parse raw /\
      returned (fun v => all_nodes qual_name_nonempty v = true) (parse raw)) /\
  (forall (fuel : nat) (c : _Cursor) (cv ref : string) (k : nat),
      re_nested_name (rest c) = Some (grp_nested_name cv ref, k) ->
      String.prefix "E" (PyStr.drop k (rest c)) = true ->
      String.prefix "I" (PyStr.drop (k + 1) (rest c)) = false ->
      _parse_name (S (S fuel)) c =
        Returns (_handle_indirect ref (_handle_cv cv (QualName [])), skip (k + 1) c)).
Proof.
  split.
  - intros raw Hraw. pose proof (checked_parse_upto raw Hraw) as Heq.
    split; [exact Heq|]. rewrite <- Heq.
    apply (checked_tree_invariant (fun _ => True) qual_name_nonempty); auto.
    exact plain_qual_name.
  - intros fuel c cv ref k Hm HE HI. now apply empty_nested_name.
Qed.

Lemma qual_name_nonempty_without_empty_nested_witness :
  (reaches_empty_nested "_ZN4LINE3fooE" = false /\
   returned (fun v => all_nodes qual_name_nonempty v = true) (parse "_ZN4LINE3fooE")) /\
  _parse_name 2 (mkCursor "_ZNKRE" 2) =
    Returns (LValue (CvQual (QualName []) ({["const"]} ∪ ∅)), mkCursor "_ZNKRE" 6).
Proof.
  split.
  - split; [reflexivity|].
    apply (proj1 qual_name_nonempty_without_empty_nested "_ZN4LINE3fooE"). reflexivity.
  - apply (proj2 qual_name_nonempty_without_empty_nested 0 (mkCursor "_ZNKRE" 2) "K" "R" 3);
      reflexivity.
Defined.

(** Claim C7.  In the mangled-name production, once the special-name
    production has given [None] and the name production a name, the types
    consumed up to the end of the text decide the result: none, and it is
    the name itself; one or more, and it is a [function] of the name and
    of those types in the order they were consumed.  And in any tree
    [parse] returns, every [function] has at least one argument. *)
Theorem mangled_name_result :
  (forall (fuel : nat) (c c1 c2 c3 c4 : _Cursor) (name : node) (args : list node),
      Cursor.cmatch _MANGLED_NAME_RE c = (Some tt, c1) ->
      _parse_special fuel c1 = Returns (PyNone, c2) ->
      _parse_name fuel c2 = Returns (name, c3) ->
      is_None name = false ->
      consumed (_parse_type fuel) c3 args c4 ->
      Cursor.at_end c4 = true ->
      length args < fuel ->
      _parse_mangled_name (S fuel) c =
        Returns (match args with
                 | [] => name
                 | _ => Function name args
                 end, c4)) /\
  (forall raw : string,
      returned (fun v => all_nodes function_has_args v = true) (parse raw)).
Proof.
  split.
  - intros fuel c c1 c2 c3 c4 name args Hm Hsp Hname Hnone Hargs Hend Hlen.
    cbn [_parse_mangled_name]. unfold _parse_mangled_name_body.
    unfold bind at 1. unfold cmatch, call. rewrite Hm.
    unfold bind at 1. rewrite Hsp. cbn [is_None negb].
    unfold bind at 1. rewrite Hname, Hnone.
    unfold bind. rewrite (arg_types_consumed _ _ _ _ Hargs Hend fuel [] Hlen).
    cbn [app]. now destruct args.
  - intros raw. apply (tree_invariant (fun _ => True) function_has_args); auto.
    exact plain_function.
Qed.

Lemma mangled_name_result_witness :
  _parse_mangled_name 21 (mkCursor "_Z1fPic" 0) =
    Returns (Function (Name "f") [Pointer (Name "int"); Name "char"], mkCursor "_Z1fPic" 7) /\
  _parse_mangled_name 21 (mkCursor "_Z3foo" 0) = Returns (Name "foo", mkCursor "_Z3foo" 6).
Proof.
  split.
  - apply (proj1 mangled_name_result 20 (mkCursor "_Z1fPic" 0) (mkCursor "_Z1fPic" 2)
             (mkCursor "_Z1fPic" 2) (mkCursor "_Z1fPic" 4) (mkCursor "_Z1fPic" 7)
             (Name "f") [Pointer (Name "int"); Name "char"]);
      try reflexivity.
    + apply (consumed_cons _ _ (mkCursor "_Z1fPic" 6)); try reflexivity.
      apply (consumed_cons _ _ (mkCursor "_Z1fPic" 7)); try reflexivity.
      apply consumed_nil.
    + simpl. lia.
  - apply (proj1 mangled_name_result 20 (mkCursor "_Z3foo" 0) (mkCursor "_Z3foo" 2)
             (mkCursor "_Z3foo" 2) (mkCursor "_Z3foo" 6) (mkCursor "_Z3foo" 6)
             (Name "foo") []);
      try reflexivity.
    + apply consumed_nil.
    + simpl. lia.
Defined.

(** Claim C8.  In a qualified-type production, [n] copies of a qualifier
    letter before a text [t] give the same result as one copy before [t]:
    the same node when the type that follows parses, the same failure or
    exception when it does not.  So a function whose first argument is
    written with the letter repeated, as in [_Z1fVVVi], parses to the
    tree of the one written with a single letter, [_Z1fVi].  The node is
    a [cv_qual] of the type read after the run of qualifier letters; its
    qualifier set holds the word of the letter and is the same for every
    [n], and it is that one word when [t] starts with no further
    qualifier letter. *)
Theorem repeated_qualifier_collapses :
  (forall (q : ascii) (n : nat) (t : string) (c1 c2 : _Cursor) (fuel1 fuel2 : nat),
      wf c1 -> wf c2 ->
      in_class "rVK" q = true -> 1 <= n ->
      rest c1 = copies n q ++ t -> rest c2 = String q t ->
      fuel_at c1 <= fuel1 -> fuel_at c2 <= fuel2 ->
      result_of (_parse_type fuel1 c1) = result_of (_parse_type fuel2 c2) /\
      result_of (_parse_type fuel2 c2) <> NoFuel) /\
  (forall (q : ascii) (n : nat) (t : string),
      in_class "rVK" q = true -> 1 <= n ->
      parse ("_Z1f" ++ copies n q ++ t) = parse ("_Z1f" ++ String q t)) /\
  (forall (q : ascii) (t : string),
      in_class "rVK" q = true ->
      exists qual : gset string,
        qualifier_word q ∈ qual /\
        (PyStr.span (in_class "rVK") t = "" -> qual = {[qualifier_word q]}) /\
        forall (n fuel : nat) (c c' : _Cursor) (ty : node),
          1 <= n -> rest c = copies n q ++ t ->
          _parse_type fuel
            (skip (n + String.length (PyStr.span (in_class "rVK") t)) c) = Returns (ty, c') ->
          is_None ty = false ->
          _parse_type (S fuel) c = Returns (CvQual ty qual, c')).
Proof.
  split; [|split; [exact parse_f_repeated_qualifier|]].
  - intros q n t c1 c2 fuel1 fuel2 Hc1 Hc2 Hq Hn Hr1 Hr2 Hf1 Hf2.
    destruct (qualified_type_agree q n t c1 c2 fuel1 fuel2) as [Hagree Hnf]; auto.
    split.
    + symmetry. now apply agree_result.
    + destruct (_parse_type fuel2 c2) as [[v c]| |]; simpl; congruence.
  - intros q t Hq.
    destruct (handle_cv_word q (PyStr.span (in_class "rVK") t) Hq)
      as (qual & Hin & Hone & Hcv).
    exists qual. split; [assumption|]. split; [assumption|].
    intros n fuel c c' ty Hn Hrest Hty Hnone.
    rewrite (qualified_type_step fuel c q n t Hq Hn Hrest), Hty, Hnone.
    rewrite <- Hcv. do 2 f_equal. apply handle_cv_ext. intros a.
    now apply mem_copies_app.
Qed.

Lemma repeated_qualifier_collapses_witness :
  (result_of (_parse_type 15 (mkCursor "_Z1fVVVi" 4))
     = result_of (_parse_type 9 (mkCursor "_Z1fVi" 4)) /\
   result_of (_parse_type 9 (mkCursor "_Z1fVi" 4)) <> NoFuel) /\
  parse "_Z1fVVVi" = parse "_Z1fVi" /\
  _parse_type 15 (mkCursor "_Z1fVVVi" 4) =
    Returns (CvQual (Name "int") {["volatile"]}, mkCursor "_Z1fVVVi" 8).
Proof.
  split; [|split].
  - apply (proj1 repeated_qualifier_collapses "V"%char 3 "i"
             (mkCursor "_Z1fVVVi" 4) (mkCursor "_Z1fVi" 4) 15 9);
      try reflexivity; unfold wf, fuel_at, remaining; simpl; lia.
  - apply (proj1 (proj2 repeated_qualifier_collapses) "V"%char 3 "i"); [reflexivity | lia].
  - destruct (proj2 (proj2 repeated_qualifier_collapses) "V"%char "i" eq_refl)
      as (qual & _ & Hone & Hrun).
    rewrite (Hone eq_refl) in Hrun.
    apply (Hrun 3 14 (mkCursor "_Z1fVVVi" 4)); try reflexivity. lia.
Defined.

(** Claim C9 (the code departs from it).  A source name that declares
    more characters than remain is to make the parse fail.  The
    source-name production does fail, and no shortened name is built;
    but when it fails inside a special name the mangled-name production
    goes on (the defect of claim C3), and [parse] returns a tree. *)
Theorem short_source_name_is_not_fatal :
  _parse_source_name "9" (mkCursor "_ZTV9nw" 5) = Returns (PyNone, mkCursor "_ZTV9nw" 5) /\
  parse "_ZTV9nw" = Returns (Operator "new").
Proof. split; vm_compute; reflexivity. Qed.

(** Claim C10.  In any tree [parse] returns, every [cv_qual] has at least
    one qualifier; and a run of letters with none of [r], [V], [K] leaves
    the node as it is. *)
Theorem cv_qual_is_never_empty :
  (forall raw : string,
      returned (fun v => all_nodes cv_qual_nonempty v = true) (parse raw)) /\
  (forall (qualifiers : string) (n : node),
      PyStr.mem "r" qualifiers = false ->
      PyStr.mem "V" qualifiers = false ->
      PyStr.mem "K" qualifiers = false ->
      _handle_cv qualifiers n = n).
Proof.
  split.
  - intros raw. apply (tree_invariant (fun _ => True) cv_qual_nonempty); auto.
    exact plain_cv_qual.
  - intros qualifiers n Hr HV HK. unfold _handle_cv. rewrite Hr, HV, HK.
    now destruct (decide _).
Qed.

Lemma cv_qual_is_never_empty_witness :
  (PyStr.mem "r" "" = false /\ PyStr.mem "V" "" = false /\ PyStr.mem "K" "" = false) /\
  _handle_cv "" (QualName [Name "foo"]) = QualName [Name "foo"].
Proof.
  split; [repeat split|].
  apply (proj2 cv_qual_is_never_empty); reflexivity.
Defined.

(** * Beyond the claims

    Further properties of the code, each read off the source: the cursor
    methods, what every production does on every input, the lookups in
    the static tables, mangled names built from their parts and parsed
    back, productions that call one another, and the printers on what
    was parsed. *)

(** ** The cursor *)

Module CursorMethods.

Lemma find_split (d : ascii) (s : string) (k : nat) :
  find d s = Some k ->
  s = take k s ++ String d (drop (k + 1) s) /\ mem d (take k s) = false.
Proof.
  revert k. induction s as [|a s IH]; intros k; simpl; [discriminate|].
  destruct (Ascii.eqb_spec a d) as [->|Hne].
  - intros [= <-]. simpl. rewrite app_nil. auto.
  - destruct (find d s) as [j|]; [|discriminate]. intros [= <-].
    destruct (IH j eq_refl) as [Hs Hm]. simpl. rewrite app_cons.
    split; [now rewrite <- Hs|].
    rewrite Hm. destruct (Ascii.eqb_spec a d); [contradiction | reflexivity].
Qed.

Lemma find_none (d : ascii) (s : string) : find d s = None -> mem d s = false.
Proof.
  induction s as [|a s IH]; simpl; [reflexivity|].
  destruct (Ascii.eqb a d); [discriminate|].
  destruct (find d s); [discriminate | auto].
Qed.

End CursorMethods.
Import CursorMethods.

(** Property X1.  [accept] answers [True] exactly when the text at the
    position starts with the delimiter; it then moves the position over
    the delimiter and over nothing else.  Otherwise it leaves the cursor
    as it was. *)
Theorem accept_reads_the_delimiter (delim : string) (c : _Cursor) :
  match Cursor.accept delim c with
  | (true, c') =>
      rest c = delim ++ rest c' /\ _raw c' = _raw c /\
      _pos c' = _pos c + String.length delim
  | (false, c') => c' = c /\ String.prefix delim (rest c) = false
  end.
Proof.
  rewrite accept_eq. destruct (String.prefix delim (rest c)) eqn:H; [|auto].
  rewrite rest_skip. split; [now apply prefix_app | auto].
Qed.

(** Property X2.  On a cursor inside its text, [advance] gives the next
    [amount] characters and moves over them, so that the text given and
    the text left make up the text there was; when fewer than [amount]
    characters remain it gives [None] and leaves the cursor as it was. *)
Theorem advance_splits_the_text (amount : nat) (c : _Cursor) :
  wf c ->
  match Cursor.advance amount c with
  | (Some text, c') =>
      String.length text = amount /\ rest c = text ++ rest c' /\
      _raw c' = _raw c /\ _pos c' = _pos c + amount
  | (None, c') => c' = c /\ remaining c < amount
  end.
Proof.
  intros Hc. rewrite advance_eq by assumption.
  destruct (Nat.ltb_spec (remaining c) amount) as [Hlt|Hge]; [auto|].
  rewrite rest_skip, take_drop, length_take, length_rest.
  repeat split; lia.
Qed.

Lemma advance_splits_the_text_witness :
  wf (mkCursor "_Z3foo" 3) /\
  match Cursor.advance 3 (mkCursor "_Z3foo" 3) with
  | (Some text, c') =>
      String.length text = 3 /\ rest (mkCursor "_Z3foo" 3) = text ++ rest c' /\
      _raw c' = "_Z3foo" /\ _pos c' = 3 + 3
  | (None, c') => c' = mkCursor "_Z3foo" 3 /\ remaining (mkCursor "_Z3foo" 3) < 3
  end.
Proof.
  assert (wf (mkCursor "_Z3foo" 3)) as H by (unfold wf; simpl; lia).
  split; [exact H | exact (advance_splits_the_text 3 (mkCursor "_Z3foo" 3) H)].
Defined.

(** Property X3.  [advance_until] gives the text up to the first
    occurrence of the delimiter, which is not part of it, and moves past
    that occurrence; when the delimiter does not occur in the text left
    it gives [None] and leaves the cursor as it was. *)
Theorem advance_until_splits_at_the_first_delimiter (delim : ascii) (c : _Cursor) :
  match Cursor.advance_until delim c with
  | (Some text, c') =>
      rest c = text ++ String delim (rest c') /\ mem delim text = false /\
      _raw c' = _raw c /\ _pos c' = _pos c + String.length text + 1
  | (None, c') => c' = c /\ mem delim (rest c) = false
  end.
Proof.
  rewrite advance_until_eq. destruct (find delim (rest c)) as [k|] eqn:H.
  - pose proof (find_lt _ _ _ H) as Hlt.
    destruct (find_split _ _ _ H) as [Hs Hm].
    rewrite rest_skip, length_take. repeat split; auto. simpl. lia.
  - auto using find_none.
Qed.

(** Property X4.  No method moves a cursor backwards, out of its text or
    onto another text: from a position inside the text, [accept],
    [advance], [advance_until] and [match] on each of the five patterns
    leave a position that is not smaller and still inside the same
    text. *)
Theorem cursor_methods_stay_inside (c : _Cursor) :
  wf c ->
  (forall delim, advanced c (snd (Cursor.accept delim c))) /\
  (forall amount, advanced c (snd (Cursor.advance amount c))) /\
  (forall delim, advanced c (snd (Cursor.advance_until delim c))) /\
  advanced c (snd (Cursor.cmatch _NAME_RE c)) /\
  advanced c (snd (Cursor.cmatch _TYPE_RE c)) /\
  advanced c (snd (Cursor.cmatch _EXPR_PRIMARY_RE c)) /\
  advanced c (snd (Cursor.cmatch _SPECIAL_RE c)) /\
  advanced c (snd (Cursor.cmatch _MANGLED_NAME_RE c)).
Proof.
  intros Hc.
  assert (forall G (re : Cursor.pattern G), sound re ->
            advanced c (snd (Cursor.cmatch re c))) as Hmatch.
  { intros G re Hre. unfold Cursor.cmatch.
    destruct (re (rest c)) as [[g k]|] eqn:Hm; simpl; [|now apply advanced_refl].
    apply Hre in Hm. rewrite length_rest in Hm. now apply (advanced_skip k c). }
  split; [|split; [|split]].
  - intros delim. rewrite accept_eq.
    destruct (String.prefix delim (rest c)) eqn:H; simpl; [|now apply advanced_refl].
    apply prefix_length in H. rewrite length_rest in H. now apply advanced_skip.
  - intros amount. rewrite advance_eq by assumption.
    destruct (Nat.ltb_spec (remaining c) amount); simpl;
      [now apply advanced_refl | now apply advanced_skip].
  - intros delim. rewrite advance_until_eq.
    destruct (find delim (rest c)) as [k|] eqn:H; simpl; [|now apply advanced_refl].
    apply find_lt in H. rewrite length_rest in H. apply advanced_skip; [lia | assumption].
  - repeat split; apply Hmatch;
      auto using sound_NAME_RE, sound_TYPE_RE, sound_EXPR_PRIMARY_RE, sound_SPECIAL_RE,
        sound_MANGLED_NAME_RE.
Qed.

Lemma cursor_methods_stay_inside_witness :
  wf (mkCursor "_Z1fKi" 4) /\
  advanced (mkCursor "_Z1fKi" 4) (snd (Cursor.cmatch _TYPE_RE (mkCursor "_Z1fKi" 4))).
Proof.
  assert (wf (mkCursor "_Z1fKi" 4)) as H by (unfold wf; simpl; lia).
  split; [exact H|].
  exact (proj1 (proj2 (proj2 (proj2 (proj2
           (cursor_methods_stay_inside (mkCursor "_Z1fKi" 4) H)))))).
Defined.

(** Property X5.  On a cursor inside its text, [at_end] holds exactly
    when no text is left to read. *)
Theorem at_end_when_nothing_is_left (c : _Cursor) :
  wf c -> (Cursor.at_end c = true <-> rest c = "").
Proof.
  intros Hc. rewrite at_end_eq by assumption. rewrite Nat.eqb_eq, <- length_rest.
  destruct (rest c); simpl; split; congruence.
Qed.

Lemma at_end_when_nothing_is_left_witness :
  wf (mkCursor "_Z3foo" 6) /\
  (Cursor.at_end (mkCursor "_Z3foo" 6) = true <-> rest (mkCursor "_Z3foo" 6) = "").
Proof.
  assert (wf (mkCursor "_Z3foo" 6)) as H by (unfold wf; simpl; lia).
  split; [exact H | exact (at_end_when_nothing_is_left (mkCursor "_Z3foo" 6) H)].
Defined.

(** ** Every production, on every input *)

Module Runs.

Lemma productions_run (fuel : nat) :
  Forall (fun p : nat -> M node =>
            ok (fun _ => True) (fun _ => True) True 4 fuel (p fuel)) productions.
Proof.
  assert (forall off m,
            ok (fun _ => True) (fun _ => True) True off fuel m ->
            ok (fun _ => True) (fun _ => True) True 4 fuel m) as Hw.
  { intros off m H c Hc HI _. apply H; auto. now left. }
  destruct (productions_ok (fun _ => True) (fun _ => True) True) with (fuel := fuel)
    as (Hn & Ht & He & Hs & Hm); auto.
  repeat constructor; eauto.
Qed.

Lemma productions_fuel (fuel : nat) :
  Forall (fun p : nat -> M node =>
            ok (fun _ => True) (fun _ => True) False 4 fuel (p fuel)) productions.
Proof.
  assert (forall off m, off <= 4 ->
            ok (fun _ => True) (fun _ => True) False off fuel m ->
            ok (fun _ => True) (fun _ => True) False 4 fuel m) as Hw.
  { intros off m Hoff H c Hc HI [[]|Hen]. apply H; auto. right. lia. }
  destruct (productions_have_fuel fuel) as (Hn & Ht & He & Hs & Hm).
  repeat constructor; eapply Hw; eauto.
Qed.

Lemma productions_mono (n m : nat) :
  n <= m -> Forall (fun p : nat -> M node => refines (p n) (p m)) productions.
Proof.
  intros Hle. destruct (productions_refine n m Hle) as (Hn & Ht & He & Hs & Hm).
  repeat constructor; assumption.
Qed.

Lemma has_fuel (p : nat -> M node) (fuel : nat) (c : _Cursor) :
  In p productions -> wf c -> 3 * remaining c + 4 <= fuel -> p fuel c <> NoFuel.
Proof.
  intros Hp Hc Hfuel.
  pose proof (proj1 (List.Forall_forall _ _) (productions_fuel fuel) p Hp) as H.
  specialize (H c Hc Logic.I (or_intror Hfuel)). unfold wp in H.
  now destruct (p fuel c) as [[v c']| |].
Qed.

Lemma agree_sym_returns {A : Type} (o1 o2 : outcome (A * _Cursor)) :
  agree o2 o1 -> o2 <> NoFuel -> agree o1 o2.
Proof.
  unfold agree. destruct o2 as [[a c2]| |]; [| |congruence].
  - intros (c1 & -> & Hs) _. exists c2. split; [reflexivity|].
    destruct Hs as (? & ? & ?). unfold same_text; auto.
  - now intros -> _.
Qed.

Lemma stable (p : nat -> M node) (f1 f2 : nat) (c1 c2 : _Cursor) :
  In p productions -> same_text c1 c2 ->
  3 * remaining c1 + 4 <= f1 -> 3 * remaining c2 + 4 <= f2 ->
  agree (p f1 c1) (p f2 c2).
Proof.
  intros Hp Hsame Hf1 Hf2. pose proof Hsame as (Hc1 & Hc2 & Hrest).
  destruct (Nat.le_ge_cases f1 f2) as [Hle|Hle].
  - now apply (proj1 (List.Forall_forall _ _) (productions_mono f1 f2 Hle) p Hp).
  - apply agree_sym_returns; [|now apply has_fuel].
    apply (proj1 (List.Forall_forall _ _) (productions_mono f2 f1 Hle) p Hp).
    unfold same_text; auto.
Qed.

(** What a production returned with some fuel, it returns with any fuel
    that suffices, on any cursor with the same text to read. *)
Lemma run_transfers (p : nat -> M node) (f f' : nat) (c1 c2 c1' : _Cursor) (v : node) :
  In p productions -> wf c1 -> wf c2 -> rest c1 = rest c2 ->
  3 * remaining c2 + 4 <= f' ->
  p f c1 = Returns (v, c1') ->
  exists c2', p f' c2 = Returns (v, c2') /\ rest c1' = rest c2'.
Proof.
  intros Hp Hc1 Hc2 Hrest Hf' Hrun.
  assert (same_text c1 c2) as Hsame by (unfold same_text; auto).
  pose proof (same_text_remaining _ _ Hsame) as Hrem.
  assert (agree (p f c1) (p f' c2)) as H.
  { destruct (Nat.le_ge_cases f f') as [Hle|Hle].
    - now apply (proj1 (List.Forall_forall _ _) (productions_mono f f' Hle) p Hp).
    - apply stable; auto; lia. }
  unfold agree in H. rewrite Hrun in H. destruct H as (c2' & H & _ & _ & Hr). eauto.
Qed.

Lemma arg_types_at_end (fn : M node) (fuel : nat) :
  forall arg_types c l c',
    parse_arg_types fuel fn arg_types c = Returns (Some l, c') ->
    Cursor.at_end c' = true.
Proof.
  induction fuel as [|fuel IH]; intros arg_types c l c'; [discriminate|].
  cbn [parse_arg_types]. unfold bind at 1. unfold at_end.
  destruct (Cursor.at_end c) eqn:He.
  - unfold ret. now intros [= <- <-].
  - unfold bind at 1. destruct (fn c) as [[ty c1]| |]; [|discriminate..].
    destruct (is_None ty); [discriminate|]. apply IH.
Qed.

Lemma special_shape (fn : M node) (c c' : _Cursor) (v : node) :
  _parse_special_body fn c = Returns (v, c') -> is_None v = false -> is_special v = true.
Proof.
  unfold _parse_special_body, bind, cmatch, call.
  destruct (Cursor.cmatch _SPECIAL_RE c) as [[kind|] c1]; [|now intros [= <- <-]].
  destruct (fn c1) as [[name c2]| |]; [|discriminate..].
  destruct (is_None name); [now intros [= <- <-]|].
  repeat match goal with
         | |- (if ?b then _ else _) _ = _ -> _ => destruct b
         end; unfold ret; intros [= <- <-]; auto.
Qed.

End Runs.
Import Runs.

(** Property X6.  A production only ever moves forward.  Whatever it is
    called on, when it returns, the cursor is on the same text, at a
    position that is not smaller and still inside the text; and when it
    returns a node and not [None], it has read at least one character. *)
Theorem productions_only_advance (p : nat -> M node) (fuel : nat) (c c' : _Cursor)
    (v : node) :
  In p productions -> wf c -> p fuel c = Returns (v, c') ->
  (_raw c' = _raw c /\ _pos c <= _pos c' <= String.length (_raw c)) /\
  (is_None v = false -> _pos c < _pos c').
Proof.
  intros Hp Hc Hrun.
  pose proof (proj1 (List.Forall_forall _ _) (productions_run fuel) p Hp) as H.
  specialize (H c Hc Logic.I (or_introl Logic.I)). unfold wp in H. rewrite Hrun in H.
  destruct H as ((Hraw & Hpos & Hwf) & Hlt & _). unfold wf in Hwf. rewrite Hraw in Hwf.
  auto.
Qed.

Lemma productions_only_advance_witness :
  (In _parse_type productions /\ wf (mkCursor "_Z1fPi" 4) /\
   _parse_type 3 (mkCursor "_Z1fPi" 4) = Returns (Pointer (Name "int"), mkCursor "_Z1fPi" 6)) /\
  ("_Z1fPi" = "_Z1fPi" /\ 4 <= 6 <= 6) /\
  (is_None (Pointer (Name "int")) = false -> 4 < 6).
Proof.
  assert (In _parse_type productions) as Hp by (simpl; auto).
  assert (wf (mkCursor "_Z1fPi" 4)) as Hc by (unfold wf; simpl; lia).
  split; [split; [exact Hp | split; [exact Hc | reflexivity]]|].
  exact (productions_only_advance _parse_type 3 (mkCursor "_Z1fPi" 4) (mkCursor "_Z1fPi" 6)
           (Pointer (Name "int")) Hp Hc eq_refl).
Defined.

(** Property X7.  The productions terminate: on a text with [n]
    characters left, no chain of nested calls is deeper than [3 * n + 4],
    so a production given that much fuel returns or raises. *)
Theorem productions_terminate (p : nat -> M node) (fuel : nat) (c : _Cursor) :
  In p productions -> wf c -> 3 * remaining c + 4 <= fuel -> p fuel c <> NoFuel.
Proof. apply has_fuel. Qed.

Lemma productions_terminate_witness :
  (In _parse_mangled_name productions /\ wf (mkCursor "_ZN3fooIcE5bargeE" 0) /\
   3 * remaining (mkCursor "_ZN3fooIcE5bargeE" 0) + 4 <= 55) /\
  _parse_mangled_name 55 (mkCursor "_ZN3fooIcE5bargeE" 0) <> NoFuel.
Proof.
  assert (In _parse_mangled_name productions) as Hp by (simpl; auto 10).
  assert (wf (mkCursor "_ZN3fooIcE5bargeE" 0)) as Hc by (unfold wf; simpl; lia).
  assert (3 * remaining (mkCursor "_ZN3fooIcE5bargeE" 0) + 4 <= 55) as Hf
    by (unfold remaining; simpl; lia).
  split; [split; [exact Hp | split; [exact Hc | exact Hf]]|].
  exact (productions_terminate _parse_mangled_name 55 (mkCursor "_ZN3fooIcE5bargeE" 0)
           Hp Hc Hf).
Defined.

(** Property X8.  What a production does depends on the text left to
    read and on nothing else: on two cursors with the same text left, be
    it at different positions of different texts, a production returns
    the same node, leaving the same text, or raises the same exception;
    and the fuel, once it suffices, does not matter. *)
Theorem result_depends_on_the_text_to_read (p : nat -> M node) (f1 f2 : nat)
    (c1 c2 : _Cursor) :
  In p productions -> wf c1 -> wf c2 -> rest c1 = rest c2 ->
  3 * remaining c1 + 4 <= f1 -> 3 * remaining c2 + 4 <= f2 ->
  match p f1 c1 with
  | Returns (v, c1') => exists c2', p f2 c2 = Returns (v, c2') /\ rest c1' = rest c2'
  | Raises e => p f2 c2 = Raises e
  | NoFuel => False
  end.
Proof.
  intros Hp Hc1 Hc2 Hrest Hf1 Hf2.
  pose proof (stable p f1 f2 c1 c2 Hp (conj Hc1 (conj Hc2 Hrest)) Hf1 Hf2) as H.
  pose proof (has_fuel p f1 c1 Hp Hc1 Hf1) as Hnf.
  unfold agree in H. destruct (p f1 c1) as [[v c1']| |]; [|assumption|congruence].
  destruct H as (c2' & H & _ & _ & Hr). eauto.
Qed.

Lemma result_depends_on_the_text_to_read_witness :
  (In _parse_type productions /\ wf (mkCursor "_Z1fKi" 4) /\ wf (mkCursor "Ki" 0) /\
   rest (mkCursor "_Z1fKi" 4) = rest (mkCursor "Ki" 0) /\
   3 * remaining (mkCursor "_Z1fKi" 4) + 4 <= 10 /\
   3 * remaining (mkCursor "Ki" 0) + 4 <= 30) /\
  match _parse_type 10 (mkCursor "_Z1fKi" 4) with
  | Returns (v, c1') =>
      exists c2', _parse_type 30 (mkCursor "Ki" 0) = Returns (v, c2') /\ rest c1' = rest c2'
  | Raises e => _parse_type 30 (mkCursor "Ki" 0) = Raises e
  | NoFuel => False
  end.
Proof.
  assert (In _parse_type productions) as Hp by (simpl; auto).
  assert (wf (mkCursor "_Z1fKi" 4)) as Hc1 by (unfold wf; simpl; lia).
  assert (wf (mkCursor "Ki" 0)) as Hc2 by (unfold wf; simpl; lia).
  assert (3 * remaining (mkCursor "_Z1fKi" 4) + 4 <= 10) as Hf1
    by (unfold remaining; simpl; lia).
  assert (3 * remaining (mkCursor "Ki" 0) + 4 <= 30) as Hf2
    by (unfold remaining; simpl; lia).
  split; [repeat split; assumption|].
  exact (result_depends_on_the_text_to_read _parse_type 10 30 (mkCursor "_Z1fKi" 4)
           (mkCursor "Ki" 0) Hp Hc1 Hc2 eq_refl Hf1 Hf2).
Defined.

(** Property X9.  A text that does not start with [_Z], the empty text
    among them, is not a mangled name: [parse] returns [None] on it and
    does not raise. *)
Theorem mangled_name_needs_its_prefix (raw : string) :
  String.prefix "_Z" raw = false -> parse raw = Returns PyNone.
Proof.
  intros H. unfold parse, fuel_for. rewrite Nat.add_comm. cbn [Nat.add _parse_mangled_name].
  unfold _parse_mangled_name_body, bind, cmatch, call, Cursor.cmatch, _MANGLED_NAME_RE, lit.
  unfold rest; cbn [_pos _raw drop]. now rewrite H.
Qed.

Lemma mangled_name_needs_its_prefix_witness :
  String.prefix "_Z" "" = false /\ parse "" = Returns PyNone.
Proof.
  split; [reflexivity|]. apply (mangled_name_needs_its_prefix ""). reflexivity.
Defined.

(** Property X10.  When the mangled-name production returns a node that
    is not a special name, it has read the text to its end.  A special
    name is returned as soon as its type is parsed, whatever follows. *)
Theorem mangled_name_reads_to_the_end (fuel : nat) (c c' : _Cursor) (v : node) :
  _parse_mangled_name fuel c = Returns (v, c') -> is_None v = false ->
  is_special v = true \/ Cursor.at_end c' = true.
Proof.
  destruct fuel as [|fuel]; [discriminate|]. cbn [_parse_mangled_name].
  unfold _parse_mangled_name_body. unfold bind at 1.
  destruct (cmatch _MANGLED_NAME_RE c) as [[[m|] c1]| |]; [| |discriminate..].
  2: { now intros [= <- <-]. }
  unfold bind at 1.
  destruct (_parse_special fuel c1) as [[special c2]| |] eqn:Hsp; [|discriminate..].
  destruct (is_None special) eqn:Hnone; cbn [negb].
  - unfold bind at 1. destruct (_parse_name fuel c2) as [[name c3]| |]; [|discriminate..].
    destruct (is_None name); [now intros [= <- <-]|].
    unfold bind at 1.
    destruct (parse_arg_types fuel (_parse_type fuel) [] c3) as [[r c4]| |] eqn:Hargs;
      [|discriminate..].
    destruct r as [l|]; [|now intros [= <- <-]].
    apply arg_types_at_end in Hargs.
    destruct l; intros [= <- <-]; auto.
  - intros [= <- <-] _. left. destruct fuel as [|fuel]; [discriminate|].
    cbn [_parse_special] in Hsp. eapply special_shape; eauto.
Qed.

Lemma mangled_name_reads_to_the_end_witness :
  (_parse_mangled_name 20 (mkCursor "_Z1fPic" 0) =
     Returns (Function (Name "f") [Pointer (Name "int"); Name "char"], mkCursor "_Z1fPic" 7) /\
   is_None (Function (Name "f") [Pointer (Name "int"); Name "char"]) = false) /\
  (is_special (Function (Name "f") [Pointer (Name "int"); Name "char"]) = true \/
   Cursor.at_end (mkCursor "_Z1fPic" 7) = true).
Proof.
  split; [split; reflexivity|].
  exact (mangled_name_reads_to_the_end 20 (mkCursor "_Z1fPic" 0) (mkCursor "_Z1fPic" 7)
           (Function (Name "f") [Pointer (Name "int"); Name "char"]) eq_refl eq_refl).
Defined.

(** The list of nodes up to the end marker *)

Module Lists.

Lemma accept_false (delim : string) (c c1 : _Cursor) :
  Cursor.accept delim c = (false, c1) -> c1 = c.
Proof. rewrite accept_eq. destruct (String.prefix delim (rest c)); now intros [= <-]. Qed.

(** One more node in front of a list. *)
Lemma list_result_cons (kind : list node -> node) (fn : M node) (nodes : list node)
    (c c1 : _Cursor) (n : node) (o : outcome (node * _Cursor)) :
  Cursor.accept "E" c = (false, c) -> fn c = Returns (n, c1) ->
  is_None n = false -> Cursor.at_end c1 = false ->
  list_result kind fn (nodes ++ [n]) c1 o -> list_result kind fn nodes c o.
Proof.
  intros HE Hfn Hn Hend H.
  destruct H as [c0 c' l Hl Hacc|c0 c' l m Hl Hacc Hm Hstop|c0 l e Hl Hacc He].
  - rewrite <- app_assoc. apply (list_closed _ _ _ _ c0); [|assumption].
    now apply (listed_cons _ _ c1).
  - apply (list_stopped _ _ _ _ c0 c' (n :: l) m); auto. now apply (listed_cons _ _ c1).
  - apply (list_raised _ _ _ _ c0 (n :: l)); auto. now apply (listed_cons _ _ c1).
Qed.

Lemma until_end_step (kind : list node -> node) (fn : M node) (fuel : nat)
    (nodes : list node) (c : _Cursor) :
  _parse_until_end (S fuel) kind fn nodes c =
    match Cursor.accept "E" c with
    | (true, c1) => Returns (kind nodes, c1)
    | (false, c1) =>
        match fn c1 with
        | Returns (n, c2) =>
            if is_None n || Cursor.at_end c2 then Returns (PyNone, c2)
            else _parse_until_end fuel kind fn (nodes ++ [n]) c2
        | Raises e => Raises e
        | NoFuel => NoFuel
        end
    end.
Proof.
  cbn [_parse_until_end]. unfold bind, accept, call, at_end, ret.
  destruct (Cursor.accept "E" c) as [[|] c1]; [reflexivity|].
  destruct (fn c1) as [[n c2]| |]; try reflexivity.
  now destruct (is_None n || Cursor.at_end c2).
Qed.

Lemma until_end_result (kind : list node -> node) (fn : M node) (fuel : nat) :
  forall nodes c,
    _parse_until_end fuel kind fn nodes c <> NoFuel ->
    list_result kind fn nodes c (_parse_until_end fuel kind fn nodes c).
Proof.
  induction fuel as [|fuel IH]; intros nodes c; [now intros []|].
  rewrite until_end_step.
  destruct (Cursor.accept "E" c) as [[|] c1] eqn:HE.
  - intros _.
    pose proof (list_closed kind fn nodes c c c1 [] (listed_nil fn c) HE) as H.
    rewrite app_nil_r in H. exact H.
  - pose proof (accept_false _ _ _ HE) as ->.
    destruct (fn c) as [[n c2]| |] eqn:Hfn.
    + destruct (is_None n || Cursor.at_end c2) eqn:Hstop.
      * intros _. now apply (list_stopped _ _ _ _ c c2 [] n); [constructor|..].
      * apply orb_false_elim in Hstop as [Hn Hend]. intros Hrun.
        apply (list_result_cons kind fn nodes c c2 n); auto.
    + intros _. now apply (list_raised _ _ _ _ c []); [constructor|..].
    + now intros [].
Qed.

(** The loop along the nodes that [fn] returns. *)
Lemma until_end_listed (kind : list node -> node) (fn : M node) (c c0 : _Cursor)
    (l : list node) :
  listed fn c l c0 ->
  forall fuel nodes,
    _parse_until_end (length l + fuel) kind fn nodes c =
      _parse_until_end fuel kind fn (nodes ++ l) c0.
Proof.
  induction 1 as [c|c c1 c' n l HE Hfn Hn Hend _ IH]; intros fuel nodes.
  - now rewrite app_nil_r.
  - cbn [length Nat.add]. rewrite until_end_step, HE, Hfn, Hn, Hend. cbn [orb].
    rewrite IH. now rewrite <- app_assoc.
Qed.

Lemma result_until_end (kind : list node -> node) (fn : M node) (nodes : list node)
    (c : _Cursor) (o : outcome (node * _Cursor)) :
  list_result kind fn nodes c o ->
  exists fuel0, forall fuel, fuel0 <= fuel -> _parse_until_end fuel kind fn nodes c = o.
Proof.
  intros H.
  destruct H as [c0 c' l Hl Hacc|c0 c' l m Hl Hacc Hm Hstop|c0 l e Hl Hacc He];
    exists (length l + 1); intros fuel Hfuel;
    replace fuel with (length l + S (fuel - length l - 1)) by lia;
    rewrite (until_end_listed kind fn c c0 l Hl), until_end_step, Hacc.
  - reflexivity.
  - now rewrite Hm, Hstop.
  - now rewrite He.
Qed.

End Lists.
Import Lists.

(** Property X11.  What [_parse_until_end] comes to is decided by the
    calls of [fn]: the list is returned when, after the nodes that [fn]
    returned one after the other, the end marker is accepted, and then it
    holds the nodes it started with and exactly those nodes, in order;
    the result is [None] when [fn] returns [None] or leaves the cursor at
    its end; and the exception of [fn] is that of the list.  So a node is
    returned only after a successful [accept('E')]. *)
Theorem list_is_returned_after_its_end_marker (kind : list node -> node) (fn : M node)
    (nodes : list node) (c : _Cursor) :
  (forall fuel, _parse_until_end fuel kind fn nodes c <> NoFuel ->
     list_result kind fn nodes c (_parse_until_end fuel kind fn nodes c)) /\
  (forall o, list_result kind fn nodes c o ->
     exists fuel0, forall fuel, fuel0 <= fuel -> _parse_until_end fuel kind fn nodes c = o) /\
  (forall fuel v c',
     _parse_until_end fuel kind fn nodes c = Returns (v, c') -> is_None v = false ->
     exists c0 l,
       listed fn c l c0 /\ Cursor.accept "E" c0 = (true, c') /\ v = kind (nodes ++ l)%list).
Proof.
  split; [|split].
  - intros fuel. apply until_end_result.
  - apply result_until_end.
  - intros fuel v c' Hrun Hv.
    pose proof (until_end_result kind fn fuel nodes c) as H. rewrite Hrun in H.
    specialize (H ltac:(discriminate)).
    inversion H as [c0 c1 l Hl Hacc|c0 c1 l m Hl Hacc Hm Hstop|]; subst.
    + eauto.
    + discriminate.
Qed.

Lemma list_is_returned_after_its_end_marker_witness :
  exists (c0 : _Cursor) (l : list node),
    listed (_parse_type 3) (mkCursor "_Z3fooIciE" 7) l c0 /\
    Cursor.accept "E" c0 = (true, mkCursor "_Z3fooIciE" 10) /\
    TplArgs [Name "char"; Name "int"] = TplArgs ([] ++ l)%list.
Proof.
  apply (proj2 (proj2 (list_is_returned_after_its_end_marker TplArgs (_parse_type 3) []
                         (mkCursor "_Z3fooIciE" 7))) 5);
    reflexivity.
Defined.

(** ** The lookup tables *)

Module Tables.

Lemma builtin_codes_partition (s text : string) (k : nat) :
  _TYPE_RE s = Some (grp_builtin_type text, k) ->
  (exists v, Py.getitem _builtin_types text = Returns v) \/
  (In text unspelled_builtin_codes /\ Py.getitem _builtin_types text = Raises KeyError).
Proof.
  unfold _TYPE_RE. intros H.
  repeat match type of H with
         | (_ ||| _) _ = Some _ => apply alt_inv in H as [H|[_ H]]
         end.
  - apply lits_inv in H as (t & Hin & [= ->]). unfold builtin_codes in Hin. simpl in Hin.
    repeat (destruct Hin as [<-|Hin];
            [first [left; eexists; reflexivity
                   |right; split; [simpl; auto 10 | reflexivity]]|]).
    destruct Hin.
  - apply plus_inv in H as [_ [= ]].
  - apply lit_inv in H as [_ [= ]].
  - apply lits_inv in H as (t & _ & [= ]).
  - unfold re_lookahead in H. destruct (String.prefix "L" s); discriminate.
Qed.

End Tables.
Import Tables.

(** Property X12.  The lookups of the name production never miss: each
    code the name pattern captures for a constructor, a destructor, a
    standard abbreviation or an operator is a key of the table it is
    looked up in.  A constructor or destructor code maps to a kind the
    printer knows, an abbreviation to a name under [std]. *)
Theorem name_codes_are_table_keys (s : string) (g : name_groups) (k : nat) :
  _NAME_RE s = Some (g, k) ->
  match g with
  | grp_ctor_name text =>
      exists v, Py.getitem _ctor_dtor_map text = Returns v /\
                In v ["complete"; "base"; "allocating"]
  | grp_dtor_name text =>
      exists v, Py.getitem _ctor_dtor_map text = Returns v /\
                In v ["deleting"; "complete"; "base"]
  | grp_std_name text =>
      exists v, Py.getitem _std_names text = Returns (Name "std" :: v) /\ v <> []
  | grp_operator_name text => exists v, Py.getitem _operators text = Returns v
  | _ => True
  end.
Proof.
  intros H. apply NAME_RE_groups in H. destruct g; auto.
  - simpl in H. intuition subst; eexists; (split; [reflexivity|simpl; auto]).
  - simpl in H. intuition subst; eexists; (split; [reflexivity|simpl; auto]).
  - simpl in H. intuition subst; eexists; (split; [reflexivity|discriminate]).
  - unfold operator_codes in H. simpl in H.
    repeat (destruct H as [<-|H]; [eexists; reflexivity|]). destruct H.
Qed.

Lemma name_codes_are_table_keys_witness :
  _NAME_RE "D0E" = Some (grp_dtor_name "D0", 2) /\
  exists v, Py.getitem _ctor_dtor_map "D0" = Returns v /\
            In v ["deleting"; "complete"; "base"].
Proof.
  split; [reflexivity|].
  apply (name_codes_are_table_keys "D0E" (grp_dtor_name "D0") 2). reflexivity.
Defined.

(** Property X13.  When the type pattern captures a builtin code, the
    type production either returns the name that the table spells the
    code with, having read the code and nothing else, or the code is one
    of the seven the table does not hold and the production raises
    [KeyError]. *)
Theorem builtin_type_is_spelled_or_raises (fuel : nat) (c : _Cursor) (text : string)
    (k : nat) :
  _TYPE_RE (rest c) = Some (grp_builtin_type text, k) ->
  (exists v, Py.getitem _builtin_types text = Returns v /\
             _parse_type (S fuel) c = Returns (Name v, skip k c)) \/
  (In text unspelled_builtin_codes /\ _parse_type (S fuel) c = Raises KeyError).
Proof.
  intros H. cbn [_parse_type]. unfold _parse_type_body, bind, cmatch, call, Cursor.cmatch.
  rewrite H. fold (skip k c). unfold eval.
  destruct (builtin_codes_partition _ _ _ H) as [(v & Hv)|(Hin & Hv)]; rewrite Hv.
  - left. exists v. auto.
  - right. auto.
Qed.

Lemma builtin_type_is_spelled_or_raises_witness :
  _TYPE_RE (rest (mkCursor "_Z1fDi" 4)) = Some (grp_builtin_type "Di", 2) /\
  ((exists v, Py.getitem _builtin_types "Di" = Returns v /\
              _parse_type 1 (mkCursor "_Z1fDi" 4) = Returns (Name v, mkCursor "_Z1fDi" 6)) \/
   (In "Di" unspelled_builtin_codes /\ _parse_type 1 (mkCursor "_Z1fDi" 4) = Raises KeyError)).
Proof.
  split; [reflexivity|].
  exact (builtin_type_is_spelled_or_raises 0 (mkCursor "_Z1fDi" 4) "Di" 2 eq_refl).
Defined.

(** Property X14.  The codes [Dd], [De], [Df], [Dh], [DF], [Dc] and [Dn]
    are accepted by the type pattern and missing from the table of
    builtin types: on a text that starts with one of them the type
    production raises [KeyError]. *)
Theorem unspelled_builtin_type_raises (fuel : nat) (c : _Cursor) (code : string) :
  In code unspelled_builtin_codes -> String.prefix code (rest c) = true ->
  _parse_type (S fuel) c = Raises KeyError.
Proof.
  intros Hcode Hpre. apply prefix_app in Hpre.
  cbn [_parse_type]. unfold _parse_type_body, bind, cmatch, call, Cursor.cmatch.
  rewrite Hpre. set (t := drop _ _). clearbody t.
  repeat (destruct Hcode as [<-|Hcode]; [destruct t; reflexivity|]). destruct Hcode.
Qed.

Lemma unspelled_builtin_type_raises_witness :
  (In "Dn" unspelled_builtin_codes /\ String.prefix "Dn" (rest (mkCursor "_Z1fDn" 4)) = true) /\
  _parse_type 1 (mkCursor "_Z1fDn" 4) = Raises KeyError.
Proof.
  assert (In "Dn" unspelled_builtin_codes) as Hin by (simpl; auto 10).
  split; [split; [exact Hin | reflexivity]|].
  apply (unspelled_builtin_type_raises 0 (mkCursor "_Z1fDn" 4) "Dn" Hin). reflexivity.
Defined.

(** ** Mangled names built from their parts, and parsed back *)

Module RoundTrip.

Lemma digit_plain (a : ascii) :
  is_digit a = true ->
  is_base36_digit a = true /\ in_class "rVK" a = false /\ in_class "RO" a = false /\
  Ascii.eqb a "T" = false /\ Ascii.eqb a "I" = false /\ Ascii.eqb a "E" = false /\
  exists d, Py.digit_value a = Some d /\ (d <? 10)%Z = true.
Proof.
  destruct a as [[] [] [] [] [] [] [] []]; try discriminate; intros _;
    repeat split; eexists; split; reflexivity.
Qed.

Lemma digits_base36 (s : string) :
  all_chars is_digit s = true -> all_chars is_base36_digit s = true.
Proof.
  induction s as [|a s IH]; [reflexivity|]. cbn [all_chars].
  intros H. apply andb_prop in H as [Ha Hs].
  apply digit_plain in Ha as (-> & _). auto.
Qed.

Lemma digits_of_uint (d : Decimal.uint) :
  all_chars is_digit (DecimalString.NilEmpty.string_of_uint d) = true.
Proof. induction d; simpl; auto. Qed.

Lemma digits_value_step (base acc d : Z) (a : ascii) (s : string) :
  Py.digit_value a = Some d -> (d <? base)%Z = true ->
  Py.digits_value base acc (String a s) = Py.digits_value base (acc * base + d) s.
Proof. intros Ha Hd. cbn [Py.digits_value]. now rewrite Ha, Hd. Qed.

Lemma digits_value_of_uint (d : Decimal.uint) (acc : nat) :
  Py.digits_value 10 (Z.of_nat acc) (DecimalString.NilEmpty.string_of_uint d)
    = Some (Z.of_nat (Nat.of_uint_acc d acc)).
Proof.
  revert acc. induction d as [|d IH|d IH|d IH|d IH|d IH|d IH|d IH|d IH|d IH|d IH];
    intros acc; [reflexivity|..];
    cbn [DecimalString.NilEmpty.string_of_uint Nat.of_uint_acc];
    rewrite Nat.tail_mul_spec, <- IH;
    (erewrite digits_value_step; [|vm_compute; reflexivity|reflexivity]);
    f_equal; lia.
Qed.

Lemma decimal_digits (n : nat) :
  all_chars is_digit (decimal n) = true /\ decimal n <> "".
Proof.
  unfold decimal. pose proof (digits_of_uint (Nat.to_uint n)) as H.
  destruct (Nat.to_uint n); simpl in *; split; auto; discriminate.
Qed.

Lemma digits_value_decimal (n : nat) :
  Py.digits_value 10 0 (decimal n) = Some (Z.of_nat n).
Proof.
  unfold decimal.
  pose proof (digits_value_of_uint (Nat.to_uint n) 0) as H.
  fold (Nat.of_uint (Nat.to_uint n)) in H. rewrite DecimalNat.Unsigned.of_to in H.
  destruct (Nat.to_uint n); exact H.
Qed.

(** [int] reads a decimal numeral back. *)
Lemma int_decimal (n : nat) : Py.int (Some (decimal n)) 10 = Returns (Z.of_nat n).
Proof.
  destruct (decimal_digits n) as [Hd Hne].
  pose proof (digits_base36 _ Hd) as H36.
  unfold Py.int. rewrite (lstrip_digits _ H36), (rstrip_digits _ H36).
  pose proof (digits_value_decimal n) as Hv.
  destruct (decimal n) as [|a s]; [congruence|].
  cbn [all_chars] in Hd. apply andb_prop in Hd as [Ha _].
  assert (match String a s with
          | String "+" r => (1%Z, r)
          | String "-" r => ((-1)%Z, r)
          | _ => (1%Z, String a s)
          end = (1%Z, String a s)) as ->.
  { destruct a as [[] [] [] [] [] [] [] []]; try reflexivity; discriminate. }
  rewrite Hv. f_equal. lia.
Qed.

Lemma span_all (p : ascii -> bool) (s t : string) :
  all_chars p s = true -> span p (s ++ t) = s ++ span p t.
Proof.
  induction s as [|a s IH]; [now rewrite !app_nil|]. cbn [all_chars].
  intros H. apply andb_prop in H as [Ha Hs]. rewrite !app_cons. cbn [span].
  now rewrite Ha, IH.
Qed.

Lemma span_stop (s : string) : starts_with_digit s = false -> span is_digit s = "".
Proof. destruct s as [|a s]; [reflexivity|]. simpl. now intros ->. Qed.

Lemma app_empty_r (s : string) : s ++ "" = s.
Proof. induction s as [|a s IH]; [reflexivity|]. now rewrite app_cons, IH. Qed.

Lemma NAME_RE_source (d t : string) :
  all_chars is_digit d = true -> d <> "" -> starts_with_digit t = false ->
  _NAME_RE (d ++ t) = Some (grp_source_name d, String.length d).
Proof.
  intros Hd Hne Ht. unfold _NAME_RE, alt, plus.
  rewrite (span_all _ _ _ Hd), (span_stop _ Ht), app_empty_r.
  destruct d; [congruence | reflexivity].
Qed.

(** The name production on a source name, up to the template arguments
    that may follow it. *)
Lemma name_source_step (fuel : nat) (c : _Cursor) (name tail : string) :
  wf c -> rest c = source_name name ++ tail ->
  starts_with_digit (name ++ tail) = false ->
  _parse_name (S fuel) c =
    if String.prefix "I" tail then
      match _parse_until_end fuel TplArgs (_parse_type fuel) []
              (skip (String.length (source_name name) + 1) c) with
      | Returns (t, c2) => Returns (if is_None t then PyNone else QualName [Name name; t], c2)
      | Raises e => Raises e
      | NoFuel => NoFuel
      end
    else Returns (Name name, skip (String.length (source_name name)) c).
Proof.
  intros Hc Hrest Hdigit. unfold source_name in *.
  set (d := decimal (String.length name)) in *.
  destruct (decimal_digits (String.length name)) as [Hd Hne]. fold d in Hd, Hne.
  rewrite append_assoc in Hrest.
  pose proof (length_rest c) as Hlen. rewrite Hrest, !length_app in Hlen.
  change (_parse_name (S fuel) c)
    with (_parse_name_body fuel (_parse_name fuel) (_parse_type fuel) c).
  unfold _parse_name_body.
  unfold bind at 1. unfold cmatch, call, Cursor.cmatch.
  rewrite Hrest, (NAME_RE_source _ _ Hd Hne Hdigit). fold (skip (String.length d) c).
  unfold bind at 1. unfold _parse_source_name.
  unfold bind at 1. unfold eval. subst d. rewrite int_decimal.
  set (d := decimal (String.length name)) in *.
  unfold bind at 1. unfold advance, call. rewrite Nat2Z.id.
  assert (wf (skip (String.length d) c)) as Hc1 by (apply wf_skip; [lia | assumption]).
  rewrite advance_eq by assumption.
  rewrite remaining_skip, rest_skip, Hrest, drop_app, take_app.
  destruct (Nat.ltb_spec (remaining c - String.length d) (String.length name)) as [Hlt|_];
    [lia|].
  unfold ret at 1. cbn [is_None].
  unfold bind at 1. unfold accept, call. rewrite accept_eq.
  rewrite !rest_skip, Hrest, drop_app, drop_app.
  rewrite !skip_skip, length_app.
  destruct (String.prefix "I" tail); [|reflexivity].
  unfold bind at 1. cbn [String.length]. rewrite Nat.add_assoc.
  destruct (_parse_until_end fuel TplArgs (_parse_type fuel) [] _) as [[t c2]| |];
    try reflexivity.
  now destruct (is_None t).
Qed.

Lemma name_source (fuel : nat) (c : _Cursor) (name tail : string) :
  wf c -> rest c = source_name name ++ tail ->
  starts_with_digit (name ++ tail) = false -> String.prefix "I" tail = false ->
  _parse_name (S fuel) c = Returns (Name name, skip (String.length (source_name name)) c).
Proof.
  intros Hc Hrest Hdigit HI. rewrite (name_source_step fuel c name tail) by assumption.
  now rewrite HI.
Qed.

Lemma special_none (a : ascii) (s : string) :
  Ascii.eqb a "T" = false -> _SPECIAL_RE (String a s) = None.
Proof. destruct a as [[] [] [] [] [] [] [] []]; try discriminate; reflexivity. Qed.

Lemma source_name_head (name t : string) :
  exists a s, source_name name ++ t = String a s /\ is_digit a = true.
Proof.
  unfold source_name. destruct (decimal_digits (String.length name)) as [Hd Hne].
  destruct (decimal (String.length name)) as [|a d]; [congruence|].
  cbn [all_chars] in Hd. apply andb_prop in Hd as [Ha _].
  exists a, ((d ++ name) ++ t). now rewrite !app_cons.
Qed.

Lemma special_none_source_name (name t : string) :
  _SPECIAL_RE (source_name name ++ t) = None.
Proof.
  destruct (source_name_head name t) as (a & s & -> & Ha).
  apply special_none. now apply digit_plain in Ha.
Qed.

(** The mangled-name production, once the name production has given a
    name and the loop its argument types. *)
Lemma mangled_name_with_args (fuel : nat) (t : string) (name : node)
    (args : list node) (c1 c' : _Cursor) :
  _SPECIAL_RE t = None ->
  _parse_name (S fuel) (mkCursor ("_Z" ++ t) 2) = Returns (name, c1) ->
  is_None name = false ->
  parse_arg_types (S fuel) (_parse_type (S fuel)) [] c1 = Returns (Some args, c') ->
  _parse_mangled_name (S (S fuel)) (mkCursor ("_Z" ++ t) 0) =
    Returns (match args with [] => name | _ => Function name args end, c').
Proof.
  intros Ht Hname Hnone Hargs.
  change (_parse_mangled_name (S (S fuel)) (mkCursor ("_Z" ++ t) 0))
    with (_parse_mangled_name_body (S fuel) (_parse_name (S fuel)) (_parse_type (S fuel))
            (_parse_special (S fuel)) (mkCursor ("_Z" ++ t) 0)).
  unfold _parse_mangled_name_body.
  unfold bind at 1. unfold cmatch, call, Cursor.cmatch, _MANGLED_NAME_RE, lit.
  unfold rest at 1. cbn [_raw _pos drop]. rewrite app_prefix. cbn [String.length Nat.add].
  unfold bind at 1. cbn [_parse_special]. unfold _parse_special_body.
  unfold bind at 1. unfold cmatch, call, Cursor.cmatch.
  unfold rest at 1. cbn [_raw _pos].
  change (drop 2 ("_Z" ++ t)) with t. rewrite Ht.
  unfold ret at 1. cbn [is_None negb].
  unfold bind at 1. rewrite Hname, Hnone.
  unfold bind at 1. rewrite Hargs. now destruct args.
Qed.

(** The same when the name reaches the end of the text. *)
Lemma mangled_plain_name (fuel : nat) (t : string) (name : node) (c' : _Cursor) :
  _SPECIAL_RE t = None ->
  _parse_name (S fuel) (mkCursor ("_Z" ++ t) 2) = Returns (name, c') ->
  is_None name = false -> Cursor.at_end c' = true ->
  _parse_mangled_name (S (S fuel)) (mkCursor ("_Z" ++ t) 0) = Returns (name, c').
Proof.
  intros Ht Hname Hnone Hend.
  apply (mangled_name_with_args fuel t name [] c' c' Ht Hname Hnone).
  cbn [parse_arg_types]. unfold bind, at_end. now rewrite Hend.
Qed.

Lemma NAME_RE_nested_plain (a : ascii) (s : string) :
  is_digit a || Ascii.eqb a "E" = true ->
  _NAME_RE (String "N" (String a s)) = Some (grp_nested_name "" "", 1).
Proof.
  destruct a as [[] [] [] [] [] [] [] []]; try discriminate; intros _; reflexivity.
Qed.

Lemma identifier_inv (name : string) :
  identifier name = true ->
  exists a s, name = String a s /\ is_digit a = false.
Proof.
  unfold identifier. destruct name as [|a s]; [discriminate|]. simpl.
  intros H. exists a, s. split; [reflexivity|]. now apply negb_true_iff in H.
Qed.

Lemma source_names_head (names : list string) (tail : string) :
  exists a s, source_names names ++ String "E" tail = String a s /\
              is_digit a || Ascii.eqb a "E" = true.
Proof.
  destruct names as [|name names]; cbn [source_names].
  - exists "E"%char, tail. now rewrite app_nil.
  - rewrite append_assoc.
    destruct (source_name_head name (source_names names ++ String "E" tail))
      as (a & s & -> & Ha).
    exists a, s. now rewrite Ha.
Qed.

Lemma handle_cv_none (n : node) : _handle_cv "" n = n.
Proof. unfold _handle_cv. cbn [mem]. now destruct (decide _). Qed.

Lemma length_source_names (names : list string) :
  length names <= String.length (source_names names).
Proof.
  induction names as [|name names IH]; [simpl; lia|].
  cbn [source_names length]. rewrite length_app. unfold source_name. rewrite length_app.
  destruct (decimal_digits (String.length name)) as [_ Hne].
  destruct (decimal (String.length name)); [congruence|]. simpl. lia.
Qed.

(** The loop of a nested name over source names. *)
Lemma until_end_names (f : nat) (names : list string) :
  forall fuel nodes c tail,
    wf c -> rest c = source_names names ++ String "E" tail ->
    forallb identifier names = true -> length names < fuel ->
    _parse_until_end fuel QualName (_parse_name (S f)) nodes c =
      Returns (QualName (nodes ++ map Name names),
               skip (String.length (source_names names) + 1) c).
Proof.
  induction names as [|name names IH]; intros fuel nodes c tail Hc Hrest Hid Hfuel;
    (destruct fuel as [|fuel]; [simpl in Hfuel; lia|]);
    cbn [_parse_until_end source_names map] in *;
    unfold bind at 1; unfold accept, call; rewrite accept_eq.
  - rewrite app_nil in Hrest. rewrite Hrest, prefix_cons, prefix_nil. simpl.
    unfold ret. now rewrite app_nil_r.
  - apply andb_prop in Hid as [Hname Hid].
    rewrite append_assoc in Hrest.
    set (tail' := source_names names ++ String "E" tail) in *.
    destruct (source_name_head name tail') as (a & s & Hs & Ha).
    destruct (source_names_head names tail) as (b & t & Ht & Hb). fold tail' in Ht.
    destruct (identifier_inv _ Hname) as (x & y & Hxy & Hx).
    pose proof (digit_plain a Ha) as (_ & _ & _ & _ & _ & HaE & _).
    assert (String.prefix "E" (rest c) = false) as ->.
    { rewrite Hrest, Hs, prefix_cons. rewrite Ascii.eqb_sym in HaE. now rewrite HaE. }
    pose proof (length_rest c) as Hlen. rewrite Hrest, length_app in Hlen.
    assert (1 <= String.length tail') as Hlen' by (rewrite Ht; simpl; lia).
    unfold bind at 1.
    rewrite (name_source f c name tail' Hc Hrest).
    2: { rewrite Hxy, app_cons. exact Hx. }
    2: { rewrite Ht, prefix_cons.
         destruct b as [[] [] [] [] [] [] [] []]; try discriminate; reflexivity. }
    assert (wf (skip (String.length (source_name name)) c)) as Hc1
      by (apply wf_skip; [lia | assumption]).
    unfold bind at 1. unfold at_end. rewrite at_end_eq by assumption.
    rewrite remaining_skip.
    destruct (Nat.eqb_spec (remaining c - String.length (source_name name)) 0) as [Hz|_];
      [lia|].
    cbn [is_None orb].
    rewrite (IH fuel _ _ tail); auto.
    + rewrite skip_skip, length_app, <- app_assoc. do 3 f_equal. lia.
    + rewrite rest_skip, Hrest. apply drop_app.
    + simpl in Hfuel. lia.
Qed.

(** The name production on a nested name made of source names. *)
Lemma name_nested (f : nat) (names : list string) (c : _Cursor) (tail : string) :
  wf c -> rest c = String "N" (source_names names ++ String "E" tail) ->
  forallb identifier names = true -> length names <= f ->
  String.prefix "I" tail = false ->
  _parse_name (S (S f)) c =
    Returns (QualName (map Name names), skip (String.length (source_names names) + 2) c).
Proof.
  intros Hc Hrest Hid Hfuel HI.
  destruct (source_names_head names tail) as (a & s & Hs & Ha).
  pose proof (length_rest c) as Hlen. rewrite Hrest in Hlen. cbn [String.length] in Hlen.
  change (_parse_name (S (S f)) c)
    with (_parse_name_body (S f) (_parse_name (S f)) (_parse_type (S f)) c).
  unfold _parse_name_body.
  unfold bind at 1. unfold cmatch at 1. unfold call, Cursor.cmatch.
  rewrite Hrest, Hs, (NAME_RE_nested_plain _ _ Ha). fold (skip 1 c).
  unfold bind at 1. unfold bind at 1.
  rewrite (until_end_names f names (S f) [] (skip 1 c) tail); auto.
  - unfold ret at 1. rewrite handle_cv_none. cbn [_handle_indirect String.eqb app is_None].
    unfold ret at 1. cbn [is_None].
    unfold bind at 1. unfold accept, call. rewrite accept_eq.
    rewrite !rest_skip, Hrest. cbn [drop].
    rewrite drop_app_plus. cbn [drop]. rewrite HI.
    rewrite skip_skip. unfold ret. do 3 f_equal. lia.
  - apply wf_skip; [lia | assumption].
  - now rewrite rest_skip, Hrest.
  - lia.
Qed.

Lemma join_cons (sep r x : string) (l : list string) :
  join sep ((r ++ sep ++ x) :: l) = r ++ sep ++ join sep (x :: l).
Proof.
  destruct l as [|y l]; [reflexivity|].
  cbn [join]. now rewrite !append_assoc.
Qed.

Lemma app_not_empty (r s : string) : r <> "" -> r ++ s <> "".
Proof. destruct r; [congruence|]. now rewrite app_cons. Qed.

Lemma builtin_entry (code spelling t : string) :
  In (code, spelling) _builtin_types ->
  _TYPE_RE (code ++ t) = Some (grp_builtin_type code, String.length code) /\
  Py.getitem _builtin_types code = Returns spelling /\
  exists a s, code = String a s /\ is_digit a = false /\ Ascii.eqb "I" a = false /\
              Ascii.eqb "E" a = false /\ Ascii.eqb "_" a = false.
Proof.
  unfold _builtin_types. intros H. simpl in H.
  repeat (destruct H as [[= <- <-]|H];
          [repeat split; [destruct t; reflexivity | do 2 eexists; repeat split]|]).
  destruct H.
Qed.

(** The type production on the code of a builtin type. *)
Lemma type_builtin (fuel : nat) (c : _Cursor) (code spelling t : string) :
  rest c = code ++ t -> In (code, spelling) _builtin_types ->
  _parse_type (S fuel) c = Returns (Name spelling, skip (String.length code) c).
Proof.
  intros Hrest Hin. destruct (builtin_entry _ _ t Hin) as (Hre & Hget & _).
  cbn [_parse_type]. unfold _parse_type_body.
  unfold bind at 1. unfold cmatch, call, Cursor.cmatch. rewrite Hrest, Hre.
  unfold bind, eval. now rewrite Hget.
Qed.

Lemma types_consumed (fuel : nat) (types : list (string * string)) :
  forall c,
    wf c -> rest c = type_codes types -> Forall (fun ty => In ty _builtin_types) types ->
    consumed (_parse_type (S fuel)) c (map (fun ty => Name (snd ty)) types)
      (skip (String.length (type_codes types)) c) /\
    Cursor.at_end (skip (String.length (type_codes types)) c) = true.
Proof.
  induction types as [|[code spelling] types IH]; intros c Hc Hrest Hall.
  - cbn [type_codes String.length map]. rewrite skip_0. split; [constructor|].
    rewrite at_end_eq, <- length_rest, Hrest by assumption. reflexivity.
  - cbn [type_codes map fst snd] in *. apply Forall_cons_iff in Hall as [Hin Hall].
    destruct (builtin_entry _ _ (type_codes types) Hin) as (_ & _ & a & s & -> & _).
    pose proof (length_rest c) as Hlen. rewrite Hrest, length_app in Hlen.
    set (code := String a s) in *.
    assert (wf (skip (String.length code) c)) as Hc1 by (apply wf_skip; [lia | assumption]).
    destruct (IH (skip (String.length code) c)) as [Hcons Hend]; auto.
    { rewrite rest_skip, Hrest. apply drop_app. }
    rewrite skip_skip, <- length_app in Hcons, Hend. split; [|assumption].
    apply (consumed_cons _ _ (skip (String.length code) c)); auto.
    + rewrite at_end_eq by assumption. apply Nat.eqb_neq. subst code. simpl in Hlen. lia.
    + now apply (type_builtin fuel c code spelling (type_codes types)).
Qed.

Lemma type_codes_head (types : list (string * string)) :
  Forall (fun ty => In ty _builtin_types) types ->
  starts_with_digit (type_codes types) = false /\
  String.prefix "I" (type_codes types) = false.
Proof.
  destruct types as [|[code spelling] types]; [auto|]. intros Hall.
  apply Forall_cons_iff in Hall as [Hin _]. cbn [type_codes fst].
  destruct (builtin_entry _ _ "" Hin) as (_ & _ & a & s & -> & Ha & HI & _).
  rewrite app_cons, prefix_cons, HI. auto.
Qed.

Lemma length_type_codes (types : list (string * string)) :
  Forall (fun ty => In ty _builtin_types) types ->
  length types <= String.length (type_codes types).
Proof.
  induction 1 as [|[code spelling] types Hin _ IH]; [simpl; lia|].
  cbn [type_codes length fst]. rewrite length_app.
  destruct (builtin_entry _ _ "" Hin) as (_ & _ & a & s & -> & _). simpl. lia.
Qed.

(** The loop of a template argument list over builtin types. *)
Lemma until_end_types (f : nat) (types : list (string * string)) :
  forall fuel nodes c tail,
    wf c -> rest c = type_codes types ++ String "E" tail ->
    Forall (fun ty => In ty _builtin_types) types -> length types < fuel ->
    _parse_until_end fuel TplArgs (_parse_type (S f)) nodes c =
      Returns (TplArgs (nodes ++ map (fun ty => Name (snd ty)) types),
               skip (String.length (type_codes types) + 1) c).
Proof.
  induction types as [|[code spelling] types IH]; intros fuel nodes c tail Hc Hrest Hall Hfuel;
    (destruct fuel as [|fuel]; [simpl in Hfuel; lia|]);
    cbn [_parse_until_end type_codes map fst snd] in *;
    unfold bind at 1; unfold accept, call; rewrite accept_eq.
  - rewrite app_nil in Hrest. rewrite Hrest, prefix_cons, prefix_nil. simpl.
    unfold ret. now rewrite app_nil_r.
  - apply Forall_cons_iff in Hall as [Hin Hall].
    rewrite append_assoc in Hrest.
    set (tail' := type_codes types ++ String "E" tail) in *.
    destruct (builtin_entry _ _ "" Hin) as (_ & _ & a & s & Hcode & _ & _ & HaE & _).
    assert (String.prefix "E" (rest c) = false) as ->.
    { rewrite Hrest, Hcode, app_cons, prefix_cons. now rewrite HaE. }
    pose proof (length_rest c) as Hlen. rewrite Hrest, length_app in Hlen.
    assert (1 <= String.length tail') as Hlen'.
    { unfold tail'. rewrite length_app. simpl. lia. }
    unfold bind at 1.
    rewrite (type_builtin f c code spelling tail' Hrest Hin).
    assert (wf (skip (String.length code) c)) as Hc1 by (apply wf_skip; [lia | assumption]).
    unfold bind at 1. unfold at_end. rewrite at_end_eq by assumption.
    rewrite remaining_skip.
    destruct (Nat.eqb_spec (remaining c - String.length code) 0) as [Hz|_]; [lia|].
    cbn [is_None orb].
    rewrite (IH fuel _ _ tail); auto.
    + rewrite skip_skip, length_app, <- app_assoc. do 3 f_equal. lia.
    + rewrite rest_skip, Hrest. apply drop_app.
    + simpl in Hfuel. lia.
Qed.

Lemma map_str_names (set_iter : gset string -> list string) (l : list string) :
  (fix map_str (l : list node) : outcome (list string) :=
     match l with
     | [] => Returns []
     | x :: l' =>
         obind (str set_iter x) (fun s => obind (map_str l') (fun ss => Returns (s :: ss)))
     end) (map Name l) = Returns l.
Proof. induction l as [|x l IH]; [reflexivity|]. cbn [map str obind]. now rewrite IH. Qed.

(** The printer on a [qual_name] of plain names. *)
Lemma str_names (set_iter : gset string -> list string) (name : string)
    (names : list string) :
  name <> "" ->
  str set_iter (QualName (map Name (name :: names))) = Returns (join "::" (name :: names)).
Proof.
  intros Hne. cbn [str map obind String.eqb]. rewrite !app_nil.
  revert name Hne. induction names as [|x names IH]; intros name Hne; [reflexivity|].
  cbn [map]. cbn [str kind obind].
  apply String.eqb_neq in Hne as Hne'. rewrite Hne'. cbn [obind].
  change (String.eqb "name" "tpl_args") with false. cbn iota.
  rewrite (IH (name ++ "::" ++ x)) by now apply app_not_empty.
  now rewrite join_cons.
Qed.

End RoundTrip.
Import RoundTrip.

(** Property X15.  A source name parses back to itself: for a name that
    does not start with a digit, the mangled name made of [_Z], the
    decimal length of the name and the name itself parses to the [name]
    node of that name. *)
Theorem source_name_round_trip (name : string) :
  starts_with_digit name = false ->
  parse ("_Z" ++ source_name name) = Returns (Name name).
Proof.
  intros Hname. unfold parse.
  assert (fuel_for ("_Z" ++ source_name name)
          = S (S (4 * String.length (source_name name) + 14)))
    as -> by (unfold fuel_for; rewrite length_app; simpl; lia).
  set (c := mkCursor ("_Z" ++ source_name name) 2).
  assert (wf c) as Hc by (unfold wf, c; simpl; rewrite length_app; simpl; lia).
  assert (rest c = source_name name ++ "") as Hrest by (now rewrite app_empty_r).
  pose proof (name_source (4 * String.length (source_name name) + 14) c name "" Hc Hrest) as H.
  rewrite app_empty_r in H. specialize (H Hname eq_refl).
  pose proof (special_none_source_name name "") as Hsp. rewrite app_empty_r in Hsp.
  rewrite (mangled_plain_name _ _ _ _ Hsp H); try reflexivity.
  unfold Cursor.at_end, skip, c; simpl. rewrite length_app. apply Nat.eqb_eq. simpl. lia.
Qed.

Lemma source_name_round_trip_witness :
  starts_with_digit "a_rather_long_name" = false /\
  parse "_Z18a_rather_long_name" = Returns (Name "a_rather_long_name").
Proof.
  split; [reflexivity|].
  apply (source_name_round_trip "a_rather_long_name"). reflexivity.
Defined.

(** Property X16.  The printer of a [qual_name] writes plain names one
    after the other with [::] between them, provided the first name is
    not empty.  The separator is left out as long as nothing has been
    written: an empty name in front of the others leaves no trace. *)
Theorem qual_name_of_names_prints (set_iter : gset string -> list string)
    (name : string) (names : list string) :
  name <> "" ->
  str set_iter (QualName (map Name (name :: names))) = Returns (join "::" (name :: names)) /\
  str set_iter (QualName (Name "" :: map Name (name :: names)))
    = Returns (join "::" (name :: names)).
Proof.
  intros Hne. split; [now apply str_names|].
  rewrite <- (str_names set_iter name names Hne). reflexivity.
Qed.

Lemma qual_name_of_names_prints_witness :
  "foo" <> "" /\
  str elements (QualName (map Name ["foo"; "barge"; "baz"])) = Returns "foo::barge::baz".
Proof.
  assert ("foo" <> "") as H by discriminate.
  split; [exact H|].
  exact (proj1 (qual_name_of_names_prints elements "foo" ["barge"; "baz"] H)).
Defined.

(** Property X17.  A nested name parses back to its parts and prints
    with [::] between them: for names that are not empty and do not
    start with a digit, [_ZN], the source names and [E] parse to the
    [qual_name] of the names in their order, and demangle to the names
    joined by [::]. *)
Theorem nested_name_round_trip (set_iter : gset string -> list string)
    (names : list string) :
  forallb identifier names = true ->
  parse ("_ZN" ++ source_names names ++ "E") = Returns (QualName (map Name names)) /\
  demangle set_iter ("_ZN" ++ source_names names ++ "E") = Returns (Some (join "::" names)).
Proof.
  intros Hid.
  change ("_ZN" ++ source_names names ++ "E")
    with (String "_" (String "Z" (String "N" (source_names names ++ "E")))).
  set (raw := String "_" (String "Z" (String "N" (source_names names ++ "E")))).
  assert (parse raw = Returns (QualName (map Name names))) as Hparse.
  { unfold parse.
    set (n := String.length (source_names names)).
    assert (String.length raw = n + 4) as Hlen
      by (unfold raw, n; cbn [String.length]; rewrite length_app; simpl; lia).
    assert (fuel_for raw = S (S (S (4 * n + 21)))) as -> by (unfold fuel_for; lia).
    assert (wf (mkCursor raw 2)) as Hc by (unfold wf; simpl; lia).
    pose proof (name_nested (4 * n + 21) names (mkCursor raw 2) "" Hc eq_refl Hid) as H.
    pose proof (length_source_names names) as Hnames. fold n in Hnames.
    specialize (H ltac:(lia) eq_refl).
    change raw with ("_Z" ++ String "N" (source_names names ++ "E")) at 1.
    rewrite (mangled_plain_name _ (String "N" (source_names names ++ "E")) _ _ eq_refl H);
      try reflexivity.
    unfold Cursor.at_end, skip. cbn [_raw _pos]. apply Nat.eqb_eq. fold raw. lia. }
  split; [exact Hparse|].
  unfold demangle. rewrite Hparse.
  destruct names as [|name names]; [reflexivity|].
  rewrite str_names; [reflexivity|].
  cbn [forallb] in Hid. apply andb_prop in Hid as [Hname _].
  destruct (identifier_inv _ Hname) as (a & s & -> & _). discriminate.
Qed.

Lemma nested_name_round_trip_witness :
  forallb identifier ["foo"; "barge"] = true /\
  demangle elements "_ZN3foo5bargeE" = Returns (Some "foo::barge").
Proof.
  split; [reflexivity|].
  apply (proj2 (nested_name_round_trip elements ["foo"; "barge"] eq_refl)).
Defined.

(** Property X18.  A function of builtin types parses back to its
    signature: the source name of a function followed by the codes of
    one or more entries of the table of builtin types parses to the
    [function] of the name and of the spelled types, and demangles to the
    name with the spellings between parentheses, separated by commas, or
    with empty parentheses when the only type is [void]. *)
Theorem function_of_builtin_types_round_trip (set_iter : gset string -> list string)
    (name : string) (types : list (string * string)) :
  starts_with_digit name = false -> types <> [] ->
  Forall (fun ty => In ty _builtin_types) types ->
  parse ("_Z" ++ source_name name ++ type_codes types)
    = Returns (Function (Name name) (map (fun ty => Name (snd ty)) types)) /\
  demangle set_iter ("_Z" ++ source_name name ++ type_codes types)
    = Returns (Some (if bool_decide (map snd types = ["void"]) then name ++ "()"
                     else name ++ "(" ++ join ", " (map snd types) ++ ")")).
Proof.
  intros Hname Hne Hall.
  set (raw := "_Z" ++ source_name name ++ type_codes types).
  destruct (type_codes_head types Hall) as [Hdigit HI].
  assert (parse raw = Returns (Function (Name name) (map (fun ty => Name (snd ty)) types)))
    as Hparse.
  { unfold parse.
    set (n := String.length (source_name name ++ type_codes types)).
    assert (String.length raw = n + 2) as Hlen
      by (unfold raw, n; rewrite length_app; simpl; lia).
    assert (fuel_for raw = S (S (4 * n + 14))) as -> by (unfold fuel_for; lia).
    assert (wf (mkCursor raw 2)) as Hc by (unfold wf; simpl; lia).
    pose proof (name_source (4 * n + 14) (mkCursor raw 2) name (type_codes types) Hc eq_refl)
      as Hn.
    specialize (Hn ltac:(destruct name; [now rewrite app_nil | now rewrite app_cons])
                   HI).
    set (c1 := skip (String.length (source_name name)) (mkCursor raw 2)) in *.
    assert (wf c1) as Hc1.
    { apply wf_skip; [|assumption]. unfold remaining. cbn [_raw _pos]. rewrite Hlen.
      unfold n. rewrite length_app. lia. }
    assert (rest c1 = type_codes types) as Hrest1.
    { unfold c1. rewrite rest_skip.
      change (rest (mkCursor raw 2)) with (source_name name ++ type_codes types).
      apply drop_app. }
    destruct (types_consumed (4 * n + 14) types c1 Hc1 Hrest1 Hall) as [Hcons Hend].
    pose proof (arg_types_consumed _ _ _ _ Hcons Hend (S (4 * n + 14)) []) as Hargs.
    cbn [app] in Hargs.
    pose proof (length_type_codes types Hall) as Hlt.
    specialize (Hargs ltac:(rewrite length_map; unfold n; rewrite length_app; lia)).
    pose proof (special_none_source_name name (type_codes types)) as Hsp.
    subst c1 raw.
    rewrite (mangled_name_with_args _ _ _ _ _ _ Hsp Hn eq_refl Hargs). cbn [result_of].
    destruct types; [congruence | reflexivity]. }
  split; [exact Hparse|].
  unfold demangle. rewrite Hparse. cbn [str].
  rewrite <- (map_map snd Name), map_str_names. cbn [obind].
  destruct (map snd types) as [|x [|y l]] eqn:Hsp; cbn [map is_void_args].
  - destruct types; [congruence | discriminate].
  - destruct (String.eqb_spec x "void") as [->|Hx].
    + rewrite bool_decide_eq_true_2 by reflexivity. reflexivity.
    + rewrite bool_decide_eq_false_2 by congruence. reflexivity.
  - rewrite bool_decide_eq_false_2 by congruence. reflexivity.
Qed.

Lemma function_of_builtin_types_round_trip_witness :
  (starts_with_digit "f" = false /\ [("i", "int"); ("Ds", "char16_t")] <> [] /\
   Forall (fun ty => In ty _builtin_types) [("i", "int"); ("Ds", "char16_t")]) /\
  demangle elements "_Z1fiDs" = Returns (Some "f(int, char16_t)").
Proof.
  assert (Forall (fun ty => In ty _builtin_types) [("i", "int"); ("Ds", "char16_t")]) as H
    by (repeat constructor; simpl; auto 30).
  split; [split; [reflexivity | split; [discriminate | exact H]]|].
  apply (proj2 (function_of_builtin_types_round_trip elements "f"
                  [("i", "int"); ("Ds", "char16_t")] eq_refl ltac:(discriminate) H)).
Defined.

(** Property X19.  A template of builtin types parses back to its
    arguments: the source name of a template, [I], the codes of entries
    of the table of builtin types and [E] parse to the [qual_name] of the
    name and of the [tpl_args] of the spelled types, and demangle to the
    name with the spellings between angle brackets; no [::] is written
    before the arguments. *)
Theorem template_of_builtin_types_round_trip (set_iter : gset string -> list string)
    (name : string) (types : list (string * string)) :
  starts_with_digit name = false ->
  Forall (fun ty => In ty _builtin_types) types ->
  parse ("_Z" ++ source_name name ++ "I" ++ type_codes types ++ "E")
    = Returns (QualName [Name name; TplArgs (map (fun ty => Name (snd ty)) types)]) /\
  demangle set_iter ("_Z" ++ source_name name ++ "I" ++ type_codes types ++ "E")
    = Returns (Some (name ++ "<" ++ join ", " (map snd types) ++ ">")).
Proof.
  intros Hname Hall.
  set (tail := "I" ++ type_codes types ++ "E").
  set (raw := "_Z" ++ source_name name ++ tail).
  assert (parse raw
          = Returns (QualName [Name name; TplArgs (map (fun ty => Name (snd ty)) types)]))
    as Hparse.
  { unfold parse.
    set (n := String.length (source_name name)).
    set (k := String.length (type_codes types)).
    assert (String.length raw = n + k + 4) as Hlen.
    { unfold raw, tail, n, k. rewrite !length_app. simpl. lia. }
    pose proof (length_type_codes types Hall) as Hk. fold k in Hk.
    assert (fuel_for raw = S (S (S (4 * (n + k) + 21)))) as -> by (unfold fuel_for; lia).
    assert (wf (mkCursor raw 2)) as Hc by (unfold wf; simpl; lia).
    pose proof (name_source_step (S (4 * (n + k) + 21)) (mkCursor raw 2) name tail Hc eq_refl)
      as Hn.
    specialize (Hn ltac:(destruct name; [reflexivity | now rewrite app_cons])).
    change (String.prefix "I" tail) with (String.prefix "" (type_codes types ++ "E")) in Hn.
    rewrite prefix_nil in Hn. fold n in Hn.
    rewrite (until_end_types (4 * (n + k) + 21) types _ [] _ "") in Hn; try assumption.
    2: { apply wf_skip; [|assumption]. unfold remaining. cbn [_raw _pos]. lia. }
    2: { rewrite rest_skip.
         change (rest (mkCursor raw 2))
           with (source_name name ++ String "I" (type_codes types ++ "E")).
         unfold n. rewrite drop_app_plus. reflexivity. }
    2: lia.
    cbn [is_None app] in Hn.
    pose proof (special_none_source_name name tail) as Hsp.
    subst raw.
    rewrite (mangled_plain_name _ _ _ _ Hsp Hn); try reflexivity.
    unfold Cursor.at_end, skip. cbn [_raw _pos]. apply Nat.eqb_eq.
    rewrite Hlen. unfold n, k. lia. }
  split; [exact Hparse|].
  unfold demangle. rewrite Hparse. cbn [str String.eqb obind kind].
  rewrite <- (map_map snd Name), map_str_names. cbn [obind].
  rewrite !app_nil.
  destruct (String.eqb name ""); cbn [obind]; rewrite ?app_nil; reflexivity.
Qed.

Lemma template_of_builtin_types_round_trip_witness :
  (starts_with_digit "foo" = false /\
   Forall (fun ty => In ty _builtin_types) [("c", "char"); ("i", "int")]) /\
  demangle elements "_Z3fooIciE" = Returns (Some "foo<char, int>").
Proof.
  assert (Forall (fun ty => In ty _builtin_types) [("c", "char"); ("i", "int")]) as H
    by (repeat constructor; simpl; auto 30).
  split; [split; [reflexivity | exact H]|].
  apply (proj2 (template_of_builtin_types_round_trip elements "foo"
                  [("c", "char"); ("i", "int")] eq_refl H)).
Defined.

Module StdPrefix.

Lemma NAME_RE_std_prefix (s : string) :
  _NAME_RE (String "S" (String "t" s)) = Some (grp_std_prefix, 2).
Proof. destruct s; reflexivity. Qed.

(** The name production at the prefix [St]. *)
Lemma name_std_prefix (fuel : nat) (c : _Cursor) (t : string) (name : node) (c' : _Cursor) :
  rest c = String "S" (String "t" t) ->
  _parse_name fuel (skip 2 c) = Returns (name, c') ->
  String.prefix "I" (rest c') = false ->
  _parse_name (S fuel) c =
    Returns (match name with
             | PyNone => PyNone
             | QualName value => QualName (Name "std" :: value)
             | _ => QualName [Name "std"; name]
             end, c').
Proof.
  intros Hrest Hname HI.
  change (_parse_name (S fuel) c)
    with (_parse_name_body fuel (_parse_name fuel) (_parse_type fuel) c).
  unfold _parse_name_body.
  unfold bind at 1. unfold cmatch, call, Cursor.cmatch.
  rewrite Hrest, NAME_RE_std_prefix. fold (skip 2 c).
  unfold bind at 1. unfold bind at 1. rewrite Hname.
  destruct name; unfold ret at 1; cbn [app is_None]; try reflexivity;
    unfold bind at 1; unfold accept, call; rewrite accept_eq, HI; reflexivity.
Qed.

End StdPrefix.
Import StdPrefix.

(** Property X20.  The prefix [St] puts a name under [std]: [_ZSt] and a
    source name parse to the [qual_name] of [std] and the name; before a
    nested name the names are not nested again but follow [std] in one
    [qual_name]; both print with [::] after [std]. *)
Theorem std_prefix_round_trip (set_iter : gset string -> list string) :
  (forall name : string,
      starts_with_digit name = false ->
      parse ("_ZSt" ++ source_name name) = Returns (QualName [Name "std"; Name name]) /\
      demangle set_iter ("_ZSt" ++ source_name name) = Returns (Some ("std::" ++ name))) /\
  (forall names : list string,
      forallb identifier names = true ->
      parse ("_ZStN" ++ source_names names ++ "E")
        = Returns (QualName (Name "std" :: map Name names)) /\
      demangle set_iter ("_ZStN" ++ source_names names ++ "E")
        = Returns (Some (join "::" ("std" :: names)))).
Proof.
  split.
  - intros name Hname.
    assert (parse ("_ZSt" ++ source_name name) = Returns (QualName [Name "std"; Name name]))
      as Hparse.
    { unfold parse.
      set (n := String.length (source_name name)).
      assert (fuel_for ("_ZSt" ++ source_name name) = S (S (S (4 * n + 21)))) as ->
        by (unfold fuel_for, n; rewrite length_app; simpl; lia).
      set (raw := "_ZSt" ++ source_name name).
      assert (String.length raw = n + 4) as Hlen
        by (unfold raw, n; rewrite length_app; simpl; lia).
      assert (wf (mkCursor raw 4)) as Hc by (unfold wf; simpl; lia).
      assert (rest (mkCursor raw 4) = source_name name ++ "") as Hrest
        by (now rewrite app_empty_r).
      pose proof (name_source (4 * n + 21) (mkCursor raw 4) name "" Hc Hrest) as H.
      rewrite app_empty_r in H. specialize (H Hname eq_refl). fold n in H.
      pose proof (name_std_prefix (S (4 * n + 21)) (mkCursor raw 2) (source_name name)
                    (Name name) _ eq_refl H) as H2.
      assert (rest (skip n (mkCursor raw 4)) = "") as Hend.
      { rewrite rest_skip. change (rest (mkCursor raw 4)) with (source_name name).
        apply drop_all. unfold n. lia. }
      rewrite Hend in H2. specialize (H2 eq_refl).
      change raw with ("_Z" ++ String "S" (String "t" (source_name name))).
      rewrite (mangled_plain_name _ (String "S" (String "t" (source_name name))) _ _
                 eq_refl H2); try reflexivity.
      unfold Cursor.at_end, skip. cbn [_raw _pos]. apply Nat.eqb_eq.
      change (String.length ("_Z" ++ String "S" (String "t" (source_name name))))
        with (String.length raw). lia. }
    split; [exact Hparse|].
    unfold demangle. rewrite Hparse.
    change [Name "std"; Name name] with (map Name ["std"; name]).
    rewrite str_names by discriminate. reflexivity.
  - intros names Hid.
    assert (parse ("_ZStN" ++ source_names names ++ "E")
            = Returns (QualName (Name "std" :: map Name names))) as Hparse.
    { unfold parse.
      set (n := String.length (source_names names)).
      set (raw := "_ZStN" ++ source_names names ++ "E").
      assert (String.length raw = n + 6) as Hlen
        by (unfold raw, n; rewrite !length_app; simpl; lia).
      assert (fuel_for raw = S (S (S (S (4 * n + 28))))) as -> by (unfold fuel_for; lia).
      assert (wf (mkCursor raw 4)) as Hc by (unfold wf; simpl; lia).
      pose proof (length_source_names names) as Hnames. fold n in Hnames.
      pose proof (name_nested (4 * n + 28) names (mkCursor raw 4) "" Hc eq_refl Hid
                    ltac:(lia) eq_refl) as H.
      pose proof (name_std_prefix (S (S (4 * n + 28))) (mkCursor raw 2)
                    (String "N" (source_names names ++ "E"))
                    (QualName (map Name names)) _ eq_refl H) as H2.
      assert (rest (skip (n + 2) (mkCursor raw 4)) = "") as Hend.
      { rewrite rest_skip. apply drop_all. rewrite length_rest. unfold remaining.
        cbn [_raw _pos]. lia. }
      fold n in H2. rewrite Hend in H2. specialize (H2 eq_refl).
      change raw with ("_Z" ++ String "S" (String "t" (String "N" (source_names names ++ "E")))).
      rewrite (mangled_plain_name _
                 (String "S" (String "t" (String "N" (source_names names ++ "E")))) _ _
                 eq_refl H2); try reflexivity.
      unfold Cursor.at_end, skip. cbn [_raw _pos]. apply Nat.eqb_eq.
      change (String.length
                ("_Z" ++ String "S" (String "t" (String "N" (source_names names ++ "E")))))
        with (String.length raw). lia. }
    split; [exact Hparse|].
    unfold demangle. rewrite Hparse.
    change (Name "std" :: map Name names) with (map Name ("std" :: names)).
    rewrite str_names by discriminate. reflexivity.
Qed.

Lemma std_prefix_round_trip_witness :
  demangle elements "_ZStN3foo3barE" = Returns (Some "std::foo::bar").
Proof.
  apply (proj2 (proj2 (std_prefix_round_trip elements) ["foo"; "bar"] eq_refl)).
Defined.

(** ** Productions inside productions *)

Module Compose.

Lemma prefix_Z (m : string) :
  String.prefix "_Z" m = true -> exists m', m = String "_" (String "Z" m').
Proof.
  intros H. apply prefix_app in H. rewrite H. eexists. reflexivity.
Qed.

End Compose.
Import Compose.

(** Property X21.  A mangled name nested in an expression is parsed on
    its own: at [L], a text [m] that starts with [_Z] and holds no [E],
    and [E], the expression production gives what [parse] gives on [m],
    its exception included, and leaves the cursor after the [E]. *)
Theorem nested_mangled_name_is_parsed_on_its_own (fuel : nat) (c : _Cursor)
    (m tail : string) :
  wf c -> rest c = String "L" (m ++ String "E" tail) ->
  String.prefix "_Z" m = true -> mem "E" m = false ->
  3 * String.length m + 4 <= fuel ->
  _parse_expr_primary (S fuel) c =
    match parse m with
    | Returns v => Returns (v, skip (String.length m + 2) c)
    | Raises e => Raises e
    | NoFuel => NoFuel
    end.
Proof.
  intros Hc Hrest HZ HE Hfuel.
  cbn [_parse_expr_primary]. unfold _parse_expr_primary_body.
  unfold bind at 1. unfold cmatch, call, Cursor.cmatch. rewrite Hrest.
  assert (_EXPR_PRIMARY_RE (String "L" (m ++ String "E" tail)) = Some (grp_mangled_name, 1))
    as ->.
  { destruct (prefix_Z _ HZ) as (m' & ->). unfold _EXPR_PRIMARY_RE, alt.
    rewrite !app_cons. cbn [String.prefix].
    repeat (destruct (ascii_dec _ _); [|congruence]). now rewrite prefix_nil. }
  fold (skip 1 c).
  unfold bind at 1. unfold advance_until, call. rewrite advance_until_eq.
  rewrite rest_skip, Hrest. cbn [drop]. rewrite (find_app _ _ _ HE), take_app.
  rewrite skip_skip.
  unfold on_cursor, parse.
  assert (wf (mkCursor m 0)) as Hm by (unfold wf; simpl; lia).
  assert (remaining (mkCursor m 0) = String.length m) as Hrem
    by (unfold remaining; simpl; lia).
  pose proof (stable _parse_mangled_name fuel (fuel_for m) (mkCursor m 0) (mkCursor m 0)) as H.
  specialize (H ltac:(simpl; auto 10) (same_text_refl _ Hm)
                ltac:(lia) ltac:(unfold fuel_for; lia)).
  pose proof (has_fuel _parse_mangled_name fuel (mkCursor m 0)
                ltac:(simpl; auto 10) Hm ltac:(lia)) as Hnf.
  unfold agree in H.
  destruct (_parse_mangled_name fuel (mkCursor m 0)) as [[v c1]| |]; [| |congruence].
  - destruct H as (c2 & -> & _). cbn [result_of]. do 3 f_equal. lia.
  - now rewrite H.
Qed.

Lemma nested_mangled_name_is_parsed_on_its_own_witness :
  _parse_expr_primary 20 (mkCursor "_Z1fIL_Z1gEE" 5) =
    Returns (Name "g", mkCursor "_Z1fIL_Z1gEE" 11).
Proof.
  apply (nested_mangled_name_is_parsed_on_its_own 19 (mkCursor "_Z1fIL_Z1gEE" 5) "_Z1g" "E");
    try reflexivity.
  - unfold wf; simpl; lia.
  - simpl; lia.
Defined.

(** Property X22.  A special name wraps the type that follows its tag:
    when the type production gives a node on a text [t], [parse] gives
    the vtable, VTT, typeinfo or typeinfo-name node of that node on [t]
    after [_ZTV], [_ZTT], [_ZTI] or [_ZTS].  Whatever the type production
    leaves unread in [t] is not looked at. *)
Theorem special_name_wraps_its_type (t : string) (ty : node) (f : nat) (c' : _Cursor) :
  _parse_type f (mkCursor t 0) = Returns (ty, c') -> is_None ty = false ->
  parse ("_ZTV" ++ t) = Returns (VTable ty) /\
  parse ("_ZTT" ++ t) = Returns (VTT ty) /\
  parse ("_ZTI" ++ t) = Returns (TypeInfo ty) /\
  parse ("_ZTS" ++ t) = Returns (TypeInfoName ty).
Proof.
  intros Hrun Hnone.
  assert (forall kind : ascii,
            In kind ["V"; "T"; "I"; "S"]%char ->
            parse (String "_" (String "Z" (String "T" (String kind t))))
            = Returns (if Ascii.eqb kind "V" then VTable ty
                       else if Ascii.eqb kind "T" then VTT ty
                       else if Ascii.eqb kind "I" then TypeInfo ty
                       else TypeInfoName ty)) as H.
  { intros kind Hkind.
    set (raw := String "_" (String "Z" (String "T" (String kind t)))).
    destruct (run_transfers _parse_type f (4 * String.length t + 22) (mkCursor t 0)
                (mkCursor raw 4) c' ty) as (c'' & Hk & _); eauto.
    { simpl; auto. }
    { unfold wf; simpl; lia. }
    { unfold wf; simpl; lia. }
    { unfold remaining; simpl; lia. }
    unfold parse.
    assert (fuel_for raw = S (S (4 * String.length t + 22))) as ->
      by (unfold fuel_for; simpl; lia).
    cbn [_parse_mangled_name]. unfold _parse_mangled_name_body.
    unfold bind at 1. unfold cmatch, call, Cursor.cmatch.
    change (_MANGLED_NAME_RE (rest (mkCursor raw 0))) with (Some (tt, 2)).
    cbn [_raw _pos Nat.add].
    unfold bind at 1. cbn [_parse_special]. unfold _parse_special_body.
    unfold bind at 1. unfold cmatch, call, Cursor.cmatch.
    assert (_SPECIAL_RE (rest (mkCursor raw 2)) = Some (String kind "", 2)) as ->.
    { repeat (destruct Hkind as [<-|Hkind]; [reflexivity|]). destruct Hkind. }
    cbn [_raw _pos Nat.add].
    unfold bind at 1. rewrite Hk, Hnone.
    repeat (destruct Hkind as [<-|Hkind]; [reflexivity|]). destruct Hkind. }
  repeat split.
  - apply (H "V"%char). simpl; auto.
  - apply (H "T"%char). simpl; auto.
  - apply (H "I"%char). simpl; auto.
  - apply (H "S"%char). simpl; auto.
Qed.

Lemma special_name_wraps_its_type_witness :
  (_parse_type 3 (mkCursor "1fxyz" 0) = Returns (Name "f", mkCursor "1fxyz" 2) /\
   is_None (Name "f") = false) /\
  parse "_ZTV1fxyz" = Returns (VTable (Name "f")).
Proof.
  split; [split; reflexivity|].
  apply (special_name_wraps_its_type "1fxyz" (Name "f") 3 (mkCursor "1fxyz" 2));
    reflexivity.
Defined.

(** Property X23.  A literal of a builtin type: at [L], the code of an
    entry of the table of builtin types, a value with no [E] in it, and
    [E], the expression production gives the [literal] of the value and
    of the spelled type and leaves the cursor after the [E]; the literal
    prints as the spelling between parentheses, then the value. *)
Theorem literal_of_builtin_type (set_iter : gset string -> list string) (fuel : nat)
    (c : _Cursor) (code spelling value tail : string) :
  In (code, spelling) _builtin_types ->
  rest c = String "L" (code ++ value ++ String "E" tail) ->
  mem "E" value = false ->
  _parse_expr_primary (S (S fuel)) c =
    Returns (Literal value (Name spelling),
             skip (String.length code + String.length value + 2) c) /\
  str set_iter (Literal value (Name spelling)) = Returns ("(" ++ spelling ++ ")" ++ value).
Proof.
  intros Hin Hrest HE. split; [|reflexivity].
  destruct (builtin_entry _ _ "" Hin) as (_ & _ & a & s & Hcode & _ & _ & _ & Ha).
  cbn [_parse_expr_primary]. unfold _parse_expr_primary_body.
  unfold bind at 1. unfold cmatch, call, Cursor.cmatch. rewrite Hrest.
  assert (_EXPR_PRIMARY_RE (String "L" (code ++ value ++ String "E" tail))
          = Some (grp_literal, 1)) as ->.
  { unfold _EXPR_PRIMARY_RE, alt, lit. rewrite Hcode, app_cons, !prefix_cons, Ha.
    now rewrite prefix_nil. }
  fold (skip 1 c).
  unfold bind at 1.
  rewrite (type_builtin fuel (skip 1 c) code spelling (value ++ String "E" tail));
    [|now rewrite rest_skip, Hrest|assumption].
  cbn [is_None].
  unfold bind at 1. unfold advance_until, call. rewrite advance_until_eq.
  rewrite !rest_skip, Hrest. cbn [drop]. rewrite drop_app.
  rewrite (find_app _ _ _ HE), take_app. unfold ret.
  rewrite !skip_skip. do 3 f_equal. lia.
Qed.

Lemma literal_of_builtin_type_witness :
  _parse_expr_primary 2 (mkCursor "_Z1fILi1EE" 5) =
    Returns (Literal "1" (Name "int"), mkCursor "_Z1fILi1EE" 9).
Proof.
  apply (proj1 (literal_of_builtin_type elements 0 (mkCursor "_Z1fILi1EE" 5)
                  "i" "int" "1" "E" ltac:(simpl; auto 30) eq_refl eq_refl)).
Defined.

(** Property X24.  An indirect type wraps its target: at [P], [R] or [O]
    the type production gives the pointer, lvalue or rvalue of what it
    gives on the text after the letter, [None] when that is [None]; and
    such a node prints as its target followed by [*], [&] or [&&]. *)
Theorem indirect_type_wraps_its_target (set_iter : gset string -> list string) :
  (forall (fuel : nat) (c : _Cursor) (q : ascii) (t : string),
      In q ["P"; "R"; "O"]%char -> rest c = String q t ->
      _parse_type (S fuel) c =
        match _parse_type fuel (skip 1 c) with
        | Returns (ty, c') =>
            Returns (if is_None ty then PyNone else _handle_indirect (String q "") ty, c')
        | Raises e => Raises e
        | NoFuel => NoFuel
        end) /\
  (forall (ty : node) (s : string),
      str set_iter ty = Returns s ->
      str set_iter (_handle_indirect "P" ty) = Returns (s ++ "*") /\
      str set_iter (_handle_indirect "R" ty) = Returns (s ++ "&") /\
      str set_iter (_handle_indirect "O" ty) = Returns (s ++ "&&")).
Proof.
  split.
  - intros fuel c q t Hq Hrest.
    cbn [_parse_type]. unfold _parse_type_body.
    unfold bind at 1. unfold cmatch, call, Cursor.cmatch. rewrite Hrest.
    assert (_TYPE_RE (String q t) = Some (grp_indirect_type (String q ""), 1)) as ->.
    { repeat (destruct Hq as [<-|Hq]; [destruct t; reflexivity|]). destruct Hq. }
    fold (skip 1 c). unfold bind.
    destruct (_parse_type fuel (skip 1 c)) as [[ty c']| |]; try reflexivity.
    now destruct (is_None ty).
  - intros ty s Hs. cbn [_handle_indirect String.eqb Ascii.eqb Bool.eqb str].
    now rewrite Hs.
Qed.

Lemma indirect_type_wraps_its_target_witness :
  _parse_type 2 (mkCursor "_Z1fPi" 4) = Returns (Pointer (Name "int"), mkCursor "_Z1fPi" 6).
Proof.
  apply (proj1 (indirect_type_wraps_its_target elements) 1 (mkCursor "_Z1fPi" 4) "P"%char "i");
    [simpl; auto | reflexivity].
Defined.

(** ** Printing what was parsed *)

Module Digits.











End Digits.

Module Printable.

Section Str.
Variable set_iter : gset string -> list string.







End Str.









End Printable.
Import Printable.


